(** * atpbar/machine.py: the reporter/pickup life-cycle state machine

    A shallow embedding of [StateMachine] and of the four state classes
    [Initial], [Started], [Registered] and [Disabled], with the effects of
    the code made explicit: object allocation, the mutable fields of
    [Started] objects (kept on a heap, since generators keep a reference to
    the object that created them), the lock, the sentinel put on the queue,
    and the starting and joining of pickup tasks. *)

From stdpp Require Import gmap list.

(** ** Objects *)

(** Python object identity. *)
Abbreviation oid := nat (only parsing).

(** [ProgressReporter(queue=...)] *)
Record ProgressReporter := {
  reporter_id : oid;
  reporter_queue : option oid
}.

(** [ProgressReportPickup(queue, presentation, detach)]; [pickup_detach] is
    the [Started] object whose bound method [detach] was handed over. *)
Record ProgressReportPickup := {
  pickup_id : oid;
  pickup_queue : option oid;
  pickup_detach : oid
}.

#[global] Instance ProgressReporter_eq_dec : EqDecision ProgressReporter.
Proof. solve_decision. Defined.
#[global] Instance ProgressReportPickup_eq_dec : EqDecision ProgressReportPickup.
Proof. solve_decision. Defined.

(** The fields of a [Started] object. *)
Record Started := {
  reporter : option ProgressReporter;
  queue : option oid;
  pickup : option ProgressReportPickup;
  reporter_yielded : bool;
  to_restart_pickup : bool
}.

#[global] Instance Started_eq_dec : EqDecision Started.
Proof. solve_decision. Defined.

(** The state classes. [Initial], [Registered] and [Disabled] objects are
    never mutated and are kept as values; a [Started] object is mutable and
    is referred to by its address on the heap. *)
Inductive State :=
| Initial (reporter : option ProgressReporter) (queue : option oid)
| StartedRef (l : oid)
| Registered (reporter : option ProgressReporter)
| Disabled.

#[global] Instance State_eq_dec : EqDecision State.
Proof. solve_decision. Defined.

(** What is done to the queues and to the pickup tasks, as events. *)
Inductive Event :=
| EvStart (p : ProgressReportPickup)   (* pickup.start() *)
| EvPut (q : oid)                      (* queue.put(None) *)
| EvJoin (p : ProgressReportPickup).   (* pickup.join() has returned *)

#[global] Instance Event_eq_dec : EqDecision Event.
Proof. solve_decision. Defined.

(** ** The world *)

Record World := {
  next_id : oid;                 (* allocator of object identities *)
  heap : gmap oid Started;       (* the Started objects *)
  sentinels : gmap oid nat;      (* per queue: sentinels put and not yet consumed *)
  alive : gset oid;              (* pickup tasks started and not yet finished *)
  events : list Event;           (* trace of effects, oldest first *)
  locked : bool;                 (* StateMachine.lock *)
  state : State                  (* StateMachine.state *)
}.

Definition set_next_id (n : oid) (w : World) : World :=
  {| next_id := n; heap := heap w; sentinels := sentinels w; alive := alive w;
     events := events w; locked := locked w; state := state w |}.
Definition set_heap (h : gmap oid Started) (w : World) : World :=
  {| next_id := next_id w; heap := h; sentinels := sentinels w; alive := alive w;
     events := events w; locked := locked w; state := state w |}.
Definition set_sentinels (q : gmap oid nat) (w : World) : World :=
  {| next_id := next_id w; heap := heap w; sentinels := q; alive := alive w;
     events := events w; locked := locked w; state := state w |}.
Definition set_alive (a : gset oid) (w : World) : World :=
  {| next_id := next_id w; heap := heap w; sentinels := sentinels w; alive := a;
     events := events w; locked := locked w; state := state w |}.
Definition emit (e : Event) (w : World) : World :=
  {| next_id := next_id w; heap := heap w; sentinels := sentinels w; alive := alive w;
     events := events w ++ [e]; locked := locked w; state := state w |}.
Definition set_locked (b : bool) (w : World) : World :=
  {| next_id := next_id w; heap := heap w; sentinels := sentinels w; alive := alive w;
     events := events w; locked := b; state := state w |}.
Definition set_state (s : State) (w : World) : World :=
  {| next_id := next_id w; heap := heap w; sentinels := sentinels w; alive := alive w;
     events := events w; locked := locked w; state := s |}.

(** Number of sentinels waiting on queue [q]. *)
Definition pending (w : World) (q : oid) : nat := default 0 (sentinels w !! q).

(** ** Computations *)

Inductive exn :=
| AttributeError
| StopIteration
| GeneratorExit
| RuntimeError
| Exception (n : nat).       (* an exception of the caller, of another class *)

#[global] Instance exn_eq_dec : EqDecision exn.
Proof. solve_decision. Defined.

(** A call returns, raises, blocks for ever ([Hangs]), or has no behaviour
    because the world holds a dangling reference ([Undefined]). *)
Inductive outcome (A : Type) :=
| Return (a : A) (w : World)
| Raise (e : exn) (w : World)
| Hangs
| Undefined.
Arguments Return {A} a w.
Arguments Raise {A} e w.
Arguments Hangs {A}.
Arguments Undefined {A}.

Definition M (A : Type) : Type := World → outcome A.

#[global] Instance M_ret : MRet M := λ A a w, Return a w.
#[global] Instance M_bind : MBind M := λ A B f m w,
  match m w with
  | Return a w' => f a w'
  | Raise e w' => Raise e w'
  | Hangs => Hangs
  | Undefined => Undefined
  end.

Definition raise {A} (e : exn) : M A := λ w, Raise e w.
Definition modify (f : World → World) : M unit := λ w, Return tt (f w).
Definition gets {A} (f : World → A) : M A := λ w, Return (f w) w.

(** Allocation of a fresh object identity. *)
Definition new_id : M oid := λ w, Return (next_id w) (set_next_id (S (next_id w)) w).

(** Reading and writing the fields of the [Started] object at [l]. *)
Definition read (l : oid) : M Started := λ w,
  match heap w !! l with
  | Some s => Return s w
  | None => Undefined
  end.
Definition write (l : oid) (s : Started) : M unit :=
  modify (λ w, set_heap (<[l:=s]> (heap w)) w).

(** Assignments to the fields of a [Started] object. *)
Definition with_reporter (r : option ProgressReporter) (s : Started) : Started :=
  {| reporter := r; queue := queue s; pickup := pickup s;
     reporter_yielded := reporter_yielded s;
     to_restart_pickup := to_restart_pickup s |}.
Definition with_queue (q : option oid) (s : Started) : Started :=
  {| reporter := reporter s; queue := q; pickup := pickup s;
     reporter_yielded := reporter_yielded s;
     to_restart_pickup := to_restart_pickup s |}.
Definition with_pickup (p : option ProgressReportPickup) (s : Started) : Started :=
  {| reporter := reporter s; queue := queue s; pickup := p;
     reporter_yielded := reporter_yielded s;
     to_restart_pickup := to_restart_pickup s |}.
Definition with_reporter_yielded (b : bool) (s : Started) : Started :=
  {| reporter := reporter s; queue := queue s; pickup := pickup s;
     reporter_yielded := b;
     to_restart_pickup := to_restart_pickup s |}.
Definition with_to_restart_pickup (b : bool) (s : Started) : Started :=
  {| reporter := reporter s; queue := queue s; pickup := pickup s;
     reporter_yielded := reporter_yielded s;
     to_restart_pickup := b |}.

Definition set_reporter (l : oid) (r : option ProgressReporter) : M unit :=
  s ← read l; write l (with_reporter r s).
Definition set_queue (l : oid) (q : option oid) : M unit :=
  s ← read l; write l (with_queue q s).
Definition set_pickup (l : oid) (p : option ProgressReportPickup) : M unit :=
  s ← read l; write l (with_pickup p s).
Definition set_reporter_yielded (l : oid) (b : bool) : M unit :=
  s ← read l; write l (with_reporter_yielded b s).
Definition set_to_restart_pickup (l : oid) (b : bool) : M unit :=
  s ← read l; write l (with_to_restart_pickup b s).

(** [with lock: body]: the lock is released on every way out of [body]. *)
Definition with_lock {A} (body : M A) : M A := λ w,
  if locked w then Hangs
  else match body (set_locked true w) with
       | Return a w' => Return a (set_locked false w')
       | Raise e w' => Raise e (set_locked false w')
       | Hangs => Hangs
       | Undefined => Undefined
       end.

(** ** The collaborators

    The queue, the reporter and the pickup are built and used through the
    calls below. A call of a collaborator is taken to succeed: a failure of
    one of them, which the machine would pass on to its caller as it is,
    has no counterpart here, and what is proved is about the runs in which
    these calls succeed. *)

(** Modelled from the spec: [multiprocessing.Queue()], the process-safe
    channel; a new queue holds no sentinel. *)
Definition new_Queue : M oid :=
  q ← new_id;
  modify (λ w, set_sentinels (<[q:=0]> (sentinels w)) w);;
  mret q.

(** Modelled from the spec: [ProgressReporter(queue=...)] (atpbar/reporter.py)
    is constructed from a channel and is stateless otherwise. *)
Definition new_ProgressReporter (q : option oid) : M ProgressReporter :=
  i ← new_id;
  mret {| reporter_id := i; reporter_queue := q |}.

(** Modelled from the spec: [ProgressReportPickup(queue, presentation,
    detach)] (atpbar/pickup.py) is built from a channel, a presentation and
    the detach callback. *)
Definition new_ProgressReportPickup (q : option oid) (detach : oid) : M ProgressReportPickup :=
  i ← new_id;
  mret {| pickup_id := i; pickup_queue := q; pickup_detach := detach |}.

(** Modelled from the spec: [pickup.start()] begins consuming the channel,
    and by the stop protocol a task that receives the sentinel exits. A
    task started on a channel on which a sentinel is waiting takes that
    sentinel and has exited; a task built without a channel has nothing to
    consume and is not among the tasks alive; otherwise the task is alive
    from then on. *)
Definition pickup_start (p : ProgressReportPickup) : M unit :=
  modify (λ w,
    emit (EvStart p)
      match pickup_queue p with
      | Some q =>
          match pending w q with
          | S n => set_sentinels (<[q:=n]> (sentinels w)) w
          | O => set_alive ({[pickup_id p]} ∪ alive w) w
          end
      | None => w
      end).

(** Modelled from the spec: [queue.put(None)] sends the sentinel that stops
    a pickup task. *)
Definition queue_put_None (q : oid) : M unit :=
  modify (λ w, emit (EvPut q) (set_sentinels (<[q:=S (pending w q)]> (sentinels w)) w)).

(** Modelled from the spec: [pickup.join()] blocks until the task has fully
    exited. It returns at once when the task has already finished;
    otherwise the task takes one sentinel from its queue and exits; with no
    sentinel to take, the caller waits for ever. *)
Definition pickup_join (p : ProgressReportPickup) : M unit := λ w,
  if decide (pickup_id p ∈ alive w) then
    match pickup_queue p with
    | Some q =>
        match pending w q with
        | S n => Return tt (emit (EvJoin p)
                   (set_alive (alive w ∖ {[pickup_id p]})
                      (set_sentinels (<[q:=n]> (sentinels w)) w)))
        | O => Hangs
        end
    | None => Hangs
    end
  else Return tt (emit (EvJoin p) w).

(** ** class Started *)

(** [create_presentation()] has no effect on the world kept here. *)
Definition _start_pickup (l : oid) : M unit :=
  s ← read l;
  p ← new_ProgressReportPickup (queue s) l;
  set_pickup l (Some p);;
  pickup_start p.

Definition _end_pickup (l : oid) : M unit :=
  s ← read l;
  match queue s with
  | None => raise AttributeError
  | Some q =>
      queue_put_None q;;
      match pickup s with
      | None => raise AttributeError
      | Some p => pickup_join p;; set_pickup l None
      end
  end.

Definition _restart_pickup (l : oid) : M unit :=
  _end_pickup l;; _start_pickup l.

(** [Started.__init__]; returns the reference to the new object. *)
Definition Started_init (r : option ProgressReporter) (q : option oid) : M oid :=
  l ← new_id;
  write l {| reporter := r; queue := q; pickup := None;
             reporter_yielded := false; to_restart_pickup := true |};;
  match r with
  | None =>
      match q with
      | None => q' ← new_Queue; set_queue l (Some q')
      | Some _ => mret tt
      end;;
      s ← read l;
      r' ← new_ProgressReporter (queue s);
      set_reporter l (Some r')
  | Some _ => mret tt
  end;;
  _start_pickup l;;
  mret l.

Definition detach (l : oid) : M unit := set_to_restart_pickup l false.

(** ** The state methods, dispatched on the class of [self] *)

Definition prepare_reporter (self : State) : M State :=
  match self with
  | Initial r q => l ← Started_init r q; mret (StartedRef l)
  | _ => mret self
  end.

Definition register_reporter (self : State) (r : option ProgressReporter) : M State :=
  mret (Registered r).

Definition disable (self : State) : M State := mret Disabled.

Definition flush (self : State) : M State :=
  match self with
  | Initial r q => l ← Started_init r q; mret (StartedRef l)
  | StartedRef l => _restart_pickup l;; mret self
  | _ => mret self
  end.

Definition shutdown (self : State) : M State :=
  match self with
  | StartedRef l =>
      _end_pickup l;;
      s ← read l;
      mret (Initial (reporter s) (queue s))
  | _ => mret self
  end.

(** The attribute [self.reporter]. *)
Definition state_reporter (self : State) : M (option ProgressReporter) :=
  match self with
  | Initial r _ => mret r
  | StartedRef l => s ← read l; mret (reporter s)
  | Registered r => mret r
  | Disabled => mret None
  end.

(** ** Generators *)

(** How a suspended generator is resumed: [next(g)], [g.throw(e)] with an
    exception of the caller - of a class other than [StopIteration] and
    [GeneratorExit], which a generator treats in ways of their own - or
    [g.close()], which throws [GeneratorExit]. *)
Inductive resumption := RNext | RThrow (n : nat) | RClose.

#[global] Instance resumption_eq_dec : EqDecision resumption.
Proof. solve_decision. Defined.

(** The [yield] expression at which the frame was suspended, on resumption. *)
Definition resumed (r : resumption) : M unit :=
  match r with
  | RNext => mret tt
  | RThrow n => raise (Exception n)
  | RClose => raise GeneratorExit
  end.

(** Where the frame of a state's [fetch_reporter] stands: not yet started,
    suspended at a plain [yield], suspended at the [yield] inside the [try]
    of [Started.fetch_reporter], or finished. *)
Inductive pc := Fresh | AtYield | AtYieldTry | Finished.

#[global] Instance pc_eq_dec : EqDecision pc.
Proof. solve_decision. Defined.

(** How a block ends when it does not raise: by falling through or by
    executing [return]. *)
Inductive completion := Normal | Returns.

(** [try: body finally: fin]. A [return] inside [fin] discards the exception
    in flight; an exception raised by [fin] replaces it. *)
Definition try_finally (body : M unit) (fin : M completion) : M completion := λ w,
  match body w with
  | Return _ w1 => fin w1
  | Raise e w1 =>
      match fin w1 with
      | Return Normal w2 => Raise e w2
      | Return Returns w2 => Return Returns w2
      | Raise e' w2 => Raise e' w2
      | Hangs => Hangs
      | Undefined => Undefined
      end
  | Hangs => Hangs
  | Undefined => Undefined
  end.

(** A run of a generator body goes up to the next [yield], giving the new
    position and the yielded value, or to the end of the body. *)
Inductive run_end :=
| Yields (next : pc) (v : option ProgressReporter)
| Done.

(** The [finally] block of [Started.fetch_reporter]. *)
Definition fetch_reporter_finally (l : oid) : M completion :=
  set_reporter_yielded l false;;
  s ← read l;
  if negb (to_restart_pickup s) then mret Returns
  else with_lock (_restart_pickup l);; mret Normal.

(** [Started.fetch_reporter(self, lock)], resumed at [at_] by [r] on a thread
    for which [in_main_thread()] answers [main]. *)
Definition Started_fetch_reporter (main : bool) (l : oid) (at_ : pc) (r : resumption)
  : M run_end :=
  match at_ with
  | Fresh =>
      resumed r;;
      if negb main then
        s ← read l; mret (Yields AtYield (reporter s))
      else
        s ← read l;
        if reporter_yielded s then
          mret (Yields AtYield (reporter s))
        else
          set_reporter_yielded l true;;
          set_to_restart_pickup l true;;
          s ← read l;
          mret (Yields AtYieldTry (reporter s))
  | AtYield => resumed r;; mret Done
  | AtYieldTry => try_finally (resumed r) (fetch_reporter_finally l);; mret Done
  | Finished => resumed r;; mret Done
  end.

(** [fetch_reporter] of the classes that yield once and return:
    [State] (inherited by [Disabled]), [Initial] and [Registered]. *)
Definition yield_once (v : option ProgressReporter) (at_ : pc) (r : resumption)
  : M run_end :=
  match at_ with
  | Fresh => resumed r;; mret (Yields AtYield v)
  | _ => resumed r;; mret Done
  end.

Definition fetch_reporter (main : bool) (self : State) (at_ : pc) (r : resumption)
  : M run_end :=
  match self with
  | Initial rep _ => yield_once rep at_ r
  | StartedRef l => Started_fetch_reporter main l at_ r
  | Registered rep => yield_once rep at_ r
  | Disabled => yield_once None at_ r
  end.

(** The generator object made by [self.fetch_reporter(lock)]. *)
Record StateGen := { gen_self : State; gen_pc : pc }.

#[global] Instance StateGen_eq_dec : EqDecision StateGen.
Proof. solve_decision. Defined.

Definition gen_at (g : StateGen) (p : pc) : StateGen :=
  {| gen_self := gen_self g; gen_pc := p |}.

(** Resuming a generator. Reaching the end of the body raises
    [StopIteration]; an exception leaving the body finishes the generator. *)
Definition gen_resume (main : bool) (g : StateGen) (r : resumption) (w : World)
  : StateGen * outcome (option ProgressReporter) :=
  match fetch_reporter main (gen_self g) (gen_pc g) r w with
  | Return (Yields p v) w' => (gen_at g p, Return v w')
  | Return Done w' => (gen_at g Finished, Raise StopIteration w')
  | Raise e w' => (gen_at g Finished, Raise e w')
  | Hangs => (g, Hangs)
  | Undefined => (g, Undefined)
  end.

(** What [g.close()] makes of the way the generator took [GeneratorExit]. *)
Definition closing {G} (res : G * outcome (option ProgressReporter)) : G * outcome unit :=
  match res with
  | (g', Raise StopIteration w') => (g', Return tt w')
  | (g', Raise GeneratorExit w') => (g', Return tt w')
  | (g', Raise e w') => (g', Raise e w')
  | (g', Return _ w') => (g', Raise RuntimeError w')
  | (g', Hangs) => (g', Hangs)
  | (g', Undefined) => (g', Undefined)
  end.

Definition gen_close (main : bool) (g : StateGen) (w : World) : StateGen * outcome unit :=
  closing (gen_resume main g RClose w).

(** ** class StateMachine *)

Module StateMachine.

(** [StateMachine.__init__] in a process that has allocated nothing yet. *)
Definition init : World :=
  {| next_id := 0; heap := ∅; sentinels := ∅; alive := ∅; events := [];
     locked := false; state := Initial None None |}.

Definition find_reporter : M (option ProgressReporter) :=
  with_lock (s ← gets state; s' ← prepare_reporter s; modify (set_state s'));;
  s ← gets state;
  state_reporter s.

Definition register_reporter (r : option ProgressReporter) : M unit :=
  s ← gets state; s' ← register_reporter s r; modify (set_state s').

Definition flush : M unit :=
  with_lock (s ← gets state; s' ← flush s; modify (set_state s')).

Definition disable : M unit :=
  s ← gets state; s' ← disable s; modify (set_state s').

Definition shutdown : M unit :=
  with_lock (s ← gets state; s' ← shutdown s; modify (set_state s')).

(** The frame of the generator [StateMachine.fetch_reporter]: not started,
    delegating to the state's generator ([yield from]), or finished. *)
Inductive Gen := GFresh | GYieldFrom (g : StateGen) | GFinished.

#[global] Instance Gen_eq_dec : EqDecision Gen.
Proof. solve_decision. Defined.

(** [yield from g], entered or resumed by [r]: [close] and [throw] are
    passed on to [g]; when [g] returns, so does the delegating body. *)
Definition yield_from (main : bool) (g : StateGen) (r : resumption) (w : World)
  : Gen * outcome (option ProgressReporter) :=
  match r with
  | RClose =>
      match gen_close main g w with
      | (_, Return _ w') => (GFinished, Raise GeneratorExit w')
      | (_, Raise e w') => (GFinished, Raise e w')
      | (g', Hangs) => (GYieldFrom g', Hangs)
      | (g', Undefined) => (GYieldFrom g', Undefined)
      end
  | _ =>
      match gen_resume main g r w with
      | (g', Return v w') => (GYieldFrom g', Return v w')
      | (_, Raise e w') => (GFinished, Raise e w')
      | (g', Hangs) => (GYieldFrom g', Hangs)
      | (g', Undefined) => (GYieldFrom g', Undefined)
      end
  end.

Definition fetch_reporter (main : bool) (g : Gen) (r : resumption) (w : World)
  : Gen * outcome (option ProgressReporter) :=
  match g with
  | GFresh =>
      match resumed r w with
      | Return _ _ =>
          match with_lock (s ← gets state; s' ← prepare_reporter s;
                           modify (set_state s')) w with
          | Return _ w' =>
              yield_from main {| gen_self := state w'; gen_pc := Fresh |} RNext w'
          | Raise e w' => (GFinished, Raise e w')
          | Hangs => (g, Hangs)
          | Undefined => (g, Undefined)
          end
      | Raise e w' => (GFinished, Raise e w')
      | Hangs => (g, Hangs)
      | Undefined => (g, Undefined)
      end
  | GYieldFrom sg => yield_from main sg r w
  | GFinished =>
      match resumed r w with
      | Return _ w' => (GFinished, Raise StopIteration w')
      | Raise e w' => (GFinished, Raise e w')
      | Hangs => (g, Hangs)
      | Undefined => (g, Undefined)
      end
  end.

Definition next (main : bool) (g : Gen) := fetch_reporter main g RNext.
Definition throw (main : bool) (g : Gen) (n : nat) := fetch_reporter main g (RThrow n).
Definition close (main : bool) (g : Gen) (w : World) : Gen * outcome unit :=
  closing (fetch_reporter main g RClose w).

End StateMachine.

(** ** Runs of a program using the machine *)

(** What a client, a thread of the process or a pickup task can do next.
    Generators made by [fetch_reporter()] are kept in a pool and named by
    their position in it. *)
Inductive op :=
| FindReporter
| RegisterReporter (r : option ProgressReporter)
| Flush
| Disable
| Shutdown
| FetchReporter                          (* g = machine.fetch_reporter() *)
| Next (main : bool) (i : nat)           (* next(g_i) *)
| Throw (main : bool) (i : nat) (n : nat)  (* g_i.throw(Exception n) *)
| Close (main : bool) (i : nat)          (* g_i.close() *)
| Detach (l : oid).                      (* a pickup calls the detach of [l] *)

#[global] Instance op_eq_dec : EqDecision op.
Proof. solve_decision. Defined.

Record config := {
  world : World;
  gens : list StateMachine.Gen
}.

(** The world a call leaves behind; a caller that hangs goes no further. *)
Definition after {A} (o : outcome A) : option World :=
  match o with
  | Return _ w => Some w
  | Raise _ w => Some w
  | Hangs => None
  | Undefined => None
  end.

(** Resumption of the generator at position [i]; a position that names no
    generator is no step of any program and leaves everything as it is. *)
Definition resume_at {A} (i : nat)
    (f : StateMachine.Gen → World → StateMachine.Gen * outcome A) (c : config)
  : option config :=
  match gens c !! i with
  | None => Some c
  | Some g =>
      let '(g', o) := f g (world c) in
      w ← after o; Some {| world := w; gens := <[i:=g']> (gens c) |}
  end.

Definition call {A} (m : M A) (c : config) : option config :=
  w ← after (m (world c)); Some {| world := w; gens := gens c |}.

Definition step (o : op) (c : config) : option config :=
  match o with
  | FindReporter => call StateMachine.find_reporter c
  | RegisterReporter r => call (StateMachine.register_reporter r) c
  | Flush => call StateMachine.flush c
  | Disable => call StateMachine.disable c
  | Shutdown => call StateMachine.shutdown c
  | FetchReporter =>
      Some {| world := world c; gens := gens c ++ [StateMachine.GFresh] |}
  | Next main i => resume_at i (StateMachine.next main) c
  | Throw main i n => resume_at i (λ g, StateMachine.throw main g n) c
  | Close main i => resume_at i (StateMachine.close main) c
  | Detach l => call (detach l) c
  end.

Fixpoint steps (os : list op) (c : config) : option config :=
  match os with
  | [] => Some c
  | o :: os' => c' ← step o c; steps os' c'
  end.

(** A process that has just created its machine. *)
Definition start : config := {| world := StateMachine.init; gens := [] |}.

(** The machine's generator suspended inside the [try] of
    [Started.fetch_reporter] of the object at [l]: an outermost usage on the
    main thread is under way. *)
Definition outermost_gen (l : oid) : StateMachine.Gen :=
  StateMachine.GYieldFrom {| gen_self := StartedRef l; gen_pc := AtYieldTry |}.

(** The machine's generator suspended at the plain [yield] of the state
    [st]: for a [Started] state, in a nested usage or in a usage from
    another thread. *)
Definition plain_gen (st : State) : StateMachine.Gen :=
  StateMachine.GYieldFrom {| gen_self := st; gen_pc := AtYield |}.

(** The generator at position [i] is in an outermost usage of [l]. *)
Definition outermost_at (c : config) (i : nat) (l : oid) : Prop :=
  gens c !! i = Some (outermost_gen l).

(** The generator an operation resumes, the thread it does so on, and the
    way it does. *)
Definition op_resumption (o : op) : option (bool * nat * resumption) :=
  match o with
  | Next main i => Some (main, i, RNext)
  | Throw main i n => Some (main, i, RThrow n)
  | Close main i => Some (main, i, RClose)
  | _ => None
  end.

(** The operation resumes the generator at position [i]. *)
Definition resumes (o : op) (i : nat) : bool :=
  match o with
  | Next _ j => bool_decide (i = j)
  | Throw _ j _ => bool_decide (i = j)
  | Close _ j => bool_decide (i = j)
  | _ => false
  end.

(** Operations on generators made on the main thread of the main process. *)
Definition main_fetch (o : op) : bool :=
  match o with
  | FetchReporter => true
  | Next main _ => main
  | Throw main _ _ => main
  | Close main _ => main
  | _ => false
  end.

(** Operations that go through the methods of the current state and do
    not replace it when it is a [Registered] state. *)
Definition keeps_state (o : op) : bool :=
  match o with
  | RegisterReporter _ => false
  | Disable => false
  | Detach _ => false
  | _ => true
  end.

(** ** Results of the methods, spelled out *)

(** The pickup object that [_start_pickup] builds for the object [s] at [l]. *)
Definition fresh_pickup (w : World) (l : oid) (s : Started) : ProgressReportPickup :=
  {| pickup_id := next_id w; pickup_queue := queue s; pickup_detach := l |}.

(** The world after [_start_pickup] when no sentinel is waiting on the
    queue of the object: the new task is alive. *)
Definition started_pickup (w : World) (l : oid) (s : Started) : World :=
  emit (EvStart (fresh_pickup w l s))
    (set_alive ({[next_id w]} ∪ alive w)
       (set_heap (<[l:=with_pickup (Some (fresh_pickup w l s)) s]> (heap w))
          (set_next_id (S (next_id w)) w))).

(** The world after [_end_pickup] when the pickup task is running on the
    queue of the state. *)
Definition ended_pickup (w : World) (l : oid) (s : Started) (q : oid)
    (p : ProgressReportPickup) : World :=
  emit (EvJoin p)
    (set_alive (alive w ∖ {[pickup_id p]})
       (set_sentinels (<[q:=pending w q]> (sentinels w))
          (set_heap (<[l:=with_pickup None s]> (heap w))
             (emit (EvPut q) w)))).

(** What [Started.__init__] establishes. The pickup it starts is alive
    afterwards when the object has a queue and no sentinel was waiting on
    a queue carried forward; a sentinel that was waiting is taken by the
    new task, which exits. *)
Record Started_init_post (r : option ProgressReporter) (q : option oid)
    (w w' : World) (s : Started) (p : ProgressReportPickup) : Prop := {
  init_heap : heap w' = <[next_id w:=s]> (heap w);
  init_pickup : pickup s = Some p;
  init_pickup_queue : pickup_queue p = queue s;
  init_pickup_detach : pickup_detach p = next_id w;
  init_reporter_yielded : reporter_yielded s = false;
  init_to_restart_pickup : to_restart_pickup s = true;
  init_reporter_kept : ∀ rep, r = Some rep → reporter s = Some rep ∧ queue s = q;
  init_reporter_new : r = None →
    ∃ rep qu, reporter s = Some rep ∧ queue s = Some qu
              ∧ reporter_queue rep = Some qu ∧ next_id w < reporter_id rep
              ∧ reporter_id rep < next_id w';
  init_queue_kept : ∀ qu, q = Some qu → queue s = Some qu;
  init_queue_new : r = None → q = None →
    ∃ qu, queue s = Some qu ∧ next_id w < qu ∧ qu < next_id w'
          ∧ sentinels w' = <[qu:=0]> (sentinels w);
  init_sentinels : (r = None → is_Some q) →
    (∀ qu, q = Some qu → pending w qu = 0) → sentinels w' = sentinels w;
  init_alive : is_Some (queue s) → (∀ qu, q = Some qu → pending w qu = 0) →
    alive w' = {[pickup_id p]} ∪ alive w;
  init_stale : ∀ qu n, q = Some qu → pending w qu = S n →
    alive w' = alive w ∧ sentinels w' = <[qu:=n]> (sentinels w);
  init_no_queue : queue s = None → alive w' = alive w ∧ sentinels w' = sentinels w;
  init_alive_bounds : alive w ⊆ alive w' ∧ alive w' ⊆ {[pickup_id p]} ∪ alive w;
  init_events : events w' = events w ++ [EvStart p];
  init_fresh : next_id w < pickup_id p ∧ pickup_id p < next_id w';
  init_next_id : is_Some r → next_id w' = S (S (next_id w))
}.

(** The machine is in the [Started] state at [l], whose pickup task [p] is
    the one task alive and consumes the queue [q] of the state, on which no
    sentinel is waiting: the task has not been told to stop. *)
Record running (w : World) (l : oid) (s : Started) (q : oid)
    (p : ProgressReportPickup) : Prop := {
  run_state : state w = StartedRef l;
  run_heap : heap w !! l = Some s;
  run_queue : queue s = Some q;
  run_pickup : pickup s = Some p;
  run_pickup_queue : pickup_queue p = Some q;
  run_alive : alive w = {[pickup_id p]};
  run_drained : pending w q = 0;
  run_fresh : pickup_id p < next_id w;
  run_unlocked : locked w = false
}.

(** A restart of the pickup of the object [s] at [l]: the sentinel is put,
    the old task is joined, then a new task is started on the same queue. *)
Record restarted (w w' : World) (l : oid) (s : Started) (q : oid)
    (p p' : ProgressReportPickup) : Prop := {
  rst_state : state w' = state w;
  rst_heap : heap w' = <[l:=with_pickup (Some p') s]> (heap w);
  rst_pickup_queue : pickup_queue p' = Some q;
  rst_pickup_detach : pickup_detach p' = l;
  rst_new : pickup_id p' = next_id w;
  rst_next_id : next_id w' = S (next_id w);
  rst_alive : alive w' = {[pickup_id p']};
  rst_events : events w' = events w ++ [EvPut q; EvJoin p; EvStart p'];
  rst_sentinels : pending w' q = pending w q;
  rst_locked : locked w' = locked w
}.

(** [evs] is the trace of [n] restarts in a row of a pickup on the queue
    [q], from the task [p] to the task [p']. *)
Fixpoint restarts_trace (q : oid) (p : ProgressReportPickup) (evs : list Event)
    (n : nat) (p' : ProgressReportPickup) : Prop :=
  match n with
  | O => evs = [] ∧ p' = p
  | S n' => ∃ p1 evs', evs = [EvPut q; EvJoin p; EvStart p1] ++ evs'
                       ∧ restarts_trace q p1 evs' n' p'
  end.

(** No pickup task is joined and no sentinel is put in [evs]. *)
Definition only_starts (evs : list Event) : Prop :=
  ∀ e, e ∈ evs → ∃ p, e = EvStart p.

(** ** The nesting protocol in the words of the specification

    A call of [fetch_reporter] on the main thread is the outermost one when
    no reporter is handed out at the time, and a nested one otherwise. The
    outermost call marks the reporter as in use; its release clears the mark
    and restarts the pickup. A nested call and its release change nothing.
    The protocol is followed over the operations of the main thread on the
    generators; it counts the restarts. *)
Module Nesting.

Inductive usage := NotEntered | Outermost | Nested | Over.

Record t := {
  usages : list usage;
  reporterInUse : bool;
  restarts : nat
}.

Definition empty : t := {| usages := []; reporterInUse := false; restarts := 0 |}.

Definition mark (i : nat) (u : usage) (n : t) : list usage := <[i:=u]> (usages n).

(** The call of usage [i] is made. *)
Definition enter (i : nat) (n : t) : t :=
  if reporterInUse n
  then {| usages := mark i Nested n; reporterInUse := true; restarts := restarts n |}
  else {| usages := mark i Outermost n; reporterInUse := true; restarts := restarts n |}.

(** The usage [i] is released, in whichever way. *)
Definition release (i : nat) (u : usage) (n : t) : t :=
  match u with
  | Outermost =>
      {| usages := mark i Over n; reporterInUse := false; restarts := S (restarts n) |}
  | _ => {| usages := mark i Over n; reporterInUse := reporterInUse n;
            restarts := restarts n |}
  end.

Definition step (o : op) (n : t) : t :=
  match o with
  | FetchReporter =>
      {| usages := usages n ++ [NotEntered]; reporterInUse := reporterInUse n;
         restarts := restarts n |}
  | Next _ i =>
      match usages n !! i with
      | Some NotEntered => enter i n
      | Some u => release i u n
      | None => n
      end
  | Throw _ i _ | Close _ i =>
      match usages n !! i with
      | Some u => release i u n
      | None => n
      end
  | _ => n
  end.

Definition run (os : list op) (n : t) : t := foldl (λ n o, step o n) n os.

End Nesting.

(** ** Notions for the statements *)

(** The states that inherit [prepare_reporter], [flush] and [shutdown]
    from the base class. *)
Definition passive (st : State) : Prop :=
  match st with
  | Registered _ | Disabled => True
  | _ => False
  end.

Definition held_reporter (st : State) : option ProgressReporter :=
  match st with
  | Registered r => r
  | _ => None
  end.

(** The frames of the generators made while the machine is in the passive
    state [st]. *)
Definition passive_frame (st : State) (g : StateMachine.Gen) : Prop :=
  g = StateMachine.GFresh ∨ g = plain_gen st ∨ g = StateMachine.GFinished.

(** The object at [l] once an outermost call has marked it. *)
Definition marked (s : Started) : Started :=
  with_to_restart_pickup true (with_reporter_yielded true s).

(** The object at [l] once its outermost usage has been released, before
    any restart. *)
Definition unmarked (s : Started) : Started := with_reporter_yielded false s.

Definition unmark (l : oid) (s : Started) (w : World) : World :=
  set_heap (<[l:=unmarked s]> (heap w)) w.

(** What the release of the outermost usage of the object [s] at [l] makes
    of the world: the mark is cleared, and the pickup is restarted unless
    [detach] has cleared [to_restart_pickup]. *)
Definition released (w w' : World) (l : oid) (s : Started) (q : oid)
    (p : ProgressReportPickup) : Prop :=
  if to_restart_pickup s
  then ∃ p', restarted (unmark l s w) w' l (unmarked s) q p p'
  else w' = unmark l s w.

(** The exception with which the machine's generator ends when the
    outermost usage is released by [r]; a [return] in the [finally] block
    discards the exception thrown in by the caller. *)
Definition released_exn (restart : bool) (r : resumption) : exn :=
  match r with
  | RNext => StopIteration
  | RThrow n => if restart then Exception n else StopIteration
  | RClose => GeneratorExit
  end.

(** What a new start after a shutdown of the machine [w] gives: a Started
    state running one new pickup task [p'] on the queue [q] carried forward,
    holding the reporter [rep] carried forward; nothing but the state object
    and the pickup is allocated. *)
Record started_again (w w1 w2 : World) (q : oid) (rep : ProgressReporter)
    (p : ProgressReportPickup) : Prop := {
  again_running : ∃ s' p', running w2 (next_id w) s' q p'
                           ∧ reporter s' = Some rep
                           ∧ events w2 = events w1 ++ [EvStart p']
                           ∧ pickup_id p' ≠ pickup_id p;
  again_next_id : next_id w2 = S (S (next_id w));
  again_sentinels : sentinels w2 = sentinels w1
}.

(** From [w] to [w'] pickup tasks were started at most: no sentinel was
    put, no task was joined, and every task alive is still alive. *)
Definition no_pickup_ended (w w' : World) : Prop :=
  (∃ evs, events w' = events w ++ evs ∧ only_starts evs) ∧ alive w ⊆ alive w'.

(** How the frame of a generator of the pool stands for a usage of the
    nesting protocol on the [Started] object at [l]. *)
Definition tracks (l : oid) (g : StateMachine.Gen) (u : Nesting.usage) : Prop :=
  match u with
  | Nesting.NotEntered => g = StateMachine.GFresh
  | Nesting.Outermost => g = outermost_gen l
  | Nesting.Nested => g = plain_gen (StartedRef l)
  | Nesting.Over => g = StateMachine.GFinished
  end.

(** The machine, started in [w0] with the pickup [p0] on the queue [q],
    follows the nesting protocol: the pickup is running, the mark of the
    object is the mark of the protocol, and the trace since [w0] is that of
    as many restarts as the protocol counts. *)
Record simulates (w0 : World) (l q : oid) (p0 : ProgressReportPickup)
    (c : config) (n : Nesting.t) : Prop := {
  sim_running : ∃ s p evs,
      running (world c) l s q p
      ∧ reporter_yielded s = Nesting.reporterInUse n
      ∧ (Nesting.Outermost ∈ Nesting.usages n → to_restart_pickup s = true)
      ∧ events (world c) = events w0 ++ evs
      ∧ restarts_trace q p0 evs (Nesting.restarts n) p;
  sim_gens : Forall2 (tracks l) (gens c) (Nesting.usages n)
}.

(** ** Invariants of runs *)

(** Every [Started] object on the heap was allocated. *)
Definition bounded (w : World) : Prop :=
  ∀ l, is_Some (heap w !! l) → l < next_id w.

(** From [w] to [w'] the objects on the heap stay, none has its mark set
    or cleared, and a [to_restart_pickup] that [detach] has cleared is not
    set again. *)
Definition quiet (w w' : World) : Prop :=
  bounded w →
  bounded w'
  ∧ ∀ l s, heap w !! l = Some s →
      ∃ s', heap w' !! l = Some s'
            ∧ reporter_yielded s' = reporter_yielded s
            ∧ (to_restart_pickup s = false → to_restart_pickup s' = false).

(** Whichever way the computation ends, it takes the world from [w] to a
    world related to it by [R]. *)
Definition preserves {A} (R : World → World → Prop) (m : M A) : Prop :=
  ∀ w, match m w with
       | Return _ w' => R w w'
       | Raise _ w' => R w w'
       | Hangs => True
       | Undefined => True
       end.

(** What a step of a run does to the marks of the [Started] objects: it
    leaves them alone, or it is the call of an outermost usage, or it is the
    release of one. *)
Inductive step_kind (o : op) (c c' : config) : Prop :=
| step_quiet :
    quiet (world c) (world c') →
    (∀ i l, outermost_at c' i l → outermost_at c i l) →
    (∀ i l, outermost_at c i l → resumes o i = false → outermost_at c' i l) →
    step_kind o c c'
| step_mark j l s w1 :
    resumes o j = true →
    (∀ l', ¬ outermost_at c j l') →
    j < length (gens c) →
    gens c' = <[j:=outermost_gen l]> (gens c) →
    quiet (world c) w1 →
    heap w1 !! l = Some s → reporter_yielded s = false →
    world c' = set_heap (<[l:=marked s]> (heap w1)) w1 →
    step_kind o c c'
| step_release j l s :
    resumes o j = true →
    outermost_at c j l →
    gens c' = <[j:=StateMachine.GFinished]> (gens c) →
    heap (world c) !! l = Some s →
    quiet (unmark l s (world c)) (world c') →
    step_kind o c c'.

(** In every pool of a run, a generator suspended in an outermost usage of
    an object finds the object marked, and is the only such generator. *)
Record consistent (c : config) : Prop := {
  cons_bounded : bounded (world c);
  cons_marked : ∀ i l, outermost_at c i l →
      ∃ s, heap (world c) !! l = Some s ∧ reporter_yielded s = true;
  cons_unique : ∀ i j l, outermost_at c i l → outermost_at c j l → i = j
}.

(** The object at [l] is on the heap, and [detach] has cleared its
    [to_restart_pickup] when [d] is set. *)
Definition detached (d : bool) (l : oid) (w : World) : Prop :=
  ∃ s, heap w !! l = Some s ∧ (d = true → to_restart_pickup s = false).

(** The [Started] object at [l] holds a pickup. *)
Definition holds_pickup (w : World) (l : oid) : Prop :=
  ∃ s, heap w !! l = Some s ∧ is_Some (pickup s).

(** What holds of the world between any two steps of a run: the lock is
    free; every [Started] object has its reporter and its queue, and a
    pickup it holds consumes its queue and is the only task that can be
    alive; at most one object holds a pickup, the object of the current
    state when that is a Started state, and none when it is the Initial
    state. *)
Record sound (w : World) : Prop := {
  snd_unlocked : locked w = false;
  snd_bounded : bounded w;
  snd_objects : ∀ l s, heap w !! l = Some s →
      is_Some (reporter s) ∧ is_Some (queue s)
      ∧ ∀ p, pickup s = Some p →
          pickup_queue p = queue s ∧ pickup_id p < next_id w
          ∧ alive w ⊆ {[pickup_id p]};
  snd_holder : ∀ l1 l2, holds_pickup w l1 → holds_pickup w l2 → l1 = l2;
  snd_idle : (∀ l, ¬ holds_pickup w l) → alive w = ∅;
  snd_state :
    match state w with
    | StartedRef l => holds_pickup w l
    | Initial r q => (∀ l, ¬ holds_pickup w l) ∧ (is_Some r → is_Some q)
    | Registered _ => True
    | Disabled => True
    end
}.

(** ** A new process, concretely *)

(** The trace of a run, if the run does not hang. *)
Definition trace_of (os : list op) (c : config) : option (list Event) :=
  (λ c', events (world c')) <$> steps os c.

(** A machine that was disabled right after its creation. *)
Definition disabled_world : World := set_state Disabled StateMachine.init.

(** The reporter, the pickup and the [Started] object that the first
    [find_reporter()] of a new process builds, and the world it leaves. *)
Definition started_reporter : ProgressReporter :=
  {| reporter_id := 2; reporter_queue := Some 1 |}.
Definition started_pickup_object : ProgressReportPickup :=
  {| pickup_id := 3; pickup_queue := Some 1; pickup_detach := 0 |}.
Definition started_object : Started :=
  {| reporter := Some started_reporter; queue := Some 1;
     pickup := Some started_pickup_object;
     reporter_yielded := false; to_restart_pickup := true |}.
Definition started_world : World :=
  match StateMachine.find_reporter StateMachine.init with
  | Return _ w => w
  | _ => StateMachine.init
  end.

(** The pickup that the first restart of a new process starts. *)
Definition restarted_pickup_object : ProgressReportPickup :=
  {| pickup_id := 4; pickup_queue := Some 1; pickup_detach := 0 |}.

(** A process in which a reporter was registered right after the creation
    of the machine, as a worker process does. *)
Definition registered_world : World :=
  set_state (Registered (Some started_reporter)) StateMachine.init.

(** The first loop of a new process, on the main thread, up to the point
    where the loop body runs. *)
Definition loop_entered : list op := [FetchReporter; Next true 0].
Definition entered_config : config := default start (steps loop_entered start).
Definition in_use_world : World := world entered_config.

(** A [shutdown()] inside the first loop of a new process, and then the end
    of the loop: the release puts a sentinel on the queue, which no task is
    there to take, and fails at the join. *)
Definition shutdown_in_loop : list op := loop_entered ++ [Shutdown; Next true 0].

(** Two loops nested on the main thread, the inner one ending first. *)
Definition nested_loops : list op :=
  [FetchReporter; Next true 0; FetchReporter; Next true 1; Next true 1; Next true 0].

(** During the first loop: a second loop nested in it, a report from a
    worker, which makes the pickup call [detach], the end of the second
    loop, and a call of [find_reporter()]. *)
Definition worker_reports : list op :=
  [FetchReporter; Next true 1; Detach 0; Next false 1; FindReporter].
Definition detached_config : config :=
  default start (steps worker_reports entered_config).

(** ** Notions for the properties of runs *)

(** The computation takes a world in which [P] holds to one in which [P]
    holds. *)
Definition keeps (P : World → Prop) (w w' : World) : Prop := P w → P w'.

(** The machine's generator is suspended at a [yield]: the plain one of a
    state, or the one inside the [try] of a [Started] object. *)
Definition suspended (g : StateMachine.Gen) : Prop :=
  (∃ st, g = plain_gen st) ∨ (∃ l, g = outermost_gen l).

(** The frames in which the generators of a pool are found between two
    operations. *)
Definition frame (g : StateMachine.Gen) : Prop :=
  g = StateMachine.GFresh ∨ suspended g ∨ g = StateMachine.GFinished.

(** The frames of the generators made and resumed in a thread other than
    the main one while the machine is in the Started state at [l]. *)
Definition worker_frame (l : oid) (g : StateMachine.Gen) : Prop :=
  g = StateMachine.GFresh ∨ g = plain_gen (StartedRef l) ∨ g = StateMachine.GFinished.

(** An operation that a program can make in the configuration: a pickup
    calls the [detach] of an object that exists. *)
Definition enabled (o : op) (c : config) : Prop :=
  match o with
  | Detach l => is_Some (heap (world c) !! l)
  | _ => True
  end.

(** Operations on generators made in a thread other than the main one. *)
Definition worker_fetch (o : op) : bool :=
  match o with
  | FetchReporter => true
  | Next main _ => negb main
  | Throw main _ _ => negb main
  | Close main _ => negb main
  | _ => false
  end.

(** The pickups started and the pickups joined in a trace, oldest first. *)
Definition started (evs : list Event) : list ProgressReportPickup :=
  omap (λ e, match e with EvStart p => Some p | _ => None end) evs.
Definition joined (evs : list Event) : list ProgressReportPickup :=
  omap (λ e, match e with EvJoin p => Some p | _ => None end) evs.

(** The world after the release of the outermost usage of the object [s]
    at [l] when the object holds no pickup: the mark is cleared and the
    sentinel is put on the queue [q]; the join is not reached. *)
Definition stale_release (w : World) (l : oid) (s : Started) (q : oid) : World :=
  set_locked false
    (emit (EvPut q)
       (set_sentinels (<[q:=S (pending w q)]> (sentinels w))
          (set_locked true (unmark l s w)))).

(** A machine holding a reporter that was built elsewhere and no queue, as
    [Initial(reporter=rep)] makes it. *)
Definition no_queue_world (rep : ProgressReporter) : World :=
  set_state (Initial (Some rep) None) StateMachine.init.

(** That machine after its first [find_reporter()]. *)
Definition no_queue_started : World :=
  default StateMachine.init
    (after (StateMachine.find_reporter (no_queue_world started_reporter))).

(** From [w] to [w'] the state of the machine and the lock are as they
    were. *)
Definition same_state (w w' : World) : Prop :=
  state w' = state w ∧ locked w' = locked w.

(** The trace and the heap of a run agree. Every pickup that was started
    has an identity that was allocated; no pickup was started twice and
    none was joined twice; a pickup that was joined had been started
    before; and a pickup that an object holds calls the [detach] of that
    object, was started, and was not joined. *)
Record trace_ok (w : World) : Prop := {
  tr_ids : ∀ p, EvStart p ∈ events w → pickup_id p < next_id w;
  tr_started : NoDup (pickup_id <$> started (events w));
  tr_joined : NoDup (joined (events w));
  tr_order : ∀ i p, events w !! i = Some (EvJoin p) →
      ∃ j, j < i ∧ events w !! j = Some (EvStart p);
  tr_held : ∀ l s p, heap w !! l = Some s → pickup s = Some p →
      pickup_detach p = l ∧ EvStart p ∈ events w ∧ EvJoin p ∉ events w
}.

(** Every [Started] object holds the reporter [rep] and the queue [q], and
    so does an Initial state of the machine. *)
Definition shared (rep : ProgressReporter) (q : option oid) (w : World) : Prop :=
  (∀ l s, heap w !! l = Some s → reporter s = Some rep ∧ queue s = q)
  ∧ (∀ r' q', state w = Initial r' q' → r' = Some rep ∧ q' = q).

(** No [Started] object was made yet, or all of them hold the same
    reporter and the same queue. *)
Definition uniform (w : World) : Prop :=
  heap w = ∅ ∨ ∃ rep q, shared rep q w.

(** From [w] to [w'] the state of the machine is as it was, no object is
    made, and no object has its reporter or its queue replaced. *)
Definition same_fields (w w' : World) : Prop :=
  state w' = state w
  ∧ ∀ l s', heap w' !! l = Some s' →
      ∃ s, heap w !! l = Some s ∧ reporter s' = reporter s ∧ queue s' = queue s.

(** The frames of the generators made while the machine is Disabled or
    Registered: not started, suspended at the plain [yield] of such a
    state, or finished. *)
Definition passive_pool_frame (g : StateMachine.Gen) : Prop :=
  g = StateMachine.GFresh ∨ (∃ st, passive st ∧ g = plain_gen st)
  ∨ g = StateMachine.GFinished.

(** From [w] to [w'] nothing was allocated, put, started or joined, and
    the lock is as it was. *)
Definition untouched (w w' : World) : Prop :=
  events w' = events w ∧ alive w' = alive w ∧ sentinels w' = sentinels w
  ∧ next_id w' = next_id w ∧ locked w' = locked w.

(** The two statements of [StateMachine.fetch_reporter], which the first
    [next] of its generator runs one after the other: the state is
    prepared under the lock; then, the lock released, [self.state] is read
    again and its generator is delegated to. Another thread can run
    between the two. *)
Definition fetch_reporter_entry : M unit :=
  with_lock (s ← gets state; s' ← prepare_reporter s; modify (set_state s')).

Definition fetch_reporter_delegation (main : bool) (w : World)
  : StateMachine.Gen * outcome (option ProgressReporter) :=
  StateMachine.yield_from main {| gen_self := state w; gen_pc := Fresh |} RNext w.

(** * Proofs *)

(** ** Tactics and basic facts *)

Lemma bind_Return {A B} (m : M A) (f : A → M B) w a w' :
  m w = Return a w' → (m ≫= f) w = f a w'.
Proof. intros H. unfold mbind, M_bind. by rewrite H. Qed.

Lemma bind_Raise {A B} (m : M A) (f : A → M B) w e w' :
  m w = Raise e w' → (m ≫= f) w = Raise e w'.
Proof. intros H. unfold mbind, M_bind. by rewrite H. Qed.

(** Unfolding of the monad and of the methods built on it. *)
Ltac unfold_M :=
  unfold mbind, mret, M_bind, M_ret, raise, write, modify, gets, new_id, read.

Ltac unfold_prims :=
  unfold set_reporter, set_queue, set_pickup, set_reporter_yielded,
    set_to_restart_pickup, new_Queue, new_ProgressReporter,
    new_ProgressReportPickup, pickup_start, queue_put_None, pickup_join,
    with_lock.

Ltac unfold_Started :=
  unfold Started_init, _restart_pickup, _end_pickup, _start_pickup, detach.

Ltac unfold_State :=
  unfold prepare_reporter, register_reporter, disable, flush, shutdown,
    state_reporter.

Ltac unfold_machine :=
  unfold StateMachine.find_reporter, StateMachine.register_reporter,
    StateMachine.flush, StateMachine.disable, StateMachine.shutdown.

Ltac unfold_World :=
  unfold set_next_id, set_heap, set_sentinels, set_alive, emit, set_locked,
    set_state, pending; simpl.

Ltac step_heap :=
  repeat (progress unfold_World || rewrite lookup_insert_eq
          || rewrite insert_insert_eq).

Ltac run := unfold_machine; unfold_State; unfold_Started; unfold_prims; unfold_M; simpl.

(** ** What the methods of [Started] do to the world *)

Section Started_methods.
Variables (w : World) (l : oid) (s : Started).
Hypothesis Hl : heap w !! l = Some s.

(** What [_start_pickup] does, whatever is waiting on the queue. *)
Lemma _start_pickup_effect :
  ∃ w', _start_pickup l w = Return tt w'
        ∧ heap w' = <[l:=with_pickup (Some (fresh_pickup w l s)) s]> (heap w)
        ∧ events w' = events w ++ [EvStart (fresh_pickup w l s)]
        ∧ next_id w' = S (next_id w)
        ∧ state w' = state w ∧ locked w' = locked w
        ∧ alive w ⊆ alive w' ∧ alive w' ⊆ {[next_id w]} ∪ alive w.
Proof using Hl.
  clear -Hl. unfold fresh_pickup. destruct w as [n h sen al ev lk st]; simpl in *.
  run. rewrite Hl. simpl. rewrite Hl. simpl.
  destruct (queue s) as [q|]; [unfold pending; simpl; destruct (default 0 (sen !! q))|];
    eexists; (split; [reflexivity|]); simpl; split_and!; try done;
    try apply union_subseteq_r.
Qed.

Lemma detach_spec :
  detach l w = Return tt (set_heap (<[l:=with_to_restart_pickup false s]> (heap w)) w).
Proof using Hl. run. by rewrite Hl. Qed.

Lemma set_reporter_yielded_spec b :
  set_reporter_yielded l b w
  = Return tt (set_heap (<[l:=with_reporter_yielded b s]> (heap w)) w).
Proof using Hl. run. by rewrite Hl. Qed.

Variables (q : oid) (p : ProgressReportPickup).
Hypothesis Hq : queue s = Some q.

Lemma _start_pickup_spec :
  pending w q = 0 → _start_pickup l w = Return tt (started_pickup w l s).
Proof using Hl Hq.
  clear -Hl Hq. unfold started_pickup, fresh_pickup, pending.
  destruct w as [n h sen al ev lk st]; simpl in *. intros H0.
  run. rewrite Hl. simpl. rewrite Hl. simpl. rewrite Hq.
  unfold pending. simpl. rewrite H0. reflexivity.
Qed.

Hypothesis Hp : pickup s = Some p.

Lemma _end_pickup_spec :
  pickup_queue p = Some q → pickup_id p ∈ alive w →
  _end_pickup l w = Return tt (ended_pickup w l s q p).
Proof using Hl Hq Hp.
  clear -Hl Hq Hp. intros Hpq Ha. unfold ended_pickup. destruct w; simpl in *.
  run. rewrite Hl. simpl. rewrite Hq. simpl. rewrite Hp. simpl.
  rewrite decide_True by done. rewrite Hpq.
  unfold pending. simpl. rewrite lookup_insert_eq. simpl.
  rewrite Hl. simpl. rewrite insert_insert_eq. reflexivity.
Qed.

(** What [_end_pickup] does to the pickup that the object holds, whether
    the task is alive or has exited already: the sentinel it puts is there
    for the join. *)
Lemma _end_pickup_effect :
  pickup_queue p = Some q →
  ∃ w', _end_pickup l w = Return tt w'
        ∧ heap w' = <[l:=with_pickup None s]> (heap w)
        ∧ events w' = events w ++ [EvPut q; EvJoin p]
        ∧ next_id w' = next_id w
        ∧ state w' = state w ∧ locked w' = locked w
        ∧ alive w' = alive w ∖ {[pickup_id p]}.
Proof using Hl Hq Hp.
  clear -Hl Hq Hp. intros Hpq. destruct w as [n h sen al ev lk st]; simpl in *.
  run. rewrite Hl. simpl. rewrite Hq. simpl. rewrite Hp. simpl.
  destruct (decide (pickup_id p ∈ al)) as [Ha|Ha].
  - rewrite Hpq. unfold pending. simpl. rewrite lookup_insert_eq. simpl.
    rewrite Hl. simpl. eexists. split; [reflexivity|]. simpl.
    split_and!; try done. by rewrite <- app_assoc.
  - simpl. rewrite Hl. simpl. eexists. split; [reflexivity|]. simpl.
    split_and!; try done; [by rewrite <- app_assoc|].
    symmetry. by apply difference_disjoint_L, disjoint_singleton_r.
Qed.

End Started_methods.

Lemma _restart_pickup_spec w l s q p :
  heap w !! l = Some s → queue s = Some q → pickup s = Some p →
  pickup_queue p = Some q → pickup_id p ∈ alive w → pending w q = 0 →
  _restart_pickup l w
  = Return tt (started_pickup (ended_pickup w l s q p) l (with_pickup None s)).
Proof.
  intros Hl Hq Hp Hpq Ha H0. unfold _restart_pickup, mbind, M_bind.
  rewrite (_end_pickup_spec w l s Hl q p Hq Hp Hpq Ha).
  apply (_start_pickup_spec _ l _ (lookup_insert_eq _ _ _) q); [done|].
  unfold pending. simpl. rewrite lookup_insert_eq. done.
Qed.

(** A restart of the pickup that the object holds, whether the task is
    alive or has exited already. *)
Lemma _restart_pickup_effect w l s q p :
  heap w !! l = Some s → queue s = Some q → pickup s = Some p →
  pickup_queue p = Some q →
  ∃ w', _restart_pickup l w = Return tt w'
        ∧ heap w' = <[l:=with_pickup (Some (fresh_pickup w l s)) s]> (heap w)
        ∧ events w' = events w ++ [EvPut q; EvJoin p; EvStart (fresh_pickup w l s)]
        ∧ next_id w' = S (next_id w)
        ∧ state w' = state w ∧ locked w' = locked w
        ∧ alive w' ⊆ {[next_id w]} ∪ (alive w ∖ {[pickup_id p]}).
Proof.
  intros Hl Hq Hp Hpq.
  destruct (_end_pickup_effect w l s Hl q p Hq Hp Hpq)
    as (w1 & He & Hh1 & He1 & Hn1 & Hs1 & Hl1 & Ha1).
  assert (Hl1' : heap w1 !! l = Some (with_pickup None s)).
  { rewrite Hh1. apply lookup_insert_eq. }
  destruct (_start_pickup_effect w1 l _ Hl1')
    as (w2 & Hs & Hh2 & He2 & Hn2 & Hs2 & Hl2 & _ & Ha2).
  exists w2. split.
  { unfold _restart_pickup, mbind, M_bind. by rewrite He. }
  unfold fresh_pickup in *. simpl in *. rewrite Hn1 in *.
  split_and!; try congruence.
  - by rewrite Hh2, Hh1, insert_insert_eq.
  - by rewrite He2, He1, <- app_assoc.
  - by rewrite <- Ha1.
Qed.

Lemma Started_init_spec r q w :
  ∃ w' s p, Started_init r q w = Return (next_id w) w'
            ∧ Started_init_post r q w w' s p
            ∧ locked w' = locked w ∧ state w' = state w.
Proof.
  destruct w as [n h sen al ev lk st].
  destruct r as [rep|]; [destruct q as [qu|]|destruct q as [qu|]];
    run; step_heap.
  all: try (destruct (default 0 (sen !! qu)) as [|k] eqn:Hk).
  all: (eexists _, _, _; split; [reflexivity|]); (split; [|done]).
  all: split; cbn; unfold pending; cbn; try done; try lia.
  all: try (by intros [? [=]]).
  all: try (intros ?; by eexists).
  all: try (intros; simplify_eq/=; try congruence;
            try (specialize (H0 _ eq_refl)); try congruence).
  all: try lia.
  all: try (split; [apply union_subseteq_r|done]).
  all: try (split; [done|apply union_subseteq_r]).
  all: try (by split).
  all: try (split; [done|]; f_equal; congruence).
  all: try (eexists _, _; split; [reflexivity|]; split; [reflexivity|]; cbn;
            split; [done|lia]).
  eexists. split; [reflexivity|]. split; [lia|]. split; [lia|done].
Qed.

Lemma Started_init_post_lookup r q w w' s p :
  Started_init_post r q w w' s p → heap w' !! next_id w = Some s.
Proof. intros []. rewrite init_heap0. apply lookup_insert_eq. Qed.

Lemma Started_init_post_reporter r q w w' s p :
  Started_init_post r q w w' s p → is_Some (reporter s).
Proof.
  intros []. destruct r as [rep|].
  - destruct (init_reporter_kept0 rep eq_refl) as [-> _]. by eexists.
  - destruct (init_reporter_new0 eq_refl) as (rep & qu & -> & _). by eexists.
Qed.

(** ** What the methods of [StateMachine] do *)

Lemma with_lock_Return {A} (m : M A) w a w' :
  locked w = false → m (set_locked true w) = Return a w' →
  with_lock m w = Return a (set_locked false w').
Proof. intros Hl Hm. unfold with_lock. by rewrite Hl, Hm. Qed.

Lemma with_lock_Raise {A} (m : M A) w e w' :
  locked w = false → m (set_locked true w) = Raise e w' →
  with_lock m w = Raise e (set_locked false w').
Proof. intros Hl Hm. unfold with_lock. by rewrite Hl, Hm. Qed.

Lemma restarted_running w w' l s q p p' :
  running w l s q p → restarted w w' l s q p p' →
  running w' l (with_pickup (Some p') s) q p'.
Proof.
  intros [] []. split; try done.
  - congruence.
  - rewrite rst_heap0. apply lookup_insert_eq.
  - congruence.
  - lia.
  - congruence.
Qed.

Lemma _restart_pickup_restarted w l s q p b :
  heap w !! l = Some s → queue s = Some q → pickup s = Some p →
  pickup_queue p = Some q → alive w = {[pickup_id p]} → pending w q = 0 →
  ∃ w' p', _restart_pickup l (set_locked b w) = Return tt w'
           ∧ restarted w (set_locked (locked w) w') l s q p p'.
Proof.
  intros Hh Hq Hp Hpq Ha H0.
  eexists _, (fresh_pickup (ended_pickup (set_locked b w) l s q p) l
                (with_pickup None s)).
  split.
  - apply (_restart_pickup_spec _ l s q p); try done.
    simpl. rewrite Ha. by apply elem_of_singleton.
  - destruct w as [n h sen al ev lk st]; simpl in *. subst al.
    split; cbn; try done.
    + by rewrite insert_insert_eq.
    + rewrite difference_diag_L. apply (right_id_L ∅ (∪)).
    + by rewrite <- !app_assoc.
    + unfold pending; simpl. by rewrite lookup_insert_eq.
Qed.


(** The locked step shared by [find_reporter] and [fetch_reporter]:
    [self.state = self.state.prepare_reporter()]. *)
Lemma prepare_Initial w r q :
  state w = Initial r q → locked w = false →
  ∃ w' s p,
    with_lock (s ← gets state; s' ← prepare_reporter s; modify (set_state s')) w
    = Return tt w'
    ∧ state w' = StartedRef (next_id w) ∧ locked w' = false
    ∧ Started_init_post r q w w' s p.
Proof.
  intros Hst Hlk.
  destruct (Started_init_spec r q (set_locked true w)) as (w' & s & p & Hi & Hpost & _).
  exists (set_locked false (set_state (StartedRef (next_id w)) w')), s, p.
  split; [|split; [done|split; [done|]]].
  - apply with_lock_Return; [done|].
    unfold mbind, M_bind, gets. simpl. rewrite Hst. simpl.
    unfold mbind, M_bind. rewrite Hi. reflexivity.
  - destruct Hpost. by split.
Qed.

Lemma prepare_other w :
  (∀ r q, state w ≠ Initial r q) → locked w = false →
  with_lock (s ← gets state; s' ← prepare_reporter s; modify (set_state s')) w
  = Return tt w.
Proof.
  intros Hst Hlk. unfold with_lock. rewrite Hlk.
  destruct w as [n h sen al ev lk st]; simpl in *. subst lk.
  destruct st; try done. by destruct (Hst reporter0 queue0).
Qed.

(** ** The states without a pickup: [Registered] and [Disabled] *)

Lemma passive_find_reporter w :
  passive (state w) → locked w = false →
  StateMachine.find_reporter w = Return (held_reporter (state w)) w.
Proof.
  intros Hp Hl. destruct w as [n h sen al ev lk st]; simpl in *; subst lk.
  by destruct st.
Qed.

Lemma passive_flush w :
  passive (state w) → locked w = false → StateMachine.flush w = Return tt w.
Proof.
  intros Hp Hl. destruct w as [n h sen al ev lk st]; simpl in *; subst lk.
  by destruct st.
Qed.

Lemma passive_shutdown w :
  passive (state w) → locked w = false → StateMachine.shutdown w = Return tt w.
Proof.
  intros Hp Hl. destruct w as [n h sen al ev lk st]; simpl in *; subst lk.
  by destruct st.
Qed.

(** A generator of a passive state, however it is resumed, leaves the world
    as it is, and what it yields is the reporter the state holds. *)
Lemma passive_fetch_reporter main st at_ r w :
  passive st →
  match fetch_reporter main st at_ r w with
  | Return (Yields p v) w' => v = held_reporter st ∧ w' = w ∧ at_ = Fresh ∧ p = AtYield
  | Return Done w' => w' = w
  | Raise _ w' => w' = w
  | Hangs => False
  | Undefined => False
  end.
Proof. intros Hp. destruct st; try done; destruct at_, r; done. Qed.

Lemma passive_next_Fresh main w :
  passive (state w) → locked w = false →
  StateMachine.next main StateMachine.GFresh w
  = (StateMachine.GYieldFrom {| gen_self := state w; gen_pc := AtYield |},
     Return (held_reporter (state w)) w).
Proof.
  intros Hp Hl. destruct w as [n h sen al ev lk st]; simpl in *; subst lk.
  by destruct st.
Qed.

(** ** The first [next] of the machine's generator *)

Lemma Started_fetch_reporter_Fresh main l s w :
  heap w !! l = Some s →
  Started_fetch_reporter main l Fresh RNext w
  = if main && negb (reporter_yielded s)
    then Return (Yields AtYieldTry (reporter s))
           (set_heap (<[l:=marked s]> (heap w)) w)
    else Return (Yields AtYield (reporter s)) w.
Proof.
  intros Hh. unfold Started_fetch_reporter, resumed. unfold_prims. unfold_M.
  destruct main; simpl; rewrite Hh; [|done].
  destruct (reporter_yielded s); simpl; [done|].
  rewrite Hh. step_heap. by destruct w.
Qed.

Lemma next_Fresh_Started main l s w :
  state w = StartedRef l → locked w = false → heap w !! l = Some s →
  StateMachine.next main StateMachine.GFresh w
  = if main && negb (reporter_yielded s)
    then (StateMachine.GYieldFrom {| gen_self := StartedRef l; gen_pc := AtYieldTry |},
          Return (reporter s) (set_heap (<[l:=marked s]> (heap w)) w))
    else (StateMachine.GYieldFrom {| gen_self := StartedRef l; gen_pc := AtYield |},
          Return (reporter s) w).
Proof.
  intros Hst Hl Hh. unfold StateMachine.next, StateMachine.fetch_reporter.
  cbn [resumed mret M_ret]. rewrite prepare_other by (done || by rewrite Hst).
  unfold StateMachine.yield_from, gen_resume.
  cbn [gen_self gen_pc]. rewrite Hst. cbn [fetch_reporter].
  rewrite (Started_fetch_reporter_Fresh main l s w Hh).
  by destruct (main && negb (reporter_yielded s)).
Qed.

Lemma next_Fresh_Initial main r q w :
  state w = Initial r q → locked w = false →
  ∃ w' s p,
    Started_init_post r q w w' s p
    ∧ state w' = StartedRef (next_id w) ∧ locked w' = false
    ∧ StateMachine.next main StateMachine.GFresh w
      = if main
        then (StateMachine.GYieldFrom
                {| gen_self := StartedRef (next_id w); gen_pc := AtYieldTry |},
              Return (reporter s)
                (set_heap (<[next_id w:=marked s]> (heap w')) w'))
        else (StateMachine.GYieldFrom
                {| gen_self := StartedRef (next_id w); gen_pc := AtYield |},
              Return (reporter s) w').
Proof.
  intros Hst Hl.
  destruct (prepare_Initial w r q Hst Hl) as (w' & s & p & Hprep & Hst' & Hl' & Hpost).
  exists w', s, p. split; [done|]. split; [done|]. split; [done|].
  unfold StateMachine.next, StateMachine.fetch_reporter.
  cbn [resumed mret M_ret]. rewrite Hprep.
  unfold StateMachine.yield_from, gen_resume.
  cbn [gen_self gen_pc]. rewrite Hst'. cbn [fetch_reporter].
  rewrite (Started_fetch_reporter_Fresh main _ s w'
             (Started_init_post_lookup _ _ _ _ _ _ Hpost)).
  rewrite (init_reporter_yielded _ _ _ _ _ _ Hpost).
  by destruct main.
Qed.

Lemma find_reporter_Initial w r q :
  state w = Initial r q → locked w = false →
  ∃ w' s p,
    StateMachine.find_reporter w = Return (reporter s) w'
    ∧ state w' = StartedRef (next_id w) ∧ locked w' = false
    ∧ Started_init_post r q w w' s p.
Proof.
  intros Hst Hl.
  destruct (prepare_Initial w r q Hst Hl) as (w' & s & p & Hprep & Hst' & Hl' & Hpost).
  exists w', s, p. split; [|done].
  unfold StateMachine.find_reporter. rewrite (bind_Return _ _ _ _ _ Hprep).
  unfold mbind, M_bind, gets. rewrite Hst'. simpl.
  unfold mbind, M_bind, read.
  by rewrite (Started_init_post_lookup _ _ _ _ _ _ Hpost).
Qed.

Lemma find_reporter_Started w l s :
  state w = StartedRef l → locked w = false → heap w !! l = Some s →
  StateMachine.find_reporter w = Return (reporter s) w.
Proof.
  intros Hst Hl Hh.
  unfold StateMachine.find_reporter.
  erewrite bind_Return by (apply prepare_other; [by rewrite Hst|done]).
  unfold mbind, M_bind, gets. rewrite Hst. simpl.
  unfold mbind, M_bind, read. by rewrite Hh.
Qed.

Lemma shutdown_running w l s q p :
  running w l s q p →
  StateMachine.shutdown w
  = Return tt (set_state (Initial (reporter s) (Some q)) (ended_pickup w l s q p)).
Proof.
  intros [Hst Hh Hq Hp Hpq Ha _ Hf Hlk].
  unfold StateMachine.shutdown.
  erewrite with_lock_Return; [|done|].
  2:{ unfold mbind at 1, M_bind at 1, gets. simpl. rewrite Hst. simpl.
      erewrite bind_Return; [reflexivity|].
      erewrite bind_Return.
      2:{ apply (_end_pickup_spec (set_locked true w) l s Hh q p Hq Hp Hpq).
          simpl. rewrite Ha. by apply elem_of_singleton. }
      unfold mbind, M_bind, read. simpl. rewrite lookup_insert_eq. simpl.
      rewrite Hq. reflexivity. }
  destruct w; simpl in *. subst. reflexivity.
Qed.

(** [shutdown()] in the Started state whose object holds a pickup, whether
    the task is alive or has exited already. *)
Lemma shutdown_held w l s q p :
  state w = StartedRef l → locked w = false → heap w !! l = Some s →
  queue s = Some q → pickup s = Some p → pickup_queue p = Some q →
  ∃ w', StateMachine.shutdown w = Return tt w'
        ∧ state w' = Initial (reporter s) (Some q)
        ∧ heap w' = <[l:=with_pickup None s]> (heap w)
        ∧ events w' = events w ++ [EvPut q; EvJoin p]
        ∧ next_id w' = next_id w ∧ locked w' = false
        ∧ alive w' = alive w ∖ {[pickup_id p]}.
Proof.
  intros Hst Hlk Hh Hq Hp Hpq.
  destruct (_end_pickup_effect (set_locked true w) l s Hh q p Hq Hp Hpq)
    as (w1 & He & Hh1 & He1 & Hn1 & Hs1 & Hl1 & Ha1).
  exists (set_locked false (set_state (Initial (reporter s) (Some q)) w1)).
  split; [|by split_and!].
  unfold StateMachine.shutdown. apply with_lock_Return; [done|].
  unfold mbind at 1, M_bind at 1, gets. simpl. rewrite Hst. simpl.
  erewrite bind_Return; [reflexivity|].
  erewrite bind_Return by exact He.
  unfold mbind, M_bind, read. rewrite Hh1, lookup_insert_eq. simpl.
  rewrite Hq. reflexivity.
Qed.

(** [flush()] in the Started state whose object holds a pickup: the task
    it starts is the only one that can be alive afterwards. *)
Lemma flush_held w l s q p :
  state w = StartedRef l → locked w = false → heap w !! l = Some s →
  queue s = Some q → pickup s = Some p → pickup_queue p = Some q →
  ∃ w', StateMachine.flush w = Return tt w'
        ∧ state w' = StartedRef l
        ∧ heap w' = <[l:=with_pickup (Some (fresh_pickup w l s)) s]> (heap w)
        ∧ events w' = events w ++ [EvPut q; EvJoin p; EvStart (fresh_pickup w l s)]
        ∧ next_id w' = S (next_id w) ∧ locked w' = false
        ∧ alive w' ⊆ {[next_id w]} ∪ (alive w ∖ {[pickup_id p]}).
Proof.
  intros Hst Hlk Hh Hq Hp Hpq.
  destruct (_restart_pickup_effect (set_locked true w) l s q p Hh Hq Hp Hpq)
    as (w1 & Hr & Hh1 & He1 & Hn1 & Hs1 & Hl1 & Ha1).
  exists (set_locked false (set_state (StartedRef l) w1)).
  split; [|by split_and!].
  unfold StateMachine.flush. apply with_lock_Return; [done|].
  unfold mbind, M_bind, gets. simpl. rewrite Hst. simpl.
  unfold mbind, M_bind. rewrite Hr. reflexivity.
Qed.

Lemma flush_Initial w r q :
  state w = Initial r q → locked w = false →
  ∃ w' s p,
    StateMachine.flush w = Return tt w'
    ∧ state w' = StartedRef (next_id w) ∧ locked w' = false
    ∧ Started_init_post r q w w' s p.
Proof.
  intros Hst Hlk.
  destruct (Started_init_spec r q (set_locked true w)) as (w' & s & p & Hi & Hpost & _).
  exists (set_locked false (set_state (StartedRef (next_id w)) w')), s, p.
  split; [|split; [done|split; [done|]]].
  - apply with_lock_Return; [done|].
    unfold mbind, M_bind, gets. simpl. rewrite Hst. simpl.
    unfold mbind, M_bind. rewrite Hi. reflexivity.
  - destruct Hpost. by split.
Qed.

(** A machine started again from the [Initial] state that a shutdown left
    behind runs one pickup on the queue that was carried forward. *)
Lemma Started_init_post_running rep q w w' s p l :
  Started_init_post (Some rep) (Some q) w w' s p →
  alive w = ∅ → pending w q = 0 →
  state w' = StartedRef l → l = next_id w → locked w' = false →
  running w' l s q p.
Proof.
  intros Hpost Ha H0 Hst -> Hl.
  pose proof (Started_init_post_lookup _ _ _ _ _ _ Hpost) as Hh.
  assert (Hq : queue s = Some q) by by apply (init_queue_kept _ _ _ _ _ _ Hpost).
  assert (Hq0 : ∀ qu, Some q = Some qu → pending w qu = 0) by by intros ? [= <-].
  destruct Hpost. split; try done.
  - by rewrite init_pickup_queue0.
  - rewrite init_alive0, Ha; [apply (right_id_L ∅ (∪))|by rewrite Hq|done].
  - unfold pending. rewrite init_sentinels0; [done|by intros [=]|done].
  - lia.
Qed.

Lemma running_marked w l s q p :
  running w l s q p →
  running (set_heap (<[l:=marked s]> (heap w)) w) l (marked s) q p.
Proof. intros []. split; try done. simpl. apply lookup_insert_eq. Qed.

(** ** The release of a usage *)

Lemma finally_no_restart w l s :
  heap w !! l = Some s → to_restart_pickup s = false →
  fetch_reporter_finally l w = Return Returns (unmark l s w).
Proof.
  intros Hh Hr. unfold fetch_reporter_finally.
  erewrite bind_Return by by apply set_reporter_yielded_spec.
  unfold mbind, M_bind, read. simpl. rewrite lookup_insert_eq. simpl.
  by rewrite Hr.
Qed.

Lemma finally_restart w l s q p :
  heap w !! l = Some s → to_restart_pickup s = true →
  queue s = Some q → pickup s = Some p → pickup_queue p = Some q →
  alive w = {[pickup_id p]} → pending w q = 0 → locked w = false →
  ∃ w' p', fetch_reporter_finally l w = Return Normal w'
           ∧ restarted (unmark l s w) w' l (unmarked s) q p p'.
Proof.
  intros Hh Hr Hq Hp Hpq Ha H0 Hl.
  destruct (_restart_pickup_restarted (unmark l s w) l (unmarked s) q p true)
    as (w' & p' & Hrs & Hpost); try done.
  { simpl. apply lookup_insert_eq. }
  exists (set_locked false w'), p'. split.
  - unfold fetch_reporter_finally.
    erewrite bind_Return by by apply set_reporter_yielded_spec.
    unfold mbind at 1, M_bind at 1, read. simpl. rewrite lookup_insert_eq. simpl.
    rewrite Hr. simpl.
    erewrite bind_Return; [reflexivity|].
    apply with_lock_Return; done.
  - simpl in Hpost. by rewrite Hl in Hpost.
Qed.

(** The machine's generator, suspended in the outermost usage, resumed in
    whichever way. *)
Lemma release_outermost main r w l s q p :
  heap w !! l = Some s →
  queue s = Some q → pickup s = Some p → pickup_queue p = Some q →
  alive w = {[pickup_id p]} → pending w q = 0 → locked w = false →
  ∃ w', StateMachine.fetch_reporter main (outermost_gen l) r w
        = (StateMachine.GFinished, Raise (released_exn (to_restart_pickup s) r) w')
        ∧ released w w' l s q p.
Proof.
  intros Hh Hq Hp Hpq Ha H0 Hl. unfold released.
  destruct (to_restart_pickup s) eqn:Hr.
  - destruct (finally_restart w l s q p) as (w' & p' & Hfin & Hpost); try done.
    exists w'. split; [|by exists p'].
    unfold outermost_gen, StateMachine.fetch_reporter, StateMachine.yield_from,
      gen_close, gen_resume. simpl.
    unfold mbind, M_bind, try_finally.
    destruct r; simpl; rewrite Hfin; done.
  - exists (unmark l s w). split; [|done].
    pose proof (finally_no_restart w l s Hh Hr) as Hfin.
    unfold outermost_gen, StateMachine.fetch_reporter, StateMachine.yield_from,
      gen_close, gen_resume. simpl.
    unfold mbind, M_bind, try_finally.
    destruct r; simpl; rewrite Hfin; done.
Qed.

(** The release of the outermost usage of an object that holds a pickup,
    whether the task is alive or has exited already: the restart is made,
    and the task it starts is the only one that can be alive afterwards. *)
Lemma finally_held w l s q p :
  heap w !! l = Some s → to_restart_pickup s = true →
  queue s = Some q → pickup s = Some p → pickup_queue p = Some q →
  locked w = false →
  ∃ w', fetch_reporter_finally l w = Return Normal w'
        ∧ heap w' = <[l:=with_pickup (Some (fresh_pickup w l s)) (unmarked s)]> (heap w)
        ∧ events w' = events w ++ [EvPut q; EvJoin p; EvStart (fresh_pickup w l s)]
        ∧ next_id w' = S (next_id w) ∧ state w' = state w ∧ locked w' = false
        ∧ alive w' ⊆ {[next_id w]} ∪ (alive w ∖ {[pickup_id p]}).
Proof.
  intros Hh Hr Hq Hp Hpq Hl.
  destruct (_restart_pickup_effect (set_locked true (unmark l s w)) l (unmarked s) q p)
    as (w1 & Hrs & Hh1 & He1 & Hn1 & Hs1 & Hl1 & Ha1); try done.
  { simpl. apply lookup_insert_eq. }
  exists (set_locked false w1). split.
  - unfold fetch_reporter_finally.
    erewrite bind_Return by by apply set_reporter_yielded_spec.
    unfold mbind at 1, M_bind at 1, read. simpl. rewrite lookup_insert_eq. simpl.
    rewrite Hr. simpl.
    erewrite bind_Return; [reflexivity|].
    apply with_lock_Return; done.
  - simpl in *. split_and!; try done. by rewrite Hh1, insert_insert_eq.
Qed.

Lemma release_held main r w l s q p :
  heap w !! l = Some s → to_restart_pickup s = true →
  queue s = Some q → pickup s = Some p → pickup_queue p = Some q →
  locked w = false →
  ∃ w', StateMachine.fetch_reporter main (outermost_gen l) r w
        = (StateMachine.GFinished, Raise (released_exn true r) w')
        ∧ heap w' = <[l:=with_pickup (Some (fresh_pickup w l s)) (unmarked s)]> (heap w)
        ∧ events w' = events w ++ [EvPut q; EvJoin p; EvStart (fresh_pickup w l s)]
        ∧ next_id w' = S (next_id w) ∧ state w' = state w ∧ locked w' = false
        ∧ alive w' ⊆ {[next_id w]} ∪ (alive w ∖ {[pickup_id p]}).
Proof.
  intros Hh Hr Hq Hp Hpq Hl.
  destruct (finally_held w l s q p) as (w' & Hfin & Hpost); try done.
  exists w'. split; [|done].
  unfold outermost_gen, StateMachine.fetch_reporter, StateMachine.yield_from,
    gen_close, gen_resume. simpl.
  unfold mbind, M_bind, try_finally.
  destruct r; simpl; rewrite Hfin; done.
Qed.

(** A generator that was not in an outermost usage ends without a trace. *)
Lemma release_plain main r w st :
  ∃ e, StateMachine.fetch_reporter main (plain_gen st) r w
       = (StateMachine.GFinished, Raise e w).
Proof. destruct st, r; by eexists. Qed.

Lemma resume_Finished main r w :
  ∃ e, StateMachine.fetch_reporter main StateMachine.GFinished r w
       = (StateMachine.GFinished, Raise e w).
Proof. destruct r; by eexists. Qed.

Lemma abandon_Fresh main r w :
  r ≠ RNext →
  ∃ e, StateMachine.fetch_reporter main StateMachine.GFresh r w
       = (StateMachine.GFinished, Raise e w).
Proof. destruct r; try done; by eexists. Qed.

Lemma released_unmarked w w' l s q p :
  released w w' l s q p →
  ∃ s', heap w' !! l = Some s' ∧ reporter_yielded s' = false
        ∧ to_restart_pickup s' = to_restart_pickup s.
Proof.
  unfold released. destruct (to_restart_pickup s) eqn:Hr.
  - intros (p' & []). rewrite rst_heap0. eexists. split; [apply lookup_insert_eq|done].
  - intros ->. eexists. split; [apply lookup_insert_eq|done].
Qed.

Lemma released_events w w' l s q p :
  released w w' l s q p →
  if to_restart_pickup s
  then ∃ p', events w' = events w ++ [EvPut q; EvJoin p; EvStart p']
             ∧ pickup_queue p' = Some q ∧ alive w' = {[pickup_id p']}
  else events w' = events w ∧ alive w' = alive w.
Proof.
  unfold released. destruct (to_restart_pickup s).
  - intros (p' & []). by exists p'.
  - by intros ->.
Qed.

(** ** Steps of a run *)

Lemma close_of_fetch_reporter main g w g' e w' :
  StateMachine.fetch_reporter main g RClose w = (g', Raise e w') →
  ∃ o, StateMachine.close main g w = (g', o) ∧ after o = Some w'.
Proof.
  intros H. unfold StateMachine.close. rewrite H. destruct e; by eexists.
Qed.

Lemma step_no_generator o main i r c :
  op_resumption o = Some (main, i, r) → gens c !! i = None → step o c = Some c.
Proof.
  intros Ho Hg. destruct o; try done; injection Ho as -> -> <-;
    simpl; unfold resume_at; by rewrite Hg.
Qed.

(** A resumption that ends the generator or makes it yield is a step. *)
Lemma step_resumption o main i r c g g' out w' :
  op_resumption o = Some (main, i, r) → gens c !! i = Some g →
  StateMachine.fetch_reporter main g r (world c) = (g', out) →
  after out = Some w' → (r = RClose → ∃ e, out = Raise e w') →
  step o c = Some {| world := w'; gens := <[i:=g']> (gens c) |}.
Proof.
  intros Ho Hg Hf Ha Hc.
  destruct o; try done; injection Ho as -> -> <-; simpl; unfold resume_at;
    rewrite Hg.
  - unfold StateMachine.next. rewrite Hf. simpl. by rewrite Ha.
  - unfold StateMachine.throw. rewrite Hf. simpl. by rewrite Ha.
  - destruct (Hc eq_refl) as [e ->].
    destruct (close_of_fetch_reporter _ _ _ _ _ _ Hf) as (o & -> & Ho).
    simpl. by rewrite Ho.
Qed.

Lemma restarts_trace_snoc q p0 evs n p p' :
  restarts_trace q p0 evs n p →
  restarts_trace q p0 (evs ++ [EvPut q; EvJoin p; EvStart p']) (S n) p'.
Proof.
  revert p0 evs. induction n as [|n IH]; intros p0 evs; simpl.
  - intros [-> ->]. by exists p', [].
  - intros (p1 & evs' & -> & H). exists p1, (evs' ++ [EvPut q; EvJoin p; EvStart p']).
    split; [done|]. by apply IH.
Qed.

Lemma Forall2_tracks_lookup l gs us i :
  Forall2 (tracks l) gs us →
  match gs !! i, us !! i with
  | Some g, Some u => tracks l g u
  | None, None => True
  | _, _ => False
  end.
Proof.
  intros H. revert i. induction H as [|g u gs us Hgu H IH]; intros [|i]; simpl; try done.
  apply IH.
Qed.

Lemma after_closing {G} (res : G * outcome (option ProgressReporter)) :
  (closing res).1 = res.1 ∧ after (closing res).2 = after res.2.
Proof. destruct res as [g [v w|[] w| |]]; done. Qed.

Lemma resume_at_inv {A} i (f : StateMachine.Gen → World → StateMachine.Gen * outcome A)
    c c' :
  resume_at i f c = Some c' →
  (gens c !! i = None ∧ c' = c)
  ∨ (∃ g, gens c !! i = Some g ∧ after (f g (world c)).2 = Some (world c')).
Proof.
  unfold resume_at. destruct (gens c !! i) as [g|]; [|intros [= <-]; by left].
  destruct (f g (world c)) as [g' o] eqn:Hf. simpl.
  destruct (after o) as [w'|] eqn:Ha; simpl; [|done].
  intros [= <-]. right. exists g. by rewrite Hf.
Qed.

Lemma call_inv {A} (m : M A) c c' :
  call m c = Some c' → after (m (world c)) = Some (world c') ∧ gens c' = gens c.
Proof.
  unfold call. destruct (after (m (world c))) as [w'|]; simpl; [|done].
  by intros [= <-].
Qed.

(** ** The machine follows the nesting protocol *)

Lemma running_unmark w l s q p :
  running w l s q p → running (unmark l s w) l (unmarked s) q p.
Proof. intros []. split; try done. simpl. apply lookup_insert_eq. Qed.

Lemma Outermost_insert (us : list Nesting.usage) i u :
  Nesting.Outermost ∈ <[i:=u]> us → u = Nesting.Outermost ∨ Nesting.Outermost ∈ us.
Proof.
  revert i. induction us as [|u' us IH]; intros i; simpl; [by right|].
  destruct i as [|i]; simpl.
  - intros [->|H]%elem_of_cons; [by left|]. right. by apply elem_of_cons; right.
  - intros [->|H]%elem_of_cons.
    + right. by apply elem_of_cons; left.
    + destruct (IH i H) as [->|H']; [by left|]. right. by apply elem_of_cons; right.
Qed.

Lemma simulates_step o w0 l q p0 c n :
  main_fetch o = true → simulates w0 l q p0 c n →
  ∃ c', step o c = Some c' ∧ simulates w0 l q p0 c' (Nesting.step o n).
Proof.
  intros Hmain [(s & p & evs & Hrun & Hmark & Hrestart & Hev & Htrace) Hgens].
  destruct (op_resumption o) as [[[main i] r]|] eqn:Hop.
  2:{ destruct o; try done. eexists. split; [reflexivity|]. split.
      - exists s, p, evs. simpl. split_and!; try done.
        intros [?|H]%elem_of_app; [by apply Hrestart|].
        by apply list_elem_of_singleton in H.
      - simpl. apply Forall2_app; [done|]. by constructor. }
  assert (main = true) as ->.
  { destruct o; try done; simpl in *; congruence. }
  pose proof (Forall2_tracks_lookup l _ _ i Hgens) as Hi.
  destruct (gens c !! i) as [g|] eqn:Hg, (Nesting.usages n !! i) as [u|] eqn:Hu;
    try done.
  2:{ exists c. split; [by eapply step_no_generator|].
      assert (Nesting.step o n = n) as ->; [|by split; [exists s, p, evs|]].
      destruct o; try done; injection Hop as _ -> _; simpl; by rewrite Hu. }
  pose proof Hrun as [Hst Hh Hq Hp Hpq Ha H0 Hf Hlk].
  destruct u; simpl in Hi; subst g.
  - (* the call is made, or the generator is given up before *)
    destruct (decide (r = RNext)) as [->|Hr].
    + pose proof (next_Fresh_Started true l s (world c) Hst Hlk Hh) as Hnext.
      unfold StateMachine.next in Hnext. simpl in Hnext.
      assert (Nesting.step o n = Nesting.enter i n) as ->.
      { destruct o; try done; injection Hop as _ ->; simpl; by rewrite Hu. }
      unfold Nesting.enter. rewrite <- Hmark.
      destruct (reporter_yielded s) eqn:Hy; simpl in Hnext.
      * eexists. split; [by eapply step_resumption|]. split; simpl.
        -- exists s, p, evs. split_and!; try done.
           intros [?|?]%Outermost_insert; [done|by apply Hrestart].
        -- by apply Forall2_insert.
      * eexists. split; [by eapply step_resumption|]. split; simpl.
        -- exists (marked s), p, evs. split_and!; try done.
           by apply running_marked.
        -- by apply Forall2_insert.
    + destruct (abandon_Fresh true r (world c) Hr) as [e He].
      assert (Nesting.step o n = Nesting.release i Nesting.NotEntered n) as ->.
      { destruct o; try done; injection Hop as _ -> <-; try done; simpl; by rewrite Hu. }
      eexists. split; [eapply step_resumption; eauto|]. split; simpl.
      * exists s, p, evs. split_and!; try done.
        intros [?|?]%Outermost_insert; [done|by apply Hrestart].
      * by apply Forall2_insert.
  - (* the outermost usage is released *)
    destruct (release_outermost true r (world c) l s q p) as (w' & Hrel & Hpost);
      try done.
    assert (Hto : to_restart_pickup s = true).
    { apply Hrestart. by eapply list_elem_of_lookup_2. }
    unfold released in Hpost. rewrite Hto in Hpost, Hrel.
    destruct Hpost as [p' Hpost].
    assert (Nesting.step o n = Nesting.release i Nesting.Outermost n) as ->.
    { destruct o; try done; injection Hop as _ -> _; simpl; by rewrite Hu. }
    eexists. split; [eapply step_resumption; eauto|]. split; simpl.
    + exists (with_pickup (Some p') (unmarked s)), p',
        (evs ++ [EvPut q; EvJoin p; EvStart p']).
      split; [eapply restarted_running; [by apply running_unmark|done]|].
      split; [done|]. split; [done|]. split.
      * rewrite (rst_events _ _ _ _ _ _ _ Hpost). simpl. by rewrite Hev, <- app_assoc.
      * by apply restarts_trace_snoc.
    + by apply Forall2_insert.
  - (* a nested usage is released *)
    destruct (release_plain true r (world c) (StartedRef l)) as [e He].
    assert (Nesting.step o n = Nesting.release i Nesting.Nested n) as ->.
    { destruct o; try done; injection Hop as _ -> _; simpl; by rewrite Hu. }
    eexists. split; [eapply step_resumption; eauto|]. split; simpl.
    + exists s, p, evs. split_and!; try done.
      intros [?|?]%Outermost_insert; [done|by apply Hrestart].
    + by apply Forall2_insert.
  - (* the generator is finished *)
    destruct (resume_Finished true r (world c)) as [e He].
    assert (Nesting.step o n = Nesting.release i Nesting.Over n) as ->.
    { destruct o; try done; injection Hop as _ -> _; simpl; by rewrite Hu. }
    eexists. split; [eapply step_resumption; eauto|]. split; simpl.
    + exists s, p, evs. split_and!; try done.
      intros [?|?]%Outermost_insert; [done|by apply Hrestart].
    + by apply Forall2_insert.
Qed.

Lemma simulates_steps os w0 l q p0 c n :
  forallb main_fetch os = true → simulates w0 l q p0 c n →
  ∃ c', steps os c = Some c' ∧ simulates w0 l q p0 c' (Nesting.run os n).
Proof.
  revert c n. induction os as [|o os IH]; intros c n Hos Hsim; simpl.
  - by exists c.
  - simpl in Hos. apply andb_prop in Hos as [Ho Hos].
    destruct (simulates_step o _ _ _ _ _ _ Ho Hsim) as (c1 & Hc1 & Hsim1).
    destruct (IH _ _ Hos Hsim1) as (c' & Hc' & Hsim').
    exists c'. by rewrite Hc1.
Qed.

(** ** Calls that end no pickup *)

Lemma no_pickup_ended_refl w : no_pickup_ended w w.
Proof.
  split; [|done]. exists []. split; [by rewrite app_nil_r|].
  by intros e ?%elem_of_nil.
Qed.

Lemma no_pickup_ended_same w w' :
  events w' = events w → alive w' = alive w → no_pickup_ended w w'.
Proof.
  intros He Ha. split; [|by rewrite Ha]. exists []. split; [by rewrite app_nil_r|].
  by intros e ?%elem_of_nil.
Qed.

Lemma no_pickup_ended_trans w1 w2 w3 :
  no_pickup_ended w1 w2 → no_pickup_ended w2 w3 → no_pickup_ended w1 w3.
Proof.
  intros [(e1 & H1 & Ho1) Ha1] [(e2 & H2 & Ho2) Ha2]. split; [|by etrans].
  exists (e1 ++ e2). split; [by rewrite H2, H1, app_assoc|].
  intros e [?|?]%elem_of_app; auto.
Qed.

Lemma Started_init_post_no_pickup_ended r q w w' s p :
  Started_init_post r q w w' s p → no_pickup_ended w w'.
Proof.
  intros []. split.
  - exists [EvStart p]. split; [done|].
    intros e ->%list_elem_of_singleton. by exists p.
  - apply init_alive_bounds0.
Qed.

(** [self.state = self.state.prepare_reporter()] under the lock. *)
Lemma prepare_no_pickup_ended w :
  match with_lock (s ← gets state; s' ← prepare_reporter s; modify (set_state s')) w with
  | Return _ w' => no_pickup_ended w w' ∧ locked w' = false
                   ∧ ∀ r q, state w' ≠ Initial r q
  | Raise _ _ => False
  | Hangs => True
  | Undefined => False
  end.
Proof.
  destruct (locked w) eqn:Hl; [by unfold with_lock; rewrite Hl|].
  destruct (state w) as [r q| | |] eqn:Hst.
  - destruct (prepare_Initial w r q Hst Hl) as (w' & s & p & -> & Hst' & Hl' & Hpost).
    split; [by eapply Started_init_post_no_pickup_ended|]. split; [done|].
    intros ??. by rewrite Hst'.
  - rewrite prepare_other by (done || by rewrite Hst).
    split; [apply no_pickup_ended_refl|]. split; [done|]. intros ??. by rewrite Hst.
  - rewrite prepare_other by (done || by rewrite Hst).
    split; [apply no_pickup_ended_refl|]. split; [done|]. intros ??. by rewrite Hst.
  - rewrite prepare_other by (done || by rewrite Hst).
    split; [apply no_pickup_ended_refl|]. split; [done|]. intros ??. by rewrite Hst.
Qed.

Lemma state_reporter_pure st w :
  match state_reporter st w with
  | Return _ w' => w' = w
  | Raise _ _ => False
  | Hangs => False
  | Undefined => True
  end.
Proof. destruct st; try done. simpl. unfold_M. by destruct (heap w !! l). Qed.

Lemma find_reporter_no_pickup_ended w w' :
  after (StateMachine.find_reporter w) = Some w' → no_pickup_ended w w'.
Proof.
  unfold StateMachine.find_reporter.
  pose proof (prepare_no_pickup_ended w) as Hp.
  unfold mbind at 1, M_bind at 1.
  destruct (with_lock _ w) as [[] w1| | |]; try done.
  destruct Hp as (Hp & _). unfold mbind, M_bind, gets.
  pose proof (state_reporter_pure (state w1) w1) as Hs.
  destruct (state_reporter (state w1) w1); try done.
  simpl. intros [= <-]. by subst.
Qed.

(** The generator of a state, resumed anywhere but inside the [try] of
    [Started.fetch_reporter], touches neither the trace nor the tasks. *)
Lemma fetch_reporter_quiet main st at_ r w :
  (∀ l, st = StartedRef l → at_ ≠ AtYieldTry) →
  match fetch_reporter main st at_ r w with
  | Return _ w' => events w' = events w ∧ alive w' = alive w
  | Raise _ w' => events w' = events w ∧ alive w' = alive w
  | Hangs => True
  | Undefined => True
  end.
Proof.
  intros Hat. destruct st as [rep qu|l|rep|]; try (by destruct at_, r).
  destruct at_; try (by destruct r); [|by destruct (Hat l eq_refl)].
  destruct r; try done. simpl.
  unfold mbind at 1, M_bind at 1. simpl.
  destruct (heap w !! l) as [s|] eqn:Hh.
  - pose proof (Started_fetch_reporter_Fresh main l s w Hh) as H.
    unfold Started_fetch_reporter in H. simpl in H.
    unfold mbind at 1, M_bind at 1 in H. simpl in H. rewrite H.
    by destruct (main && negb (reporter_yielded s)).
  - unfold_M. destruct main; simpl; by rewrite Hh.
Qed.

Lemma machine_fetch_reporter_quiet main g r w g' out w' :
  (∀ l, g ≠ outermost_gen l) →
  StateMachine.fetch_reporter main g r w = (g', out) → after out = Some w' →
  no_pickup_ended w w'.
Proof.
  intros Hg. destruct g as [|[st at_]|]; simpl.
  - destruct r; simpl.
    + pose proof (prepare_no_pickup_ended w) as Hp.
      destruct (with_lock _ w) as [[] w1| | |]; try done; [|by intros [= <- <-]].
      destruct Hp as (Hp & Hl1 & Hst1).
      unfold gen_resume. simpl.
      pose proof (fetch_reporter_quiet main (state w1) Fresh RNext w1) as Hq.
      destruct (fetch_reporter main (state w1) Fresh RNext w1) as [[]| | |];
        intros [= <- <-]; simpl; try done; intros [= <-];
        (eapply no_pickup_ended_trans; [done|];
         apply no_pickup_ended_same; by apply Hq).
    + intros [= <- <-] [= <-]. apply no_pickup_ended_refl.
    + intros [= <- <-] [= <-]. apply no_pickup_ended_refl.
  - assert (Hat : ∀ l, st = StartedRef l → at_ ≠ AtYieldTry).
    { intros l -> ->. by apply (Hg l). }
    pose proof (fetch_reporter_quiet main st at_ r w Hat) as Hq.
    unfold StateMachine.yield_from, gen_close, gen_resume. simpl.
    destruct r; simpl;
      destruct (fetch_reporter main st at_ _ w) as [[]|[]| |];
      intros [= <- <-]; simpl; try done; intros [= <-];
      apply no_pickup_ended_same; by apply Hq.
  - destruct r; intros [= <- <-] [= <-]; apply no_pickup_ended_refl.
Qed.

(** ** Calls that leave the marks alone *)

Lemma quiet_refl w : quiet w w.
Proof. intros Hb. split; [done|]. intros l s Hl. by exists s. Qed.

Lemma quiet_trans w1 w2 w3 : quiet w1 w2 → quiet w2 w3 → quiet w1 w3.
Proof.
  intros H12 H23 Hb1. destruct (H12 Hb1) as [Hb2 H2]. destruct (H23 Hb2) as [Hb3 H3].
  split; [done|]. intros l s Hl.
  destruct (H2 l s Hl) as (s2 & Hl2 & Hy2 & Hr2).
  destruct (H3 l s2 Hl2) as (s3 & Hl3 & Hy3 & Hr3).
  exists s3. split; [done|]. split; [congruence|]. auto.
Qed.

Lemma quiet_same_heap w w' :
  heap w' = heap w → next_id w ≤ next_id w' → quiet w w'.
Proof.
  intros Hh Hn Hb. split.
  - intros l Hl. rewrite Hh in Hl. specialize (Hb l Hl). lia.
  - intros l s Hl. exists s. by rewrite Hh.
Qed.

Lemma quiet_update w w' l s s' :
  heap w !! l = Some s → heap w' = <[l:=s']> (heap w) →
  reporter_yielded s' = reporter_yielded s →
  (to_restart_pickup s = false → to_restart_pickup s' = false) →
  next_id w ≤ next_id w' → quiet w w'.
Proof.
  intros Hl Hh Hy Hr Hn Hb. split.
  - intros l0 Hl0. rewrite Hh in Hl0. apply lookup_insert_is_Some in Hl0 as [<-|[_ Hl0]].
    + assert (l < next_id w) by (apply Hb; by eexists). lia.
    + specialize (Hb l0 Hl0). lia.
  - intros l0 s0 Hl0. rewrite Hh. destruct (decide (l = l0)) as [<-|Hne].
    + exists s'. rewrite lookup_insert_eq. split; [done|].
      assert (s0 = s) as -> by congruence. done.
    + exists s0. by rewrite lookup_insert_ne.
Qed.

Lemma quiet_alloc w w' s :
  heap w' = <[next_id w:=s]> (heap w) → next_id w < next_id w' → quiet w w'.
Proof.
  intros Hh Hn Hb. split.
  - intros l0 Hl0. rewrite Hh in Hl0. apply lookup_insert_is_Some in Hl0 as [<-|[_ Hl0]].
    + done.
    + specialize (Hb l0 Hl0). lia.
  - intros l0 s0 Hl0. exists s0. rewrite Hh. split; [|done].
    rewrite lookup_insert_ne; [done|].
    intros <-. assert (next_id w < next_id w) by (apply Hb; by eexists). lia.
Qed.

Section preserves.
Context (R : World → World → Prop).
Hypothesis R_refl : ∀ w, R w w.
Hypothesis R_trans : ∀ w1 w2 w3, R w1 w2 → R w2 w3 → R w1 w3.

Lemma preserves_ret {A} (a : A) : preserves R (mret a).
Proof using R_refl. intros w. apply R_refl. Qed.

Lemma preserves_raise {A} e : preserves R (raise (A:=A) e).
Proof using R_refl. intros w. apply R_refl. Qed.

Lemma preserves_gets {A} (f : World → A) : preserves R (gets f).
Proof using R_refl. intros w. apply R_refl. Qed.

Lemma preserves_bind {A B} (m : M A) (f : A → M B) :
  preserves R m → (∀ a, preserves R (f a)) → preserves R (m ≫= f).
Proof using R_trans.
  intros Hm Hf w. unfold mbind, M_bind. specialize (Hm w).
  destruct (m w) as [a w1|e w1| |]; try done.
  specialize (Hf a w1). destruct (f a w1); try done; by eapply R_trans.
Qed.

Lemma preserves_modify (f : World → World) :
  (∀ w, R w (f w)) → preserves R (modify f).
Proof. intros Hf w. apply Hf. Qed.

Lemma preserves_with_lock {A} (m : M A) :
  (∀ w b, R w (set_locked b w)) →
  preserves R m → preserves R (with_lock m).
Proof using R_trans.
  intros Hl Hm w. unfold with_lock. destruct (locked w); [done|].
  specialize (Hm (set_locked true w)).
  destruct (m (set_locked true w)) as [a w1|e w1| |]; try done.
  - eapply R_trans; [apply Hl|]. eapply R_trans; [apply Hm|]. apply Hl.
  - eapply R_trans; [apply Hl|]. eapply R_trans; [apply Hm|]. apply Hl.
Qed.

End preserves.

Lemma preserves_read R l : (∀ w, R w w) → preserves R (read l).
Proof. intros HR w. unfold read. destruct (heap w !! l); [apply HR|done]. Qed.

Lemma quiet_set_locked w b : quiet w (set_locked b w).
Proof. by apply quiet_same_heap. Qed.

Lemma quiet_set_state w st : quiet w (set_state st w).
Proof. by apply quiet_same_heap. Qed.

Lemma quiet_set_pickup l p : preserves quiet (set_pickup l p).
Proof.
  intros w. unfold set_pickup. unfold_M. destruct (heap w !! l) as [s|] eqn:Hl; [|done].
  by eapply quiet_update.
Qed.

Lemma quiet_detach l : preserves quiet (detach l).
Proof.
  intros w. unfold detach, set_to_restart_pickup. unfold_M.
  destruct (heap w !! l) as [s|] eqn:Hl; [|done].
  by eapply quiet_update.
Qed.

Lemma quiet_queue_put_None q : preserves quiet (queue_put_None q).
Proof. intros w. by apply quiet_same_heap. Qed.

Lemma quiet_pickup_start p : preserves quiet (pickup_start p).
Proof.
  intros w. unfold pickup_start, modify.
  destruct (pickup_queue p) as [q|]; [destruct (pending w q)|];
    by apply quiet_same_heap.
Qed.

Lemma quiet_pickup_join p : preserves quiet (pickup_join p).
Proof.
  intros w. unfold pickup_join.
  destruct (decide _); [|by apply quiet_same_heap].
  destruct (pickup_queue p); [|done].
  destruct (pending w n); [done|]. by apply quiet_same_heap.
Qed.

Lemma quiet_new_ProgressReportPickup q d :
  preserves quiet (new_ProgressReportPickup q d).
Proof. intros w. apply quiet_same_heap; simpl; [done|lia]. Qed.

Create HintDb quiet.
#[local] Hint Resolve quiet_refl quiet_set_locked quiet_set_state : quiet.
#[local] Hint Resolve quiet_set_pickup quiet_detach quiet_queue_put_None
  quiet_pickup_start quiet_pickup_join quiet_new_ProgressReportPickup : quiet.

(** Composition of the facts above along the structure of a method. *)
Ltac quiet_steps :=
  repeat first
    [ by auto with quiet
    | apply (preserves_bind quiet quiet_trans); [|intros ?]
    | apply (preserves_ret quiet quiet_refl)
    | apply (preserves_raise quiet quiet_refl)
    | apply (preserves_gets quiet quiet_refl)
    | apply (preserves_read quiet _ quiet_refl)
    | apply (preserves_with_lock quiet quiet_trans); [by auto with quiet|]
    | apply preserves_modify; by auto with quiet ].

Lemma quiet__start_pickup l : preserves quiet (_start_pickup l).
Proof. unfold _start_pickup. quiet_steps. Qed.
#[local] Hint Resolve quiet__start_pickup : quiet.

Lemma quiet__end_pickup l : preserves quiet (_end_pickup l).
Proof.
  unfold _end_pickup. quiet_steps.
  destruct (queue a); quiet_steps. destruct (pickup a); quiet_steps.
Qed.
#[local] Hint Resolve quiet__end_pickup : quiet.

Lemma quiet__restart_pickup l : preserves quiet (_restart_pickup l).
Proof.
  unfold _restart_pickup. quiet_steps.
Qed.

Lemma quiet_Started_init r q : preserves quiet (Started_init r q).
Proof.
  intros w. destruct (Started_init_spec r q w) as (w' & s & p & -> & Hpost & _).
  destruct Hpost. eapply quiet_alloc; [done|]. lia.
Qed.

#[local] Hint Resolve quiet__restart_pickup quiet_Started_init : quiet.

Lemma quiet_prepare_reporter st : preserves quiet (prepare_reporter st).
Proof. destruct st; simpl; quiet_steps. Qed.

Lemma quiet_flush st : preserves quiet (flush st).
Proof. destruct st; simpl; quiet_steps. Qed.

Lemma quiet_shutdown st : preserves quiet (shutdown st).
Proof. destruct st; simpl; quiet_steps. Qed.

Lemma quiet_state_reporter st : preserves quiet (state_reporter st).
Proof. destruct st; simpl; quiet_steps. Qed.

#[local] Hint Resolve quiet_prepare_reporter quiet_flush quiet_shutdown
  quiet_state_reporter : quiet.

Lemma quiet_prepare :
  preserves quiet
    (with_lock (s ← gets state; s' ← prepare_reporter s; modify (set_state s'))).
Proof. quiet_steps. Qed.

Lemma quiet_find_reporter : preserves quiet StateMachine.find_reporter.
Proof. unfold StateMachine.find_reporter. quiet_steps. Qed.

Lemma quiet_machine_register_reporter r :
  preserves quiet (StateMachine.register_reporter r).
Proof. unfold StateMachine.register_reporter, register_reporter. quiet_steps. Qed.

Lemma quiet_machine_flush : preserves quiet StateMachine.flush.
Proof. unfold StateMachine.flush. quiet_steps. Qed.

Lemma quiet_machine_disable : preserves quiet StateMachine.disable.
Proof. unfold StateMachine.disable, disable. quiet_steps. Qed.

Lemma quiet_machine_shutdown : preserves quiet StateMachine.shutdown.
Proof. unfold StateMachine.shutdown. quiet_steps. Qed.

Lemma preserves_after {A} R (m : M A) w w' :
  preserves R m → after (m w) = Some w' → R w w'.
Proof.
  intros Hm. specialize (Hm w). destruct (m w); try done; by intros [= <-].
Qed.

(** ** What a step does to the marks *)

Lemma finally_quiet l w :
  match fetch_reporter_finally l w with
  | Return _ w' => ∃ s, heap w !! l = Some s ∧ quiet (unmark l s w) w'
  | Raise _ w' => ∃ s, heap w !! l = Some s ∧ quiet (unmark l s w) w'
  | Hangs => True
  | Undefined => True
  end.
Proof.
  unfold fetch_reporter_finally. unfold mbind at 1, M_bind at 1.
  destruct (heap w !! l) as [s|] eqn:Hl.
  2:{ unfold set_reporter_yielded. unfold_M. by rewrite Hl. }
  rewrite (set_reporter_yielded_spec w l s Hl false).
  unfold mbind at 1, M_bind at 1, read. simpl. rewrite lookup_insert_eq.
  destruct (negb (to_restart_pickup (with_reporter_yielded false s))).
  - exists s. split; [done|]. apply quiet_refl.
  - assert (Hq : preserves quiet (with_lock (_restart_pickup l);; mret Normal)).
    { apply (preserves_bind quiet quiet_trans); [|intros ?; apply (preserves_ret quiet quiet_refl)].
      apply (preserves_with_lock quiet quiet_trans); [apply quiet_set_locked|].
      apply quiet__restart_pickup. }
    specialize (Hq (unmark l s w)). unfold unmark, unmarked in Hq.
    destruct ((with_lock (_restart_pickup l);; mret Normal) _); try done; by exists s.
Qed.

Lemma release_quiet main l r w :
  match Started_fetch_reporter main l AtYieldTry r w with
  | Return e w' => e = Done ∧ ∃ s, heap w !! l = Some s ∧ quiet (unmark l s w) w'
  | Raise _ w' => ∃ s, heap w !! l = Some s ∧ quiet (unmark l s w) w'
  | Hangs => True
  | Undefined => True
  end.
Proof.
  pose proof (finally_quiet l w) as Hf.
  unfold Started_fetch_reporter, try_finally, mbind, M_bind.
  destruct r; simpl; destruct (fetch_reporter_finally l w) as [[]| | |]; done.
Qed.

(** The first run of the body of a state's generator. *)
Lemma call_kinds main st w :
  match fetch_reporter main st Fresh RNext w with
  | Return (Yields at_ _) w' =>
      (at_ = AtYield ∧ w' = w)
      ∨ (∃ l s, st = StartedRef l ∧ at_ = AtYieldTry ∧ heap w !! l = Some s
                ∧ reporter_yielded s = false
                ∧ w' = set_heap (<[l:=marked s]> (heap w)) w)
  | Return Done _ => False
  | Raise _ _ => False
  | Hangs => False
  | Undefined => True
  end.
Proof.
  destruct st as [rep qu|l|rep|]; try (by left).
  simpl. unfold mbind at 1, M_bind at 1. simpl.
  destruct (heap w !! l) as [s|] eqn:Hh.
  - pose proof (Started_fetch_reporter_Fresh main l s w Hh) as H.
    unfold Started_fetch_reporter in H. simpl in H.
    unfold mbind at 1, M_bind at 1 in H. simpl in H. rewrite H.
    destruct main; simpl; [|by left].
    destruct (reporter_yielded s) eqn:Hy; simpl; [by left|].
    right. by exists l, s.
  - unfold_M. destruct main; simpl; by rewrite Hh.
Qed.

(** Any other run of the body of a state's generator ends it on the spot. *)
Lemma resume_kinds main st at_ r w :
  (at_ = Fresh → r ≠ RNext) → (∀ l, st = StartedRef l → at_ ≠ AtYieldTry) →
  match fetch_reporter main st at_ r w with
  | Return e w' => e = Done ∧ w' = w
  | Raise _ w' => w' = w
  | Hangs => False
  | Undefined => False
  end.
Proof.
  intros Hf Ht.
  destruct st as [rep qu|l|rep|], at_, r; try done;
    try (by destruct Hf); by destruct (Ht l eq_refl).
Qed.

Lemma yield_from_inv main sg r w g' out w' :
  StateMachine.yield_from main sg r w = (g', out) → after out = Some w' →
  match fetch_reporter main (gen_self sg) (gen_pc sg) r w with
  | Return (Yields p v) w1 =>
      w' = w1 ∧ r ≠ RNext ∨ w' = w1 ∧ g' = StateMachine.GYieldFrom (gen_at sg p)
  | Return Done w1 => w' = w1 ∧ g' = StateMachine.GFinished
  | Raise _ w1 => w' = w1 ∧ g' = StateMachine.GFinished
  | Hangs => False
  | Undefined => False
  end.
Proof.
  unfold StateMachine.yield_from, gen_close, gen_resume.
  destruct r; destruct (fetch_reporter _ _ _ _ _) as [[]|[]| |]; simpl;
    intros [= <- <-] [= <-]; auto.
Qed.

Lemma fetch_reporter_kinds main g r w g' out w' :
  StateMachine.fetch_reporter main g r w = (g', out) → after out = Some w' →
  (quiet w w' ∧ ∀ l, g' ≠ outermost_gen l)
  ∨ (∃ l s w1, g' = outermost_gen l ∧ (∀ l', g ≠ outermost_gen l')
               ∧ quiet w w1 ∧ heap w1 !! l = Some s ∧ reporter_yielded s = false
               ∧ w' = set_heap (<[l:=marked s]> (heap w1)) w1)
  ∨ (∃ l s, g = outermost_gen l ∧ g' = StateMachine.GFinished
            ∧ heap w !! l = Some s ∧ quiet (unmark l s w) w').
Proof.
  destruct g as [|[st at_]|]; simpl.
  - (* the generator has not been started *)
    destruct r; simpl.
    2,3: intros [= <- <-] [= <-]; left; split; [apply quiet_refl|done].
    pose proof (quiet_prepare w) as Hp.
    destruct (with_lock _ w) as [[] w1|e w1| |]; try done;
      try (by intros [= <- <-] [=]).
    2:{ intros [= <- <-] [= <-]. by left. }
    intros Hy Ha.
    pose proof (yield_from_inv main {| gen_self := state w1; gen_pc := Fresh |}
                  RNext w1 g' out w' Hy Ha) as Hi.
    simpl in Hi.
    pose proof (call_kinds main (state w1) w1) as Hc.
    destruct (fetch_reporter main (state w1) Fresh RNext w1) as [[at_ v|]| | |];
      try done.
    destruct Hi as [[_ []]|[-> ->]]; [done|].
    destruct Hc as [[-> ->]|(l & s & Hst & -> & Hh & Hm & ->)].
    + left. by split.
    + right; left. exists l, s, w1. unfold gen_at. simpl. rewrite Hst.
      by split_and!.
  - intros Hy Ha.
    pose proof (yield_from_inv main {| gen_self := st; gen_pc := at_ |}
                  r w g' out w' Hy Ha) as Hi.
    simpl in Hi.
    destruct (decide (at_ = Fresh ∧ r = RNext)) as [[-> ->]|Hfr].
    { (* a delegate that has not been started *)
      pose proof (call_kinds main st w) as Hc.
      destruct (fetch_reporter main st Fresh RNext w) as [[at_ v|]| | |]; try done.
      destruct Hi as [[_ []]|[-> ->]]; [done|].
      destruct Hc as [[-> ->]|(l & s & -> & -> & Hh & Hm & ->)].
      - left. split; [apply quiet_refl|done].
      - right; left. exists l, s, w. split_and!; try done. apply quiet_refl. }
    assert ((∃ l, st = StartedRef l ∧ at_ = AtYieldTry)
            ∨ ¬ ∃ l, st = StartedRef l ∧ at_ = AtYieldTry) as [(l & -> & ->)|Hno].
    { destruct st as [| l | |], at_; try (right; by intros (? & ? & ?)).
      left. by exists l. }
    + (* the release of an outermost usage *)
      pose proof (release_quiet main l r w) as Hq.
      change (fetch_reporter main (StartedRef l) AtYieldTry r w)
        with (Started_fetch_reporter main l AtYieldTry r w) in Hi.
      right; right.
      destruct (Started_fetch_reporter main l AtYieldTry r w) as [[]|e w1| |];
        try done.
      * by destruct Hq as [[=] _].
      * destruct Hi as [-> ->]. destruct Hq as [_ (s & ? & ?)]. by exists l, s.
      * destruct Hi as [-> ->]. destruct Hq as (s & ? & ?). by exists l, s.
    + assert (H1 : at_ = Fresh → r ≠ RNext) by (intros -> ->; by apply Hfr).
      assert (H2 : ∀ l, st = StartedRef l → at_ ≠ AtYieldTry).
      { intros l -> ->. apply Hno. by exists l. }
      pose proof (resume_kinds main st at_ r w H1 H2) as Hq.
      left.
      destruct (fetch_reporter main st at_ r w) as [[]|e w1| |]; try done.
      * by destruct Hq as [[=] _].
      * destruct Hi as [-> ->]. destruct Hq as [_ ->]. split; [apply quiet_refl|done].
      * destruct Hi as [-> ->]. subst. split; [apply quiet_refl|done].
  - destruct r; intros [= <- <-] [= <-]; left; (split; [apply quiet_refl|done]).
Qed.

(** ** Every step is of one of the three kinds *)

Lemma resume_at_cases {A} i
    (f : StateMachine.Gen → World → StateMachine.Gen * outcome A) c c' :
  resume_at i f c = Some c' →
  (gens c !! i = None ∧ c' = c)
  ∨ (∃ g g' out, gens c !! i = Some g ∧ f g (world c) = (g', out)
                 ∧ after out = Some (world c')
                 ∧ gens c' = <[i:=g']> (gens c)).
Proof.
  unfold resume_at. destruct (gens c !! i) as [g|]; [|intros [= <-]; by left].
  destruct (f g (world c)) as [g' o] eqn:Hf.
  destruct (after o) as [w'|] eqn:Ha; simpl; [|done].
  intros [= <-]. right. by exists g, g', o.
Qed.

Lemma step_resumption_cases o main i r c c' :
  op_resumption o = Some (main, i, r) → step o c = Some c' →
  (gens c !! i = None ∧ c' = c)
  ∨ (∃ g g' out, gens c !! i = Some g
                 ∧ StateMachine.fetch_reporter main g r (world c) = (g', out)
                 ∧ after out = Some (world c')
                 ∧ gens c' = <[i:=g']> (gens c)).
Proof.
  intros Hop Hstep.
  destruct o; try done; injection Hop as -> -> <-; simpl in Hstep;
    apply resume_at_cases in Hstep as [?|(g & g' & out & Hg & Hf & Ha & Hgs)];
    try (by left); right.
  - by exists g, g', out.
  - by exists g, g', out.
  - unfold StateMachine.close in Hf.
    destruct (StateMachine.fetch_reporter main g RClose (world c)) as [g0 out0] eqn:Hf0.
    destruct (after_closing (g0, out0)) as [H1 H2]. rewrite Hf in H1, H2. simpl in *.
    subst g0. exists g, g', out0. split_and!; try done. congruence.
Qed.

Lemma resumes_op_resumption o main i r :
  op_resumption o = Some (main, i, r) → ∀ j, resumes o j = true ↔ j = i.
Proof.
  intros Hop j. destruct o; try done; injection Hop as _ -> _; simpl;
    apply bool_decide_eq_true.
Qed.

Lemma resumes_None o :
  op_resumption o = None → ∀ j, resumes o j = false.
Proof. by destruct o. Qed.

Lemma step_kinds o c c' : step o c = Some c' → step_kind o c c'.
Proof.
  intros Hstep.
  destruct (op_resumption o) as [[[main j] r]|] eqn:Hop.
  - pose proof (resumes_op_resumption o main j r Hop) as Hres.
    destruct (step_resumption_cases o main j r c c' Hop Hstep)
      as [[_ ->]|(g & g' & out & Hg & Hf & Ha & Hgs)].
    { apply step_quiet; [apply quiet_refl|done|done]. }
    destruct (fetch_reporter_kinds main g r _ g' out _ Hf Ha)
      as [[Hq Hno]|[(l & s & w1 & -> & Hno & Hq & Hh & Hm & Hw)|(l & s & -> & -> & Hh & Hq)]].
    + apply step_quiet; [done| |].
      * intros i l. unfold outermost_at. rewrite Hgs.
        destruct (decide (j = i)) as [->|Hne].
        -- rewrite list_lookup_insert_eq by by eapply lookup_lt_Some.
           intros [= ->]. by destruct (Hno l).
        -- by rewrite list_lookup_insert_ne.
      * intros i l Hi Hr. unfold outermost_at. rewrite Hgs.
        rewrite list_lookup_insert_ne; [done|].
        intros ->. rewrite (proj2 (Hres i) eq_refl) in Hr. done.
    + eapply step_mark; try done.
      * by apply Hres.
      * intros l' Hl'. unfold outermost_at in Hl'. rewrite Hg in Hl'.
        injection Hl' as ->. by apply (Hno l').
      * by eapply lookup_lt_Some.
    + eapply step_release; try done. by apply Hres.
  - pose proof (resumes_None o Hop) as Hres.
    assert (quiet (world c) (world c') ∧ ∃ gs, gens c' = gens c ++ gs
            ∧ ∀ g l, g ∈ gs → g ≠ outermost_gen l) as (Hq & gs & Hgs & Hno).
    { destruct o; try done; simpl in Hstep.
      - apply call_inv in Hstep as [Ha Hg]. split.
        + by eapply preserves_after; [apply quiet_find_reporter|].
        + exists []. by rewrite app_nil_r; split; [|intros ?? ?%elem_of_nil].
      - apply call_inv in Hstep as [Ha Hg]. split.
        + by eapply preserves_after; [apply quiet_machine_register_reporter|].
        + exists []. by rewrite app_nil_r; split; [|intros ?? ?%elem_of_nil].
      - apply call_inv in Hstep as [Ha Hg]. split.
        + by eapply preserves_after; [apply quiet_machine_flush|].
        + exists []. by rewrite app_nil_r; split; [|intros ?? ?%elem_of_nil].
      - apply call_inv in Hstep as [Ha Hg]. split.
        + by eapply preserves_after; [apply quiet_machine_disable|].
        + exists []. by rewrite app_nil_r; split; [|intros ?? ?%elem_of_nil].
      - apply call_inv in Hstep as [Ha Hg]. split.
        + by eapply preserves_after; [apply quiet_machine_shutdown|].
        + exists []. by rewrite app_nil_r; split; [|intros ?? ?%elem_of_nil].
      - injection Hstep as <-. split; [apply quiet_refl|].
        exists [StateMachine.GFresh]. split; [done|].
        by intros g l ->%list_elem_of_singleton.
      - apply call_inv in Hstep as [Ha Hg]. split.
        + by eapply preserves_after; [apply quiet_detach|].
        + exists []. by rewrite app_nil_r; split; [|intros ?? ?%elem_of_nil]. }
    apply step_quiet; [done| |].
    + intros i l. unfold outermost_at. rewrite Hgs.
      intros Hi. apply lookup_app_Some in Hi as [Hi|[_ Hi]]; [done|].
      apply list_elem_of_lookup_2 in Hi. by destruct (Hno _ l Hi).
    + intros i l Hi _. unfold outermost_at. rewrite Hgs. by apply lookup_app_l_Some.
Qed.

(** ** The pools of a run are consistent *)

Lemma bounded_update w l s s' :
  heap w !! l = Some s → bounded w → bounded (set_heap (<[l:=s']> (heap w)) w).
Proof.
  intros Hl Hb l0 Hl0. simpl in *.
  apply lookup_insert_is_Some in Hl0 as [<-|[_ Hl0]]; apply Hb; [by eexists|done].
Qed.

Lemma consistent_start : consistent start.
Proof.
  split.
  - by intros l [s Hs].
  - by intros i l Hi.
  - by intros i j l Hi.
Qed.

Lemma consistent_step_kind o c c' :
  consistent c → step_kind o c c' → consistent c'.
Proof.
  intros [Hb Hm Hu] [Hq Hback Hfwd|j l s w1 Hres Hnot Hj Hgs Hq Hh Hy Hw|j l s Hres Hj Hgs Hh Hq].
  - destruct (Hq Hb) as [Hb' Hheap]. split; [done| |].
    + intros i l Hi. destruct (Hm i l (Hback i l Hi)) as (s & Hs & Hy).
      destruct (Hheap l s Hs) as (s' & Hs' & Hy' & _). exists s'. split; [done|congruence].
    + intros i j l Hi Hj. eauto.
  - destruct (Hq Hb) as [Hb1 Hheap].
    assert (Hold : ∀ i l0, i ≠ j → outermost_at c' i l0 → outermost_at c i l0 ∧ l0 ≠ l).
    { intros i l0 Hne Hi. unfold outermost_at in Hi.
      rewrite Hgs, list_lookup_insert_ne in Hi by done. split; [done|].
      intros ->. destruct (Hm i l Hi) as (s0 & Hs0 & Hy0).
      destruct (Hheap l s0 Hs0) as (s1 & Hs1 & Hy1 & _). congruence. }
    assert (Hnew : ∀ l0, outermost_at c' j l0 → l0 = l).
    { intros l0 Hi. unfold outermost_at in Hi.
      rewrite Hgs, list_lookup_insert_eq in Hi by done. by injection Hi as <-. }
    split.
    + rewrite Hw. by eapply bounded_update.
    + intros i l0 Hi. rewrite Hw. simpl. destruct (decide (i = j)) as [->|Hne].
      * rewrite (Hnew l0 Hi), lookup_insert_eq. by eexists.
      * destruct (Hold i l0 Hne Hi) as [Hi' Hl0].
        rewrite lookup_insert_ne by done.
        destruct (Hm i l0 Hi') as (s0 & Hs0 & Hy0).
        destruct (Hheap l0 s0 Hs0) as (s1 & Hs1 & Hy1 & _).
        exists s1. split; [done|congruence].
    + intros i i' l0 Hi Hi'.
      destruct (decide (i = j)) as [->|Hne], (decide (i' = j)) as [->|Hne']; try done.
      * rewrite (Hnew l0 Hi) in Hi'. by destruct (Hold i' l Hne' Hi').
      * rewrite (Hnew l0 Hi') in Hi. by destruct (Hold i l Hne Hi).
      * destruct (Hold i l0 Hne Hi), (Hold i' l0 Hne' Hi'). eauto.
  - assert (Hb0 : bounded (unmark l s (world c))) by by eapply bounded_update.
    destruct (Hq Hb0) as [Hb' Hheap].
    assert (Hold : ∀ i l0, outermost_at c' i l0 → outermost_at c i l0 ∧ l0 ≠ l).
    { intros i l0 Hi. unfold outermost_at in Hi. rewrite Hgs in Hi.
      destruct (decide (j = i)) as [->|Hne].
      - rewrite list_lookup_insert_eq in Hi by by eapply lookup_lt_Some. done.
      - rewrite list_lookup_insert_ne in Hi by done. split; [done|].
        intros ->. by destruct (Hu _ _ _ Hi Hj). }
    split; [done| |].
    + intros i l0 Hi. destruct (Hold i l0 Hi) as [Hi' Hl0].
      destruct (Hm i l0 Hi') as (s0 & Hs0 & Hy0).
      destruct (Hheap l0 s0) as (s1 & Hs1 & Hy1 & _).
      { simpl. by rewrite lookup_insert_ne. }
      exists s1. split; [done|congruence].
    + intros i i' l0 Hi Hi'. destruct (Hold i l0 Hi), (Hold i' l0 Hi'). eauto.
Qed.

Lemma consistent_steps os c c' :
  consistent c → steps os c = Some c' → consistent c'.
Proof.
  revert c. induction os as [|o os IH]; intros c Hc; simpl.
  - by intros [= <-].
  - destruct (step o c) as [c1|] eqn:Hstep; simpl; [|done].
    apply IH. eapply consistent_step_kind; [done|]. by apply step_kinds.
Qed.

(** ** A usage stays detached until it is released *)

Lemma held_step_kind o c c' i l d :
  consistent c → step_kind o c c' → outermost_at c i l → resumes o i = false →
  detached d l (world c) →
  outermost_at c' i l ∧ detached d l (world c').
Proof.
  intros [Hb Hm Hu] Hk Hi Hr (s & Hs & Hd).
  destruct (Hm i l Hi) as (s0 & Hs0 & Hy). assert (s0 = s) as -> by congruence.
  destruct Hk as [Hq Hback Hfwd|j l1 s1 w1 Hres Hnot Hj Hgs Hq Hh Hy1 Hw|j l1 s1 Hres Hj Hgs Hh Hq].
  - destruct (Hq Hb) as [_ Hheap]. split; [by apply Hfwd|].
    destruct (Hheap l s Hs) as (s' & Hs' & _ & Hd'). exists s'. split; [done|].
    intros ->. auto.
  - assert (i ≠ j) by (intros ->; congruence).
    destruct (Hq Hb) as [_ Hheap].
    destruct (Hheap l s Hs) as (s' & Hs' & Hy' & Hd').
    assert (l1 ≠ l) by (intros ->; congruence).
    split.
    + unfold outermost_at. by rewrite Hgs, list_lookup_insert_ne.
    + exists s'. rewrite Hw. simpl. rewrite lookup_insert_ne by done.
      split; [done|]. intros ->. auto.
  - assert (i ≠ j) by (intros ->; congruence).
    assert (l1 ≠ l) by (intros ->; by destruct (Hu _ _ _ Hi Hj)).
    assert (Hb0 : bounded (unmark l1 s1 (world c))) by by eapply bounded_update.
    destruct (Hq Hb0) as [_ Hheap].
    destruct (Hheap l s) as (s' & Hs' & _ & Hd').
    { simpl. by rewrite lookup_insert_ne. }
    split.
    + unfold outermost_at. by rewrite Hgs, list_lookup_insert_ne.
    + exists s'. split; [done|]. intros ->. auto.
Qed.

Lemma held_steps os c c' i l d :
  consistent c → outermost_at c i l →
  forallb (λ o, negb (resumes o i)) os = true →
  detached d l (world c) → steps os c = Some c' →
  consistent c' ∧ outermost_at c' i l ∧ detached d l (world c').
Proof.
  revert c. induction os as [|o os IH]; intros c Hc Hi Hos Hd; simpl.
  - by intros [= <-].
  - simpl in Hos. apply andb_prop in Hos as [Ho Hos]. apply negb_true_iff in Ho.
    destruct (step o c) as [c1|] eqn:Hstep; simpl; [|done].
    pose proof (step_kinds _ _ _ Hstep) as Hk.
    destruct (held_step_kind o c c1 i l d Hc Hk Hi Ho Hd) as [Hi1 Hd1].
    apply IH; try done. by eapply consistent_step_kind.
Qed.

Lemma steps_app os1 os2 c :
  steps (os1 ++ os2) c = steps os1 c ≫= steps os2.
Proof.
  revert c. induction os1 as [|o os1 IH]; intros c; simpl; [done|].
  destruct (step o c) as [c1|]; simpl; [apply IH|done].
Qed.

Lemma detach_step l c c' :
  step (Detach l) c = Some c' → detached true l (world c').
Proof.
  simpl. intros [Ha _]%call_inv. unfold detach, set_to_restart_pickup in Ha.
  unfold_M. unfold_M. revert Ha. unfold_M.
  destruct (heap (world c) !! l) as [s|]; [|done]. intros [= <-].
  eexists. split; [apply lookup_insert_eq|done].
Qed.

(** The release of a usage during which [detach] was called. *)
Lemma release_detached main r w l s :
  heap w !! l = Some s → to_restart_pickup s = false →
  StateMachine.fetch_reporter main (outermost_gen l) r w
  = (StateMachine.GFinished, Raise (released_exn false r) (unmark l s w)).
Proof.
  intros Hh Hr. pose proof (finally_no_restart w l s Hh Hr) as Hfin.
  unfold outermost_gen, StateMachine.fetch_reporter, StateMachine.yield_from,
    gen_close, gen_resume. simpl.
  unfold mbind, M_bind, try_finally.
  destruct r; simpl; rewrite Hfin; done.
Qed.

(** ** The worlds of a run are sound *)

Lemma sound_init_world : sound StateMachine.init.
Proof.
  split; try done.
  - by intros l [s Hs].
  - by intros l1 l2 (s & Hs & _).
  - simpl. split; [|by intros [? [=]]]. by intros l (s & Hs & _).
Qed.

(** The pickup that the object of a Started state holds. *)
Lemma sound_holder w l :
  sound w → state w = StartedRef l →
  ∃ s q p, heap w !! l = Some s ∧ queue s = Some q ∧ pickup s = Some p
           ∧ pickup_queue p = Some q ∧ pickup_id p < next_id w
           ∧ alive w ⊆ {[pickup_id p]}.
Proof.
  intros [Hlk Hb Hobj Hhold Hidle Hst] Hs. rewrite Hs in Hst.
  destruct Hst as (s & Hh & [p Hp]).
  destruct (Hobj l s Hh) as (_ & [q Hq] & Hpick).
  destruct (Hpick p Hp) as (Hpq & Hlt & Ha).
  exists s, q, p. split_and!; try done. congruence.
Qed.

(** Soundness looks at the lock, the heap, the tasks alive and the state. *)
Lemma sound_ext w w' :
  locked w' = locked w → heap w' = heap w → alive w' = alive w →
  state w' = state w → next_id w ≤ next_id w' → sound w → sound w'.
Proof.
  intros Hlk Hh Ha Hs Hn [Hlk0 Hb Hobj Hhold Hidle Hst].
  assert (Hhp : ∀ l, holds_pickup w' l ↔ holds_pickup w l).
  { intros l. unfold holds_pickup. by rewrite Hh. }
  split.
  - congruence.
  - intros l Hl. rewrite Hh in Hl. specialize (Hb l Hl). lia.
  - intros l s Hl. rewrite Hh in Hl. destruct (Hobj l s Hl) as (? & ? & Hp).
    split; [done|]. split; [done|]. intros p Hpp.
    destruct (Hp p Hpp) as (? & ? & ?). split; [done|]. split; [lia|by rewrite Ha].
  - intros l1 l2 H1%Hhp H2%Hhp. eauto.
  - intros Hno. rewrite Ha. apply Hidle. intros l Hl%Hhp. by apply (Hno l).
  - rewrite Hs. destruct (state w); try done.
    + destruct Hst as [Hno Hq]. split; [|done]. intros l Hl%Hhp. by apply (Hno l).
    + by apply Hhp.
Qed.

(** An assignment to a field other than [pickup], [queue] and [reporter]. *)
Lemma sound_flags w l s s' :
  sound w → heap w !! l = Some s →
  reporter s' = reporter s → queue s' = queue s → pickup s' = pickup s →
  sound (set_heap (<[l:=s']> (heap w)) w).
Proof.
  intros [Hlk Hb Hobj Hhold Hidle Hst] Hl Hr Hq Hp.
  assert (Hhp : ∀ l0, holds_pickup (set_heap (<[l:=s']> (heap w)) w) l0
                      ↔ holds_pickup w l0).
  { intros l0. unfold holds_pickup. simpl. destruct (decide (l = l0)) as [<-|Hne].
    - rewrite lookup_insert_eq. split.
      + intros (? & [= <-] & ?). exists s. by rewrite <- Hp.
      + intros (s0 & Hs0 & ?). exists s'. split; [done|].
        assert (s0 = s) as -> by congruence. by rewrite Hp.
    - by rewrite lookup_insert_ne. }
  split; simpl.
  - done.
  - by eapply bounded_update.
  - intros l0 s0. destruct (decide (l = l0)) as [<-|Hne].
    + rewrite lookup_insert_eq. intros [= <-]. rewrite Hr, Hq, Hp. by apply (Hobj l).
    + rewrite lookup_insert_ne by done. apply Hobj.
  - intros l1 l2 H1%Hhp H2%Hhp. eauto.
  - intros Hno. apply Hidle. intros l0 Hl0%Hhp. by apply (Hno l0).
  - destruct (state w); try done.
    + destruct Hst as [Hno ?]. split; [|done]. intros l0 Hl0%Hhp. by apply (Hno l0).
    + by apply Hhp.
Qed.

Lemma sound_set_state w st :
  sound w → passive st → sound (set_state st w).
Proof. intros [] Hp. split; try done. simpl. by destruct st. Qed.

(** The machine leaves the Initial state. *)
Lemma sound_Started_init r q w w' s p :
  sound w → state w = Initial r q → Started_init_post r q w w' s p →
  state w' = StartedRef (next_id w) → locked w' = false → sound w'.
Proof.
  intros [Hlk Hb Hobj Hhold Hidle Hst] Hs Hpost Hs' Hlk'.
  rewrite Hs in Hst. destruct Hst as [Hno Hrq].
  pose proof (Started_init_post_reporter _ _ _ _ _ _ Hpost) as Hrep.
  destruct Hpost.
  assert (Hfresh : heap w !! next_id w = None).
  { destruct (heap w !! next_id w) eqn:E; [|done].
    assert (next_id w < next_id w) by (apply Hb; by eexists). lia. }
  assert (Hold : ∀ l s0, heap w' !! l = Some s0 → l ≠ next_id w →
                         heap w !! l = Some s0 ∧ pickup s0 = None).
  { intros l s0 Hl Hne. rewrite init_heap0, lookup_insert_ne in Hl by done.
    split; [done|]. destruct (pickup s0) eqn:E; [|done].
    destruct (Hno l). exists s0. by rewrite E. }
  assert (Hhp : ∀ l, holds_pickup w' l → l = next_id w).
  { intros l (s0 & Hs0 & [p0 Hp0]). destruct (decide (l = next_id w)); [done|].
    destruct (Hold l s0 Hs0) as [_ ?]; congruence. }
  split.
  - done.
  - intros l Hl. rewrite init_heap0 in Hl.
    apply lookup_insert_is_Some in Hl as [<-|[_ Hl]]; [lia|].
    specialize (Hb l Hl). lia.
  - intros l s0 Hl. destruct (decide (l = next_id w)) as [->|Hne].
    + rewrite init_heap0, lookup_insert_eq in Hl. injection Hl as <-.
      split; [done|]. split.
      * destruct r as [rep|].
        -- destruct (init_reporter_kept0 rep eq_refl) as [_ ->]. apply Hrq. by eexists.
        -- destruct (init_reporter_new0 eq_refl) as (? & qu & _ & -> & _). by eexists.
      * intros p0 Hp0. assert (p0 = p) as -> by congruence.
        split; [done|]. split; [lia|].
        destruct init_alive_bounds0 as [_ Hup]. rewrite (Hidle Hno) in Hup.
        by rewrite (right_id_L ∅ (∪)) in Hup.
    + destruct (Hold l s0 Hl Hne) as [Hl0 Hnone].
      destruct (Hobj l s0 Hl0) as (? & ? & _). split; [done|]. split; [done|].
      intros p0. by rewrite Hnone.
  - intros l1 l2 H1%Hhp H2%Hhp. congruence.
  - intros Hno'. destruct (Hno' (next_id w)). exists s.
    rewrite init_heap0, lookup_insert_eq. split; [done|]. by rewrite init_pickup0.
  - rewrite Hs'. exists s. rewrite init_heap0, lookup_insert_eq.
    split; [done|]. by rewrite init_pickup0.
Qed.

(** The pickup of the object that holds one is restarted. *)
Lemma sound_restarted w w' l s q p p' :
  sound w → heap w !! l = Some s → pickup s = Some p → queue s = Some q →
  heap w' = <[l:=with_pickup (Some p') s]> (heap w) →
  pickup_queue p' = Some q → pickup_id p' < next_id w' → next_id w ≤ next_id w' →
  alive w' ⊆ {[pickup_id p']} → state w' = state w → locked w' = locked w →
  sound w'.
Proof.
  intros [Hlk Hb Hobj Hhold Hidle Hst] Hl Hp Hqs Hh' Hpq' Hlt' Hn' Ha' Hs' Hlk'.
  assert (Hl' : holds_pickup w l) by (exists s; by rewrite Hp).
  assert (Hhp : ∀ l0, holds_pickup w' l0 ↔ holds_pickup w l0).
  { intros l0. unfold holds_pickup. rewrite Hh'.
    destruct (decide (l = l0)) as [<-|Hne].
    - rewrite lookup_insert_eq. split; [by intros _|].
      intros _. eexists. split; [done|]. by eexists.
    - by rewrite lookup_insert_ne. }
  destruct (Hobj l s Hl) as (Hr & Hq & Hpick).
  split.
  - congruence.
  - intros l0 Hl0. rewrite Hh' in Hl0.
    apply lookup_insert_is_Some in Hl0 as [<-|[_ Hl0]];
      [assert (l < next_id w) by (apply Hb; by eexists)|specialize (Hb l0 Hl0)]; lia.
  - intros l0 s0. rewrite Hh'. destruct (decide (l = l0)) as [<-|Hne].
    + rewrite lookup_insert_eq. intros [= <-]. simpl. split; [done|]. split; [done|].
      intros p0 [= <-]. split; [congruence|]. by split.
    + rewrite lookup_insert_ne by done. intros Hl0.
      destruct (Hobj l0 s0 Hl0) as (? & ? & Hp0). split; [done|]. split; [done|].
      intros p0 Hpp0. destruct Hne. apply Hhold; [done|]. exists s0. by rewrite Hpp0.
  - intros l1 l2 H1%Hhp H2%Hhp. eauto.
  - intros Hno. by destruct (Hno l); apply Hhp.
  - rewrite Hs'. destruct (state w); try done.
    + destruct Hst as [Hno _]. by destruct (Hno l).
    + by apply Hhp.
Qed.

(** The pickup of the object that holds one is ended, and the machine
    goes back to the Initial state. *)
Lemma sound_ended w w' l s q p :
  sound w → heap w !! l = Some s → pickup s = Some p → queue s = Some q →
  heap w' = <[l:=with_pickup None s]> (heap w) →
  alive w' = alive w ∖ {[pickup_id p]} → next_id w' = next_id w →
  locked w' = false → state w' = Initial (reporter s) (Some q) →
  sound w'.
Proof.
  intros [Hlk Hb Hobj Hhold Hidle Hst] Hl Hp Hq Hh' Ha' Hn' Hlk' Hs'.
  assert (Hl' : holds_pickup w l) by (exists s; by rewrite Hp).
  assert (Hno : ∀ l0, ¬ holds_pickup w' l0).
  { intros l0 (s0 & Hs0 & [p0 Hp0]). rewrite Hh' in Hs0.
    destruct (decide (l = l0)) as [<-|Hne].
    - rewrite lookup_insert_eq in Hs0. by injection Hs0 as <-.
    - rewrite lookup_insert_ne in Hs0 by done. destruct Hne.
      apply Hhold; [done|]. exists s0. by rewrite Hp0. }
  destruct (Hobj l s Hl) as (Hr & _ & Hpick).
  destruct (Hpick p Hp) as (_ & _ & Ha).
  split.
  - done.
  - intros l0 Hl0. rewrite Hh' in Hl0. rewrite Hn'.
    apply lookup_insert_is_Some in Hl0 as [<-|[_ Hl0]]; apply Hb; [by eexists|done].
  - intros l0 s0. rewrite Hh'. destruct (decide (l = l0)) as [<-|Hne].
    + rewrite lookup_insert_eq. intros [= <-]. simpl. split; [done|].
      split; [by rewrite Hq|]. done.
    + rewrite lookup_insert_ne by done. intros Hl0.
      destruct (Hobj l0 s0 Hl0) as (? & ? & Hp0). split; [done|]. split; [done|].
      intros p0 Hpp0. destruct (Hno l0). exists s0.
      rewrite Hh', lookup_insert_ne by done. by rewrite Hpp0.
  - intros l1 l2 H1. by destruct (Hno l1).
  - intros _. rewrite Ha'. by apply subseteq_empty_difference_L.
  - rewrite Hs'. split; [done|]. intros _. by eexists.
Qed.

Lemma sound_prepare w :
  sound w →
  ∃ w1, with_lock (s ← gets state; s' ← prepare_reporter s; modify (set_state s')) w
        = Return tt w1
        ∧ sound w1.
Proof.
  intros Hs. pose proof (snd_unlocked _ Hs) as Hlk.
  destruct (state w) as [r q| | |] eqn:Hst.
  - destruct (prepare_Initial w r q Hst Hlk) as (w' & s & p & -> & Hst' & Hl' & Hpost).
    exists w'. split; [done|]. by eapply sound_Started_init.
  - exists w. split; [|done]. apply prepare_other; [|done]. by rewrite Hst.
  - exists w. split; [|done]. apply prepare_other; [|done]. by rewrite Hst.
  - exists w. split; [|done]. apply prepare_other; [|done]. by rewrite Hst.
Qed.

Lemma sound_find_reporter w w' :
  sound w → after (StateMachine.find_reporter w) = Some w' → sound w'.
Proof.
  intros Hs. destruct (sound_prepare w Hs) as (w1 & Hp & Hs1).
  unfold StateMachine.find_reporter. rewrite (bind_Return _ _ _ _ _ Hp).
  unfold mbind, M_bind, gets.
  pose proof (state_reporter_pure (state w1) w1) as Hpure.
  destruct (state_reporter (state w1) w1); try done. simpl. intros [= <-]. by subst.
Qed.

(** What is alive after a restart of the only task that could be. *)
Lemma alive_restarted (a a' : gset nat) (i j : nat) :
  a ⊆ {[i]} → a' ⊆ {[j]} ∪ (a ∖ {[i]}) → a' ⊆ {[j]}.
Proof.
  intros Ha Ha' x Hx. apply Ha' in Hx.
  apply elem_of_union in Hx as [Hx|Hx]; [done|].
  apply elem_of_difference in Hx as [Hx Hni]. by apply Ha in Hx.
Qed.

Lemma sound_flush w w' :
  sound w → after (StateMachine.flush w) = Some w' → sound w'.
Proof.
  intros Hs. pose proof (snd_unlocked _ Hs) as Hlk.
  destruct (state w) as [r q|l|r|] eqn:Hst.
  - destruct (flush_Initial w r q Hst Hlk) as (w1 & s & p & -> & Hst' & Hl' & Hpost).
    intros [= <-]. by eapply sound_Started_init.
  - destruct (sound_holder w l Hs Hst) as (s & q & p & Hh & Hq & Hp & Hpq & Hlt & Ha).
    destruct (flush_held w l s q p Hst Hlk Hh Hq Hp Hpq)
      as (w1 & -> & Hst1 & Hh1 & _ & Hn1 & Hl1 & Ha1).
    intros [= <-].
    apply (sound_restarted w w1 l s q p (fresh_pickup w l s)); try done.
    + simpl. lia.
    + lia.
    + by apply (alive_restarted (alive w) _ (pickup_id p)).
    + congruence.
    + congruence.
  - rewrite passive_flush by (by rewrite ?Hst). by intros [= <-].
  - rewrite passive_flush by (by rewrite ?Hst). by intros [= <-].
Qed.

Lemma Initial_shutdown w r q :
  state w = Initial r q → locked w = false → StateMachine.shutdown w = Return tt w.
Proof.
  intros Hst Hlk. destruct w as [n h sen al ev lk st]; simpl in *. by subst.
Qed.

Lemma sound_machine_shutdown w w' :
  sound w → after (StateMachine.shutdown w) = Some w' → sound w'.
Proof.
  intros Hs. pose proof (snd_unlocked _ Hs) as Hlk.
  destruct (state w) as [r q|l|r|] eqn:Hst.
  - rewrite (Initial_shutdown w r q) by done. by intros [= <-].
  - destruct (sound_holder w l Hs Hst) as (s & q & p & Hh & Hq & Hp & Hpq & Hlt & Ha).
    destruct (shutdown_held w l s q p Hst Hlk Hh Hq Hp Hpq)
      as (w1 & -> & Hst1 & Hh1 & _ & Hn1 & Hl1 & Ha1).
    intros [= <-]. by apply (sound_ended w w1 l s q p).
  - rewrite passive_shutdown by (by rewrite ?Hst). by intros [= <-].
  - rewrite passive_shutdown by (by rewrite ?Hst). by intros [= <-].
Qed.

Lemma sound_detach l w w' :
  sound w → after (detach l w) = Some w' → sound w'.
Proof.
  intros Hs. destruct (heap w !! l) as [s|] eqn:Hl.
  - rewrite (detach_spec w l s Hl). intros [= <-]. by eapply sound_flags.
  - unfold detach, set_to_restart_pickup. unfold_M. by rewrite Hl.
Qed.

(** The release when the object has lost its pickup, as after a shutdown
    during the usage: the sentinel is put, and the join fails. *)
Lemma finally_no_pickup w l s q :
  heap w !! l = Some s → to_restart_pickup s = true →
  queue s = Some q → pickup s = None → locked w = false →
  ∃ w', fetch_reporter_finally l w = Raise AttributeError w'
        ∧ locked w' = false ∧ heap w' = heap (unmark l s w)
        ∧ alive w' = alive w ∧ state w' = state w ∧ next_id w' = next_id w
        ∧ events w' = events w ++ [EvPut q].
Proof.
  intros Hh Hr Hq Hp Hl. eexists. split.
  - unfold fetch_reporter_finally.
    erewrite bind_Return by by apply set_reporter_yielded_spec.
    unfold mbind at 1, M_bind at 1, read. simpl. rewrite lookup_insert_eq. simpl.
    rewrite Hr. simpl.
    erewrite bind_Raise; [reflexivity|].
    apply with_lock_Raise; [done|].
    unfold _restart_pickup. erewrite bind_Raise; [reflexivity|].
    unfold _end_pickup. unfold mbind at 1, M_bind at 1, read. simpl.
    rewrite lookup_insert_eq. simpl. rewrite Hq, Hp. reflexivity.
  - by split_and!.
Qed.

Lemma release_no_pickup main r w l s q :
  heap w !! l = Some s → to_restart_pickup s = true →
  queue s = Some q → pickup s = None → locked w = false →
  ∃ w', StateMachine.fetch_reporter main (outermost_gen l) r w
        = (StateMachine.GFinished, Raise AttributeError w')
        ∧ locked w' = false ∧ heap w' = heap (unmark l s w)
        ∧ alive w' = alive w ∧ state w' = state w ∧ next_id w' = next_id w
        ∧ events w' = events w ++ [EvPut q].
Proof.
  intros Hh Hr Hq Hp Hl.
  destruct (finally_no_pickup w l s q) as (w' & Hfin & Hpost); try done.
  exists w'. split; [|done].
  unfold outermost_gen, StateMachine.fetch_reporter, StateMachine.yield_from,
    gen_close, gen_resume. simpl.
  unfold mbind, M_bind, try_finally.
  destruct r; simpl; rewrite Hfin; done.
Qed.

Lemma sound_release main r w l g' out w' :
  sound w →
  StateMachine.fetch_reporter main (outermost_gen l) r w = (g', out) →
  after out = Some w' → sound w'.
Proof.
  intros Hs Hf Ha. pose proof (snd_unlocked _ Hs) as Hlk.
  destruct (heap w !! l) as [s|] eqn:Hl.
  2:{ pose proof (yield_from_inv main {| gen_self := StartedRef l; gen_pc := AtYieldTry |}
                    r w g' out w' Hf Ha) as Hi.
      pose proof (release_quiet main l r w) as Hq.
      cbn [gen_self gen_pc fetch_reporter] in Hi.
      destruct (Started_fetch_reporter main l AtYieldTry r w) as [[]| | |]; try done.
      - by destruct Hq as [[=] _].
      - destruct Hq as [_ (? & ? & _)]. congruence.
      - destruct Hq as (? & ? & _). congruence. }
  assert (Hs0 : sound (unmark l s w)) by by eapply sound_flags.
  destruct (snd_objects _ Hs l s Hl) as (_ & [q Hq] & Hpick).
  destruct (to_restart_pickup s) eqn:Hr.
  - destruct (pickup s) as [p|] eqn:Hp.
    + destruct (Hpick p eq_refl) as (Hpq & _ & Halive).
      destruct (release_held main r w l s q p)
        as (w1 & Hrel & Hh1 & _ & Hn1 & Hst1 & Hl1 & Ha1); try done; [congruence|].
      rewrite Hrel in Hf. injection Hf as <- <-. injection Ha as <-.
      apply (sound_restarted (unmark l s w) w1 l (unmarked s) q p (fresh_pickup w l s));
        simpl; try done.
      * apply lookup_insert_eq.
      * by rewrite Hh1, insert_insert_eq.
      * lia.
      * lia.
      * by apply (alive_restarted (alive w) _ (pickup_id p)).
      * congruence.
    + destruct (release_no_pickup main r w l s q) as (w1 & Hrel & ? & ? & ? & ? & ? & _);
        try done.
      rewrite Hrel in Hf. injection Hf as <- <-. injection Ha as <-.
      eapply sound_ext; [| | | | |exact Hs0]; simpl; try done; try lia. congruence.
  - rewrite (release_detached main r w l s Hl Hr) in Hf.
    injection Hf as <- <-. by injection Ha as <-.
Qed.

(** What a generator that is not in an outermost usage does to the world
    when it is resumed: the locked step of the first [next], if it is that,
    and then at most the marking of an object. *)
Lemma fetch_reporter_effect main g r w g' out w' :
  (∀ l, g ≠ outermost_gen l) →
  StateMachine.fetch_reporter main g r w = (g', out) → after out = Some w' →
  ∃ w1,
    (w1 = w
     ∨ with_lock (s ← gets state; s' ← prepare_reporter s; modify (set_state s')) w
       = Return tt w1)
    ∧ (w' = w1
       ∨ ∃ l s, heap w1 !! l = Some s ∧ w' = set_heap (<[l:=marked s]> (heap w1)) w1).
Proof.
  intros Hno. destruct g as [|[st at_]|]; simpl.
  - destruct r; simpl.
    2,3: intros [= <- <-] [= <-]; exists w; by split; left.
    pose proof (prepare_no_pickup_ended w) as Hnr.
    destruct (with_lock _ w) as [[] w1|e w1| |] eqn:Hp; try done;
      try (by intros [= <- <-] [=]).
    intros Hy Ha.
    pose proof (yield_from_inv main {| gen_self := state w1; gen_pc := Fresh |}
                  RNext w1 g' out w' Hy Ha) as Hi.
    simpl in Hi.
    pose proof (call_kinds main (state w1) w1) as Hc.
    destruct (fetch_reporter main (state w1) Fresh RNext w1) as [[at_ v|]| | |];
      try done.
    destruct Hi as [[_ []]|[-> _]]; [done|].
    exists w1. split; [by right|].
    destruct Hc as [[_ ->]|(l & s & _ & _ & Hh & _ & ->)]; [by left|].
    right. by exists l, s.
  - intros Hy Ha.
    pose proof (yield_from_inv main {| gen_self := st; gen_pc := at_ |}
                  r w g' out w' Hy Ha) as Hi.
    simpl in Hi. exists w. split; [by left|].
    destruct (decide (at_ = Fresh ∧ r = RNext)) as [[-> ->]|Hfr].
    { pose proof (call_kinds main st w) as Hc.
      destruct (fetch_reporter main st Fresh RNext w) as [[at_ v|]| | |]; try done.
      destruct Hi as [[_ []]|[-> _]]; [done|].
      destruct Hc as [[_ ->]|(l & s & _ & _ & Hh & _ & ->)]; [by left|].
      right. by exists l, s. }
    assert (H1 : at_ = Fresh → r ≠ RNext) by (intros -> ->; by apply Hfr).
    assert (H2 : ∀ l, st = StartedRef l → at_ ≠ AtYieldTry).
    { intros l -> ->. by apply (Hno l). }
    pose proof (resume_kinds main st at_ r w H1 H2) as Hq.
    left.
    destruct (fetch_reporter main st at_ r w) as [[]|e w1| |]; try done.
    + by destruct Hq as [[=] _].
    + destruct Hi as [-> _]. by destruct Hq as [_ ->].
    + destruct Hi as [-> _]. by subst.
  - destruct r; intros [= <- <-] [= <-]; exists w; by split; left.
Qed.

Lemma sound_resumption main g r w g' out w' :
  sound w →
  StateMachine.fetch_reporter main g r w = (g', out) → after out = Some w' →
  sound w'.
Proof.
  intros Hs Hf Ha.
  assert ((∃ l, g = outermost_gen l) ∨ ∀ l, g ≠ outermost_gen l) as [[l ->]|Hno].
  { destruct g as [|[[| l | |] []]|]; try (by right). left. by exists l. }
  { by eapply sound_release. }
  destruct (fetch_reporter_effect main g r w g' out w' Hno Hf Ha)
    as (w1 & Hw1 & Hw').
  assert (Hs1 : sound w1).
  { destruct Hw1 as [->|Hp]; [done|].
    destruct (sound_prepare w Hs) as (w2 & Hp2 & Hs2). congruence. }
  destruct Hw' as [->|(l & s & Hl & ->)]; [done|]. by eapply sound_flags.
Qed.

Lemma sound_step o c c' :
  sound (world c) → step o c = Some c' → sound (world c').
Proof.
  intros Hs Hstep.
  destruct (op_resumption o) as [[[main j] r]|] eqn:Hop.
  - destruct (step_resumption_cases o main j r c c' Hop Hstep)
      as [[_ ->]|(g & g' & out & Hg & Hf & Ha & Hgs)]; [done|].
    by eapply sound_resumption.
  - destruct o; try done; simpl in Hstep.
    + apply call_inv in Hstep as [Ha _]. by eapply sound_find_reporter.
    + apply call_inv in Hstep as [[= <-] _]. by apply sound_set_state.
    + apply call_inv in Hstep as [Ha _]. by eapply sound_flush.
    + apply call_inv in Hstep as [[= <-] _]. by apply sound_set_state.
    + apply call_inv in Hstep as [Ha _]. by eapply sound_machine_shutdown.
    + by injection Hstep as <-.
    + apply call_inv in Hstep as [Ha _]. by eapply sound_detach.
Qed.

Lemma sound_steps os c c' :
  sound (world c) → steps os c = Some c' → sound (world c').
Proof.
  revert c. induction os as [|o os IH]; intros c Hc; simpl.
  - by intros [= <-].
  - destruct (step o c) as [c1|] eqn:Hstep; simpl; [|done].
    apply IH. by eapply sound_step.
Qed.

(** ** The tasks alive in a run *)

(** Whether some object of the heap holds a pickup can be told. *)
Lemma holder_dec w : (∃ l, holds_pickup w l) ∨ ∀ l, ¬ holds_pickup w l.
Proof.
  assert (H : ∀ (m : gmap nat Started),
            (∃ l s, m !! l = Some s ∧ is_Some (pickup s))
            ∨ ∀ l s, m !! l = Some s → pickup s = None).
  { intros m. induction m as [|l s m Hl IH] using map_ind.
    - right. intros l s. by rewrite lookup_empty.
    - destruct IH as [(l' & s' & Hl' & Hp')|IH].
      + left. exists l', s'. split; [|done].
        rewrite lookup_insert_ne; [done|]. intros <-. congruence.
      + destruct (pickup s) as [p|] eqn:Hp.
        * left. exists l, s. rewrite lookup_insert_eq. split; [done|].
          by rewrite Hp.
        * right. intros l' s'. destruct (decide (l = l')) as [<-|Hne].
          -- rewrite lookup_insert_eq. by intros [= <-].
          -- rewrite lookup_insert_ne by done. apply IH. }
  destruct (H (heap w)) as [(l & s & Hl & Hp)|Hno].
  - left. exists l, s. done.
  - right. intros l (s & Hl & [p Hp]). rewrite (Hno l s Hl) in Hp. done.
Qed.

(** No task is alive, or the one task alive is the pickup held by the
    only object that holds one. *)
Lemma sound_alive w :
  sound w →
  alive w = ∅
  ∨ ∃ l s p, heap w !! l = Some s ∧ pickup s = Some p
             ∧ alive w = {[pickup_id p]}
             ∧ ∀ l', holds_pickup w l' → l' = l.
Proof.
  intros Hs.
  destruct (holder_dec w) as [(l & s & Hl & [p Hp])|Hno].
  - destruct (snd_objects _ Hs l s Hl) as (_ & _ & Hobj).
    destruct (Hobj p Hp) as (_ & _ & Ha).
    destruct (decide (pickup_id p ∈ alive w)) as [Hin|Hnin].
    + right. exists l, s, p. split; [done|]. split; [done|]. split.
      * apply (anti_symm (⊆)); [done|]. by apply singleton_subseteq_l.
      * intros l' Hl'. apply (snd_holder _ Hs); [done|].
        exists s. split; [done|]. by rewrite Hp.
    + left. apply elem_of_equiv_empty_L. intros x Hx.
      apply Hnin. pose proof (Ha x Hx) as Hx'.
      apply elem_of_singleton in Hx'. by subst.
  - left. by apply (snd_idle _ Hs).
Qed.

(** [flush()] ends in every world of a run. *)
Lemma sound_flush_returns w : sound w → ∃ w', StateMachine.flush w = Return tt w'.
Proof.
  intros Hs. pose proof (snd_unlocked _ Hs) as Hlk.
  destruct (state w) as [r q|l|r|] eqn:Hst.
  - destruct (flush_Initial w r q Hst Hlk) as (w' & s & p & Hf & _). by eexists.
  - destruct (sound_holder w l Hs Hst) as (s & q & p & Hh & Hq & Hp & Hpq & _).
    destruct (flush_held w l s q p Hst Hlk Hh Hq Hp Hpq) as (w' & Hf & _).
    by eexists.
  - eexists. apply passive_flush; [by rewrite Hst|done].
  - eexists. apply passive_flush; [by rewrite Hst|done].
Qed.

(** ** The first steps of a new process *)

Lemma started_world_running :
  running started_world 0 started_object 1 started_pickup_object.
Proof. split; vm_compute; (reflexivity || lia). Qed.

(** The world in which the first generator of a new process is suspended in
    its outermost usage. *)
Lemma in_use_world_running :
  running in_use_world 0 (marked started_object) 1 started_pickup_object.
Proof. split; vm_compute; (reflexivity || lia). Qed.

(** ** Claim C1: one restart per outermost call *)

(** C1. In the Started state with the pickup running and no reporter
    handed out, every sequence of [fetch_reporter] calls and releases made
    on the main thread runs to its end, and the machine follows the nesting
    protocol: the call that finds [reporter_yielded] false is the outermost
    one, sets the mark and, on its release, restarts the pickup; a call that
    finds the mark set yields the reporter and leaves the world as it is,
    and so does its release. The trace of the run is that of exactly as
    many restarts as outermost usages were released. *)
Theorem nested_fetch_reporter (os : list op) (w : World) (l : oid) (s : Started)
    (q : oid) (p : ProgressReportPickup) :
  running w l s q p → reporter_yielded s = false →
  forallb main_fetch os = true →
  (∃ c' s' p' evs,
     steps os {| world := w; gens := [] |} = Some c'
     ∧ running (world c') l s' q p'
     ∧ events (world c') = events w ++ evs
     ∧ restarts_trace q p evs (Nesting.restarts (Nesting.run os Nesting.empty)) p'
     ∧ reporter_yielded s' = Nesting.reporterInUse (Nesting.run os Nesting.empty)
     ∧ Forall2 (tracks l) (gens c') (Nesting.usages (Nesting.run os Nesting.empty)))
  ∧ (∀ w1 s1, state w1 = StartedRef l → locked w1 = false → heap w1 !! l = Some s1 →
       if reporter_yielded s1
       then StateMachine.next true StateMachine.GFresh w1
            = (plain_gen (StartedRef l), Return (reporter s1) w1)
            ∧ ∀ r, ∃ e, StateMachine.fetch_reporter true (plain_gen (StartedRef l)) r w1
                        = (StateMachine.GFinished, Raise e w1)
       else StateMachine.next true StateMachine.GFresh w1
            = (outermost_gen l,
               Return (reporter s1) (set_heap (<[l:=marked s1]> (heap w1)) w1))).
Proof.
  intros Hrun Hmark Hos. split.
  - destruct (simulates_steps os w l q p {| world := w; gens := [] |} Nesting.empty Hos)
      as (c' & Hsteps & [(s' & p' & evs & ? & ? & ? & ? & ?) ?]).
    { split; simpl.
      - exists s, p, []. split_and!; try done.
        + by intros ?%elem_of_nil.
        + by rewrite app_nil_r.
      - constructor. }
    by exists c', s', p', evs.
  - intros w1 s1 Hst Hl Hh.
    rewrite (next_Fresh_Started true l s1 w1 Hst Hl Hh).
    destruct (reporter_yielded s1); simpl; [|done].
    split; [done|]. intros r. apply release_plain.
Qed.

Lemma nested_fetch_reporter_witness :
  ∃ c' p' evs,
    steps nested_loops {| world := started_world; gens := [] |} = Some c'
    ∧ events (world c') = events started_world ++ evs
    ∧ restarts_trace 1 started_pickup_object evs 1 p'.
Proof.
  destruct (nested_fetch_reporter nested_loops started_world 0 started_object 1
              started_pickup_object started_world_running eq_refl eq_refl)
    as [(c' & s' & p' & evs & H1 & _ & H2 & H3 & _) _].
  exists c', p', evs. exact (conj H1 (conj H2 H3)).
Defined.

(** ** Claim C2: no restart after a detach *)

(** C2. In any run of a process, once a generator is suspended in an
    outermost main-thread usage of a [Started] object, a call of the
    object's [detach] at any point before the release - whatever else the
    program does in between with the machine and with the other generators -
    makes the release, in whichever way it comes, reset [reporter_yielded]
    and return without a restart: no sentinel is put, no task is joined or
    started, and [to_restart_pickup] is still cleared afterwards. *)
Theorem detach_suppresses_restart (os0 os1 os2 : list op) (c1 c2 : config)
    (i : nat) (l : oid) (o : op) (main : bool) (r : resumption) :
  steps os0 start = Some c1 → outermost_at c1 i l →
  forallb (λ o, negb (resumes o i)) (os1 ++ os2) = true →
  steps (os1 ++ Detach l :: os2) c1 = Some c2 →
  op_resumption o = Some (main, i, r) →
  ∃ c3 s3,
    step o c2 = Some c3
    ∧ events (world c3) = events (world c2)
    ∧ alive (world c3) = alive (world c2)
    ∧ sentinels (world c3) = sentinels (world c2)
    ∧ heap (world c3) !! l = Some s3
    ∧ reporter_yielded s3 = false ∧ to_restart_pickup s3 = false
    ∧ gens c3 !! i = Some StateMachine.GFinished.
Proof.
  intros H0 Hi Hos Hsteps Hop.
  pose proof (consistent_steps _ _ _ consistent_start H0) as Hc1.
  rewrite forallb_app in Hos. apply andb_prop in Hos as [Hos1 Hos2].
  rewrite steps_app in Hsteps.
  destruct (steps os1 c1) as [ca|] eqn:Ha; [|discriminate Hsteps].
  change (step (Detach l) ca ≫= steps os2 = Some c2) in Hsteps.
  destruct (step (Detach l) ca) as [cb|] eqn:Hb; [|discriminate Hsteps].
  change (steps os2 cb = Some c2) in Hsteps.
  destruct (Hc1.(cons_marked _) i l Hi) as (s1 & Hs1 & _).
  destruct (held_steps os1 c1 ca i l false Hc1 Hi Hos1) as (Hca & Hia & _); try done.
  { by exists s1. }
  pose proof (step_kinds _ _ _ Hb) as Hkb.
  pose proof (consistent_step_kind _ _ _ Hca Hkb) as Hcb.
  destruct (Hca.(cons_marked _) i l Hia) as (sa & Hsa & _).
  destruct (held_step_kind _ _ _ i l false Hca Hkb Hia eq_refl) as [Hib _].
  { by exists sa. }
  pose proof (detach_step _ _ _ Hb) as Hdb.
  destruct (held_steps os2 cb c2 i l true Hcb Hib Hos2 Hdb Hsteps)
    as (Hc2 & Hi2 & (s2 & Hs2 & Hd2)).
  pose proof (release_detached main r (world c2) l s2 Hs2 (Hd2 eq_refl)) as Hrel.
  eexists _, (unmarked s2). split.
  { eapply step_resumption; try done. intros _. by eexists. }
  simpl. split_and!; try done.
  - apply lookup_insert_eq.
  - by apply Hd2.
  - apply list_lookup_insert_eq. by eapply lookup_lt_Some.
Qed.

Lemma detach_suppresses_restart_witness :
  ∃ c3 s3,
    step (Next true 0) detached_config = Some c3
    ∧ events (world c3) = events (world detached_config)
    ∧ alive (world c3) = alive (world detached_config)
    ∧ sentinels (world c3) = sentinels (world detached_config)
    ∧ heap (world c3) !! 0 = Some s3
    ∧ reporter_yielded s3 = false ∧ to_restart_pickup s3 = false
    ∧ gens c3 !! 0 = Some StateMachine.GFinished.
Proof.
  apply (detach_suppresses_restart loop_entered
           [FetchReporter; Next true 1] [Next false 1; FindReporter]
           entered_config detached_config 0 0 (Next true 0) true RNext);
    vm_compute; reflexivity.
Defined.

(** ** Claim C3: shutdown, then a new start *)

(** C3. From the Started state, [shutdown()] ends the pickup task and moves
    to [Initial], carrying the reporter and the queue forward; a following
    [find_reporter()], or the first [next] of a following [fetch_reporter()],
    moves back to Started, starts exactly one new pickup task, which is then
    the one task alive, and returns the very reporter held before the
    shutdown, on the same queue: no reporter and no queue is built. *)
Theorem shutdown_then_start (w : World) (l : oid) (s : Started) (q : oid)
    (p : ProgressReportPickup) (rep : ProgressReporter) :
  running w l s q p → reporter s = Some rep →
  ∃ w1,
    StateMachine.shutdown w = Return tt w1
    ∧ state w1 = Initial (Some rep) (Some q)
    ∧ alive w1 = ∅
    ∧ events w1 = events w ++ [EvPut q; EvJoin p]
    ∧ (∃ w2, StateMachine.find_reporter w1 = Return (Some rep) w2
             ∧ started_again w w1 w2 q rep p)
    ∧ (∀ main, ∃ g w2, StateMachine.next main StateMachine.GFresh w1
                       = (g, Return (Some rep) w2)
                       ∧ started_again w w1 w2 q rep p).
Proof.
  intros Hrun Hrep.
  pose proof (shutdown_running w l s q p Hrun) as Hsd.
  destruct Hrun as [Hst Hh Hq Hp Hpq Ha H0 Hf Hlk].
  set (w1 := set_state (Initial (reporter s) (Some q)) (ended_pickup w l s q p)) in *.
  assert (Hst1 : state w1 = Initial (Some rep) (Some q)) by (by rewrite <- Hrep).
  assert (Hl1 : locked w1 = false) by done.
  assert (Ha1 : alive w1 = ∅).
  { simpl. rewrite Ha. apply difference_diag_L. }
  assert (Hn1 : next_id w1 = next_id w) by done.
  assert (H01 : pending w1 q = 0).
  { unfold pending. simpl. by rewrite lookup_insert_eq. }
  assert (Hq01 : ∀ qu, Some q = Some qu → pending w1 qu = 0) by by intros ? [= <-].
  exists w1. split; [done|]. split; [done|]. split; [done|].
  split; [by simpl; rewrite <- app_assoc|]. split.
  - destruct (find_reporter_Initial w1 _ _ Hst1 Hl1) as (w2 & s' & p' & Hf2 & Hst2 & Hl2 & Hpost).
    pose proof (Started_init_post_running _ _ _ _ _ _ _ Hpost Ha1 H01 Hst2 eq_refl Hl2) as Hrun2.
    destruct (init_reporter_kept _ _ _ _ _ _ Hpost rep eq_refl) as [Hr2 _].
    exists w2. rewrite Hr2 in Hf2. split; [done|]. split.
    + exists s', p'. rewrite <- Hn1. split; [done|]. split; [done|].
      split; [apply Hpost|]. destruct (init_fresh _ _ _ _ _ _ Hpost). lia.
    + rewrite (init_next_id _ _ _ _ _ _ Hpost) by (by eexists). by rewrite Hn1.
    + apply (init_sentinels _ _ _ _ _ _ Hpost); [by intros [=]|done].
  - intros main.
    destruct (next_Fresh_Initial main _ _ w1 Hst1 Hl1) as (w2 & s' & p' & Hpost & Hst2 & Hl2 & Hnx).
    pose proof (Started_init_post_running _ _ _ _ _ _ _ Hpost Ha1 H01 Hst2 eq_refl Hl2) as Hrun2.
    destruct (init_reporter_kept _ _ _ _ _ _ Hpost rep eq_refl) as [Hr2 _].
    rewrite Hr2 in Hnx. rewrite Hnx. destruct main.
    + eexists _, _. split; [reflexivity|]. split.
      * exists (marked s'), p'. rewrite <- Hn1. split; [by apply running_marked|].
        split; [done|]. split; [apply Hpost|].
        destruct (init_fresh _ _ _ _ _ _ Hpost). lia.
      * simpl. rewrite (init_next_id _ _ _ _ _ _ Hpost) by (by eexists).
        by rewrite Hn1.
      * simpl. apply (init_sentinels _ _ _ _ _ _ Hpost); [by intros [=]|done].
    + eexists _, _. split; [reflexivity|]. split.
      * exists s', p'. rewrite <- Hn1. split; [done|]. split; [done|].
        split; [apply Hpost|]. destruct (init_fresh _ _ _ _ _ _ Hpost). lia.
      * rewrite (init_next_id _ _ _ _ _ _ Hpost) by (by eexists). by rewrite Hn1.
      * apply (init_sentinels _ _ _ _ _ _ Hpost); [by intros [=]|done].
Qed.

Lemma shutdown_then_start_witness :
  ∃ w1 w2,
    StateMachine.shutdown started_world = Return tt w1
    ∧ StateMachine.find_reporter w1 = Return (Some started_reporter) w2
    ∧ started_again started_world w1 w2 1 started_reporter started_pickup_object.
Proof.
  destruct (shutdown_then_start started_world 0 started_object 1
              started_pickup_object started_reporter
              started_world_running eq_refl)
    as (w1 & H1 & _ & _ & _ & (w2 & H2 & H3) & _).
  exists w1, w2. exact (conj H1 (conj H2 H3)).
Defined.

(** ** Claim C4: the release runs once on every way out *)

(** C4. In the Started state with the pickup running, the generator of an
    outermost main-thread usage, resumed by the consumer in any of the three
    ways - [next] at normal completion, [close] when the sequence is
    abandoned, [throw] when an exception goes through the loop body - runs
    the release step: [reporter_yielded] is reset and the pickup is
    restarted, once, unless [to_restart_pickup] was cleared, in which case
    the trace is left as it is. The generator is finished afterwards, so
    that no later resumption touches the world: the release runs exactly
    once. *)
Theorem release_on_every_exit (w : World) (l : oid) (s : Started) (q : oid)
    (p : ProgressReportPickup) (main : bool) (r : resumption) :
  running w l s q p →
  ∃ w',
    StateMachine.fetch_reporter main (outermost_gen l) r w
    = (StateMachine.GFinished, Raise (released_exn (to_restart_pickup s) r) w')
    ∧ released w w' l s q p
    ∧ (∃ s', heap w' !! l = Some s' ∧ reporter_yielded s' = false)
    ∧ (if to_restart_pickup s
       then ∃ p', events w' = events w ++ [EvPut q; EvJoin p; EvStart p']
                  ∧ pickup_queue p' = Some q ∧ alive w' = {[pickup_id p']}
       else events w' = events w ∧ alive w' = alive w)
    ∧ (r = RClose →
       StateMachine.close main (outermost_gen l) w = (StateMachine.GFinished, Return tt w'))
    ∧ (∀ main' r', ∃ e, StateMachine.fetch_reporter main' StateMachine.GFinished r' w'
                        = (StateMachine.GFinished, Raise e w')).
Proof.
  intros [Hst Hh Hq Hp Hpq Ha H0 Hf Hlk].
  destruct (release_outermost main r w l s q p) as (w' & Hrel & Hpost); try done.
  exists w'. split; [done|]. split; [done|]. split.
  { destruct (released_unmarked _ _ _ _ _ _ Hpost) as (s' & ? & ? & _). by exists s'. }
  split; [by apply (released_events _ _ l)|]. split.
  - intros ->. unfold StateMachine.close. by rewrite Hrel.
  - intros main' r'. apply resume_Finished.
Qed.

Lemma release_on_every_exit_witness :
  let exits r := ∃ w' p',
    StateMachine.fetch_reporter true (outermost_gen 0) r in_use_world
    = (StateMachine.GFinished, Raise (released_exn true r) w')
    ∧ events w' = events in_use_world
                  ++ [EvPut 1; EvJoin started_pickup_object; EvStart p'] in
  exits RNext ∧ exits RClose ∧ exits (RThrow 0).
Proof.
  assert (∀ r, ∃ w' p',
    StateMachine.fetch_reporter true (outermost_gen 0) r in_use_world
    = (StateMachine.GFinished, Raise (released_exn true r) w')
    ∧ events w' = events in_use_world
                  ++ [EvPut 1; EvJoin started_pickup_object; EvStart p']) as H.
  { intros r.
    destruct (release_on_every_exit in_use_world 0 (marked started_object) 1
                started_pickup_object true r in_use_world_running)
      as (w' & H1 & _ & _ & (p' & H2 & _) & _).
    exists w', p'. exact (conj H1 H2). }
  exact (conj (H RNext) (conj (H RClose) (H (RThrow 0)))).
Defined.

(** ** Claim C5: flush *)




(** ** Claim C6: the defaults of the base class in the Disabled state *)

(** C6, as stated, fails: [shutdown()] does not move a Disabled machine
    onward; the state after the call is the state before it. *)
Lemma Disabled_shutdown_stays :
  ¬ ∃ w', StateMachine.shutdown disabled_world = Return tt w'
          ∧ state w' ≠ state disabled_world.
Proof. intros (w' & H & Hne). injection H as <-. by apply Hne. Qed.

(** C6, amended. From the Disabled state, [register_reporter(r)] produces
    [Registered(r)] by the default of the base class, while [shutdown()],
    whose default returns [self], leaves the machine Disabled and the world
    as it is. *)
Theorem Disabled_defaults (w : World) :
  state w = Disabled → locked w = false →
  (∀ r, StateMachine.register_reporter r w = Return tt (set_state (Registered r) w))
  ∧ StateMachine.shutdown w = Return tt w
  ∧ (∀ r w0, register_reporter Disabled r w0 = Return (Registered r) w0)
  ∧ (∀ w0, shutdown Disabled w0 = Return Disabled w0).
Proof.
  intros Hst Hl. split; [|split; [|split]]; try done.
  apply passive_shutdown; [by rewrite Hst|done].
Qed.

Lemma Disabled_defaults_witness :
  (∀ r, StateMachine.register_reporter r disabled_world
        = Return tt (set_state (Registered r) disabled_world))
  ∧ StateMachine.shutdown disabled_world = Return tt disabled_world.
Proof.
  destruct (Disabled_defaults disabled_world eq_refl eq_refl) as (H1 & H2 & _).
  exact (conj H1 H2).
Defined.

(** ** Claim C7: the first [find_reporter] *)




(** ** Claim C8: the Registered state manages no pickup *)

Lemma config_eta (c : config) : {| world := world c; gens := gens c |} = c.
Proof. by destruct c. Qed.

Lemma call_Return {A} (m : M A) c a :
  m (world c) = Return a (world c) → call m c = Some c.
Proof. intros H. unfold call. rewrite H. simpl. by rewrite config_eta. Qed.

Lemma passive_step o c :
  passive (state (world c)) → locked (world c) = false →
  Forall (passive_frame (state (world c))) (gens c) → keeps_state o = true →
  ∃ gs, step o c = Some {| world := world c; gens := gs |}
        ∧ Forall (passive_frame (state (world c))) gs.
Proof.
  intros Hp Hl Hgs Ho.
  destruct (op_resumption o) as [[[main i] r]|] eqn:Hop.
  - destruct (gens c !! i) as [g|] eqn:Hg.
    2:{ exists (gens c). split; [|done]. rewrite config_eta.
        by eapply step_no_generator. }
    pose proof (proj1 (Forall_lookup _ _) Hgs i g Hg) as [->|[->| ->]].
    + destruct (decide (r = RNext)) as [->|Hr].
      * pose proof (passive_next_Fresh main (world c) Hp Hl) as Hn.
        eexists. split; [by eapply step_resumption|].
        apply Forall_insert; [done|]. right; by left.
      * destruct (abandon_Fresh main r (world c) Hr) as [e He].
        eexists. split; [eapply step_resumption; eauto|].
        apply Forall_insert; [done|]. right; by right.
    + destruct (release_plain main r (world c) (state (world c))) as [e He].
      eexists. split; [eapply step_resumption; eauto|].
      apply Forall_insert; [done|]. right; by right.
    + destruct (resume_Finished main r (world c)) as [e He].
      eexists. split; [eapply step_resumption; eauto|].
      apply Forall_insert; [done|]. right; by right.
  - destruct o; try done; simpl.
    + exists (gens c). split; [|done]. rewrite config_eta.
      by eapply call_Return, passive_find_reporter.
    + exists (gens c). split; [|done]. rewrite config_eta.
      by eapply call_Return, passive_flush.
    + exists (gens c). split; [|done]. rewrite config_eta.
      by eapply call_Return, passive_shutdown.
    + eexists. split; [done|]. apply Forall_app. split; [done|].
      constructor; [by left|constructor].
Qed.

Lemma passive_steps os w gs :
  passive (state w) → locked w = false →
  Forall (passive_frame (state w)) gs → forallb keeps_state os = true →
  ∃ gs', steps os {| world := w; gens := gs |} = Some {| world := w; gens := gs' |}.
Proof.
  intros Hp Hl. revert gs. induction os as [|o os IH]; intros gs Hgs Hos; simpl.
  - by exists gs.
  - simpl in Hos. apply andb_prop in Hos as [Ho Hos].
    destruct (passive_step o {| world := w; gens := gs |} Hp Hl Hgs Ho)
      as (gs1 & Hstep & Hgs1).
    simpl in *. rewrite Hstep. simpl. by apply IH.
Qed.

(** C8. While the machine is in a Registered state, no sequence of calls of
    [find_reporter], [flush], [shutdown] and [fetch_reporter], with the
    generators resumed in any way and on any thread, changes the world at
    all: no pickup task is started, stopped or restarted, and the state
    stays as it is. The generator of the state is a pass-through: what it
    yields is the reporter the state holds, and the inherited
    [prepare_reporter], [flush] and [shutdown] return the state itself. *)
Theorem Registered_manages_no_pickup (os : list op) (w : World)
    (r : option ProgressReporter) :
  state w = Registered r → locked w = false →
  forallb keeps_state os = true →
  (∃ gs, steps os {| world := w; gens := [] |} = Some {| world := w; gens := gs |})
  ∧ (∀ main, StateMachine.next main StateMachine.GFresh w
             = (plain_gen (Registered r), Return r w))
  ∧ (∀ main at_ rs w0,
       match fetch_reporter main (Registered r) at_ rs w0 with
       | Return (Yields _ v) w' => v = r ∧ w' = w0
       | Return Done w' => w' = w0
       | Raise _ w' => w' = w0
       | Hangs => False
       | Undefined => False
       end)
  ∧ (∀ w0, prepare_reporter (Registered r) w0 = Return (Registered r) w0
           ∧ flush (Registered r) w0 = Return (Registered r) w0
           ∧ shutdown (Registered r) w0 = Return (Registered r) w0
           ∧ disable (Registered r) w0 = Return Disabled w0
           ∧ ∀ r', register_reporter (Registered r) r' w0 = Return (Registered r') w0).
Proof.
  intros Hst Hl Hos. split_and!.
  - apply passive_steps; try done; by rewrite Hst.
  - intros main. rewrite passive_next_Fresh; rewrite ?Hst; done.
  - intros main at_ rs w0.
    pose proof (passive_fetch_reporter main (Registered r) at_ rs w0 I) as H.
    destruct (fetch_reporter main (Registered r) at_ rs w0) as [[]| | |]; try done.
    by destruct H as (-> & -> & _).
  - done.
Qed.

Lemma Registered_manages_no_pickup_witness :
  ∃ gs, steps [FindReporter; Flush; FetchReporter; Next true 0; Shutdown; Close true 0]
          {| world := registered_world; gens := [] |}
        = Some {| world := registered_world; gens := gs |}.
Proof.
  destruct (Registered_manages_no_pickup
              [FindReporter; Flush; FetchReporter; Next true 0; Shutdown; Close true 0]
              registered_world (Some started_reporter) eq_refl eq_refl eq_refl)
    as [H _].
  exact H.
Defined.

(** ** Claim C9: the Disabled state yields no reporter *)

(** C9. In the Disabled state, [fetch_reporter] (the inherited default)
    yields [None]: the first [next] of the machine's generator yields [None]
    and the state stays [Disabled], any value the state's generator ever
    yields is [None], and [find_reporter] returns [None] leaving the machine
    [Disabled]. *)
Theorem Disabled_yields_None (w : World) (main : bool) :
  state w = Disabled → locked w = false →
  StateMachine.find_reporter w = Return None w
  ∧ StateMachine.next main StateMachine.GFresh w
    = (StateMachine.GYieldFrom {| gen_self := Disabled; gen_pc := AtYield |},
       Return None w)
  ∧ gen_resume main {| gen_self := Disabled; gen_pc := Fresh |} RNext w
    = ({| gen_self := Disabled; gen_pc := AtYield |}, Return None w)
  ∧ (∀ at_ r w0 p v w', fetch_reporter main Disabled at_ r w0 = Return (Yields p v) w' →
                        v = None ∧ w' = w0).
Proof.
  intros Hst Hl. split; [|split; [|split]].
  - rewrite passive_find_reporter; rewrite ?Hst; done.
  - rewrite passive_next_Fresh; rewrite ?Hst; done.
  - reflexivity.
  - intros at_ r w0 p v w' H.
    pose proof (passive_fetch_reporter main Disabled at_ r w0 I) as Hp.
    rewrite H in Hp. by destruct Hp as (-> & -> & _).
Qed.

Lemma Disabled_yields_None_witness :
  StateMachine.find_reporter disabled_world = Return None disabled_world
  ∧ StateMachine.next true StateMachine.GFresh disabled_world
    = (StateMachine.GYieldFrom {| gen_self := Disabled; gen_pc := AtYield |},
       Return None disabled_world).
Proof.
  destruct (Disabled_yields_None disabled_world true eq_refl eq_refl)
    as (H1 & H2 & _).
  exact (conj H1 H2).
Defined.

(** ** Claim C10: a state that is replaced leaves its pickup running *)

Lemma detach_pure_events l w w' :
  after (detach l w) = Some w' → events w' = events w ∧ alive w' = alive w.
Proof.
  unfold detach. unfold_prims. unfold_M. destruct (heap w !! l); [|done].
  by intros [= <-].
Qed.

(** Whether the operation resumes a generator suspended in an outermost
    usage can be told from the pool. *)
Lemma outermost_resumed_dec o c :
  (∃ i l, resumes o i = true ∧ outermost_at c i l)
  ∨ (∀ i main r, op_resumption o = Some (main, i, r) →
       ∀ g, gens c !! i = Some g → ∀ l, g ≠ outermost_gen l).
Proof.
  destruct (op_resumption o) as [[[main i] r]|] eqn:Hop; [|by right].
  assert (Hres : resumes o i = true).
  { destruct o; try done; injection Hop as _ -> _; simpl; by apply bool_decide_eq_true. }
  destruct (gens c !! i) as [g|] eqn:Hg.
  2:{ right. intros ??? [= _ <- _] g. by rewrite Hg. }
  assert ((∃ l, g = outermost_gen l) ∨ ∀ l, g ≠ outermost_gen l) as [[l ->]|Hno].
  { destruct g as [|[[| l | |] []]|]; try (by right).
    left. by exists l. }
  - left. by exists i, l.
  - right. intros ??? [= _ <- _] g'. rewrite Hg. by intros [= <-].
Qed.

Lemma step_no_pickup_ended o c c' :
  step o c = Some c' → o ≠ Flush → o ≠ Shutdown →
  (∀ i main r, op_resumption o = Some (main, i, r) →
     ∀ g, gens c !! i = Some g → ∀ l, g ≠ outermost_gen l) →
  no_pickup_ended (world c) (world c').
Proof.
  intros Hstep Hf Hs Hout. destruct o; try done; simpl in Hstep.
  - apply call_inv in Hstep as [H _]. by apply find_reporter_no_pickup_ended.
  - apply call_inv in Hstep as [[= <-] _]. by apply no_pickup_ended_same.
  - apply call_inv in Hstep as [[= <-] _]. by apply no_pickup_ended_same.
  - injection Hstep as <-. apply no_pickup_ended_refl.
  - apply resume_at_inv in Hstep as [[_ ->]|(g & Hg & Ha)];
      [apply no_pickup_ended_refl|].
    destruct (StateMachine.next main g (world c)) as [g' out] eqn:Hn.
    eapply machine_fetch_reporter_quiet; [|exact Hn|exact Ha].
    by eapply Hout.
  - apply resume_at_inv in Hstep as [[_ ->]|(g & Hg & Ha)];
      [apply no_pickup_ended_refl|].
    destruct (StateMachine.throw main g n (world c)) as [g' out] eqn:Hn.
    eapply machine_fetch_reporter_quiet; [|exact Hn|exact Ha].
    by eapply Hout.
  - apply resume_at_inv in Hstep as [[_ ->]|(g & Hg & Ha)];
      [apply no_pickup_ended_refl|].
    unfold StateMachine.close in Ha.
    destruct (after_closing (StateMachine.fetch_reporter main g RClose (world c)))
      as [_ Hc].
    rewrite Hc in Ha.
    destruct (StateMachine.fetch_reporter main g RClose (world c)) as [g' out] eqn:Hn.
    eapply machine_fetch_reporter_quiet; [|exact Hn|exact Ha].
    by eapply Hout.
  - apply call_inv in Hstep as [H _]. apply detach_pure_events in H as [??].
    by apply no_pickup_ended_same.
Qed.

(** C10, as stated, fails in its last clause: the release of an outermost
    [fetch_reporter] usage, which is neither [shutdown()] nor [flush()],
    puts the sentinel and joins the running pickup task before it starts a
    new one. *)
Lemma release_ends_pickup :
  ¬ (∀ o c', step o entered_config = Some c' →
             EvJoin started_pickup_object ∈ events (world c') →
             o = Flush ∨ o = Shutdown).
Proof.
  intros H.
  destruct (step (Next true 0) entered_config) as [c'|] eqn:Hstep; [|by vm_compute in Hstep].
  destruct (H (Next true 0) c' Hstep) as [[=]|[=]].
  vm_compute in Hstep. injection Hstep as <-. simpl.
  apply elem_of_cons; right. apply elem_of_cons; right. by apply elem_of_cons; left.
Qed.

(** C10, amended. [disable()] and [register_reporter(r)] called in the
    Started state replace the state by [Disabled] or [Registered(r)] and do
    nothing else: no sentinel is put, no task is joined, and the pickup task
    stays alive, held by the [Started] object that the machine no longer
    refers to. A pickup task is ended by [shutdown()], by [flush()] and by
    the release of an outermost main-thread [fetch_reporter] usage, which
    restarts it; no other operation puts a sentinel, joins a task or takes
    one off the tasks alive. *)
Theorem replaced_state_leaves_pickup :
  (∀ w l s q p r, running w l s q p →
     StateMachine.disable w = Return tt (set_state Disabled w)
     ∧ StateMachine.register_reporter r w = Return tt (set_state (Registered r) w)
     ∧ ∀ st, st = Disabled ∨ st = Registered r →
         events (set_state st w) = events w
         ∧ sentinels (set_state st w) = sentinels w
         ∧ alive (set_state st w) = {[pickup_id p]}
         ∧ heap (set_state st w) !! l = Some s ∧ pickup s = Some p
         ∧ state (set_state st w) ≠ StartedRef l)
  ∧ (∀ o c c', step o c = Some c' →
       no_pickup_ended (world c) (world c')
       ∨ o = Flush ∨ o = Shutdown
       ∨ ∃ i l, resumes o i = true ∧ outermost_at c i l).
Proof.
  split.
  - intros w l s q p r []. split; [done|]. split; [done|].
    intros st [-> | ->]; by split_and!.
  - intros o c c' Hstep.
    destruct (decide (o = Flush)) as [->|Hf]; [by right; left|].
    destruct (decide (o = Shutdown)) as [->|Hs]; [by right; right; left|].
    destruct (outermost_resumed_dec o c) as [H|H]; [by right; right; right|].
    left. by eapply step_no_pickup_ended.
Qed.

Lemma replaced_state_leaves_pickup_witness :
  StateMachine.disable started_world = Return tt (set_state Disabled started_world)
  ∧ events (set_state Disabled started_world) = events started_world
  ∧ alive (set_state Disabled started_world) = {[3]}.
Proof.
  destruct replaced_state_leaves_pickup as (H1 & _).
  destruct (H1 started_world 0 started_object 1 started_pickup_object None
              started_world_running) as (Hd & _ & H).
  destruct (H Disabled (or_introl eq_refl)) as (He & _ & Ha & _).
  exact (conj Hd (conj He Ha)).
Defined.

(** * Further properties of the code *)

(** ** Basic facts *)

Lemma set_locked_false_true w :
  locked w = false → set_locked false (set_locked true w) = w.
Proof. destruct w; simpl; by intros ->. Qed.

Lemma _end_pickup_no_queue w l s :
  heap w !! l = Some s → queue s = None → _end_pickup l w = Raise AttributeError w.
Proof. intros Hh Hq. unfold _end_pickup. unfold_M. rewrite Hh. simpl. by rewrite Hq. Qed.

(** The locked assignment [self.state = self.state.m()] when [m] raises:
    the assignment is not made and the lock is released. *)
Lemma locked_method_Raise (m : State → M State) w e w' :
  locked w = false → m (state w) (set_locked true w) = Raise e w' →
  with_lock (s ← gets state; s' ← m s; modify (set_state s')) w
  = Raise e (set_locked false w').
Proof.
  intros Hl Hm. apply with_lock_Raise; [done|].
  unfold mbind, M_bind, gets. simpl. by rewrite Hm.
Qed.

(** ** Composition of facts along the structure of a method *)

Lemma preserves_try_finally R (body : M unit) (fin : M completion) :
  (∀ w1 w2 w3, R w1 w2 → R w2 w3 → R w1 w3) →
  preserves R body → preserves R fin → preserves R (try_finally body fin).
Proof.
  intros Htrans Hb Hf w. unfold try_finally. specialize (Hb w).
  destruct (body w) as [[] w1|e w1| |]; try done.
  - specialize (Hf w1). destruct (fin w1); try done; by eapply Htrans.
  - specialize (Hf w1). destruct (fin w1) as [[] w2|e' w2| |]; try done;
      by eapply Htrans.
Qed.

Lemma preserves_new_id R : (∀ w, R w (set_next_id (S (next_id w)) w)) → preserves R new_id.
Proof. intros H w. apply H. Qed.

Lemma preserves_pickup_join R p :
  (∀ w, R w (emit (EvJoin p) w)) →
  (∀ w q n, pickup_queue p = Some q → pickup_id p ∈ alive w →
            R w (emit (EvJoin p)
                   (set_alive (alive w ∖ {[pickup_id p]})
                      (set_sentinels (<[q:=n]> (sentinels w)) w)))) →
  preserves R (pickup_join p).
Proof.
  intros H1 H2 w. unfold pickup_join.
  destruct (decide _); [|apply H1].
  destruct (pickup_queue p) eqn:Hq; [|done].
  destruct (pending w n); [done|]. by apply H2.
Qed.

Lemma preserves_resumed R r : (∀ w, R w w) → preserves R (resumed r).
Proof. intros H w. destruct r; apply H. Qed.

(** The structure of a method, followed down to the reads, the writes and
    the calls of the collaborators; [tac] settles what is left. *)
Ltac preserves_steps R Hrefl Htrans tac :=
  repeat first
    [ tac
    | apply (preserves_bind R Htrans); [|intros ?]
    | apply (preserves_ret R Hrefl)
    | apply (preserves_raise R Hrefl)
    | apply (preserves_gets R Hrefl)
    | apply (preserves_read R _ Hrefl)
    | apply (preserves_resumed R _ Hrefl)
    | apply (preserves_try_finally R _ _ Htrans)
    | apply preserves_new_id
    | apply preserves_pickup_join
    | apply preserves_modify
    | match goal with
      | |- preserves _ (match ?x with _ => _ end) => destruct x
      end ].

(** ** The state and the lock *)

Lemma same_state_refl w : same_state w w.
Proof. done. Qed.

Lemma same_state_trans w1 w2 w3 :
  same_state w1 w2 → same_state w2 w3 → same_state w1 w3.
Proof. intros [] []. split; congruence. Qed.

(** [with lock:] leaves the lock as it found it: free. *)
Lemma same_state_with_lock {A} (m : M A) :
  preserves same_state m → preserves same_state (with_lock m).
Proof.
  intros Hm w. unfold with_lock. destruct (locked w) eqn:Hl; [done|].
  specialize (Hm (set_locked true w)).
  destruct (m (set_locked true w)) as [a w1|e w1| |]; try done;
    destruct Hm as [Hst _]; by split.
Qed.

Ltac same_state_steps :=
  preserves_steps same_state same_state_refl same_state_trans
    ltac:(first [ by intros; split | by apply same_state_with_lock ]).

Lemma same_state__end_pickup l : preserves same_state (_end_pickup l).
Proof. unfold _end_pickup, set_pickup, queue_put_None, write. same_state_steps. Qed.

Lemma same_state_pickup_start p : preserves same_state (pickup_start p).
Proof.
  intros w. unfold pickup_start, modify.
  by destruct (pickup_queue p) as [q|]; [destruct (pending w q)|].
Qed.

Lemma same_state__start_pickup l : preserves same_state (_start_pickup l).
Proof.
  unfold _start_pickup, new_ProgressReportPickup, set_pickup, write.
  preserves_steps same_state same_state_refl same_state_trans
    ltac:(first [ apply same_state_pickup_start | by intros; split ]).
Qed.

Lemma same_state__restart_pickup l : preserves same_state (_restart_pickup l).
Proof.
  unfold _restart_pickup. apply (preserves_bind _ same_state_trans).
  - apply same_state__end_pickup.
  - intros _. apply same_state__start_pickup.
Qed.

Lemma same_state_Started_init r q : preserves same_state (Started_init r q).
Proof.
  intros w. destruct (Started_init_spec r q w) as (w' & s & p & -> & _ & Hl & Hs).
  by split.
Qed.

Lemma same_state_prepare_reporter st : preserves same_state (prepare_reporter st).
Proof.
  destruct st; simpl; try apply (preserves_ret _ same_state_refl).
  apply (preserves_bind _ same_state_trans); [apply same_state_Started_init|].
  intros ?. apply (preserves_ret _ same_state_refl).
Qed.

Lemma same_state_flush st : preserves same_state (flush st).
Proof.
  destruct st; simpl; try apply (preserves_ret _ same_state_refl).
  - apply (preserves_bind _ same_state_trans); [apply same_state_Started_init|].
    intros ?. apply (preserves_ret _ same_state_refl).
  - apply (preserves_bind _ same_state_trans); [apply same_state__restart_pickup|].
    intros ?. apply (preserves_ret _ same_state_refl).
Qed.

Lemma same_state_shutdown st : preserves same_state (shutdown st).
Proof.
  destruct st; simpl; try apply (preserves_ret _ same_state_refl).
  apply (preserves_bind _ same_state_trans); [apply same_state__end_pickup|].
  intros ?. same_state_steps.
Qed.

Lemma same_state_finally l : preserves same_state (fetch_reporter_finally l).
Proof.
  unfold fetch_reporter_finally, set_reporter_yielded, write.
  apply (preserves_bind _ same_state_trans); [same_state_steps|]. intros _.
  apply (preserves_bind _ same_state_trans); [same_state_steps|]. intros s.
  destruct (negb (to_restart_pickup s)); [same_state_steps|].
  apply (preserves_bind _ same_state_trans); [|intros ?; same_state_steps].
  apply same_state_with_lock, same_state__restart_pickup.
Qed.

(** The generator of a state replaces neither the state nor the holder of
    the lock. *)
Lemma same_state_fetch_reporter main st at_ r :
  preserves same_state (fetch_reporter main st at_ r).
Proof.
  destruct st as [rep qu|l|rep|]; try (intros w; by destruct at_, r).
  destruct at_; simpl.
  - unfold set_reporter_yielded, set_to_restart_pickup, write. same_state_steps.
  - same_state_steps.
  - apply (preserves_bind _ same_state_trans); [|intros ?; same_state_steps].
    apply (preserves_try_finally _ _ _ same_state_trans); [same_state_steps|].
    apply same_state_finally.
  - same_state_steps.
Qed.

(** ** Relations kept by every operation of a run *)

Section machine_relation.
Context (R : World → World → Prop).
Hypothesis R_refl : ∀ w, R w w.
Hypothesis R_trans : ∀ w1 w2 w3, R w1 w2 → R w2 w3 → R w1 w3.
Hypothesis R_prepare :
  preserves R (with_lock (s ← gets state; s' ← prepare_reporter s;
                          modify (set_state s'))).
Hypothesis R_fetch : ∀ main st at_ r, preserves R (fetch_reporter main st at_ r).

Lemma yield_from_related main sg r w g' out w' :
  StateMachine.yield_from main sg r w = (g', out) → after out = Some w' → R w w'.
Proof using R_fetch.
  clear R_prepare R_refl R_trans.
  pose proof (R_fetch main (gen_self sg) (gen_pc sg) r w) as Hf.
  unfold StateMachine.yield_from, gen_close, gen_resume.
  destruct r; simpl;
    destruct (fetch_reporter main (gen_self sg) (gen_pc sg) _ w) as [[]|[]| |];
    intros [= <- <-]; simpl; try done; by intros [= <-].
Qed.

Lemma machine_fetch_reporter_related main g r w g' out w' :
  StateMachine.fetch_reporter main g r w = (g', out) → after out = Some w' → R w w'.
Proof using R_refl R_trans R_prepare R_fetch.
  destruct g as [|sg|]; unfold StateMachine.fetch_reporter.
  - destruct r; cbn [resumed mret M_ret raise].
    + pose proof (R_prepare w) as Hp.
      destruct (with_lock _ w) as [[] w1|e w1| |]; try done.
      * intros Hy Ha. eapply R_trans; [done|]. by eapply yield_from_related.
      * by intros [= <- <-] [= <-].
      * by intros [= <- <-].
      * by intros [= <- <-].
    + by intros [= <- <-] [= <-].
    + by intros [= <- <-] [= <-].
  - apply yield_from_related.
  - destruct r; by intros [= <- <-] [= <-].
Qed.

Hypothesis R_flush : preserves R StateMachine.flush.
Hypothesis R_shutdown : preserves R StateMachine.shutdown.
Hypothesis R_passive : ∀ w st, passive st → R w (set_state st w).
Hypothesis R_detach : ∀ l, preserves R (detach l).

Lemma find_reporter_related : preserves R StateMachine.find_reporter.
Proof using R_refl R_trans R_prepare.
  clear R_fetch R_flush R_shutdown R_passive R_detach.
  intros w. unfold StateMachine.find_reporter.
  pose proof (R_prepare w) as Hp. unfold mbind at 1, M_bind at 1.
  destruct (with_lock _ w) as [[] w1|e w1| |]; try done.
  unfold mbind, M_bind, gets.
  pose proof (state_reporter_pure (state w1) w1) as Hs.
  destruct (state_reporter (state w1) w1); try done; by subst.
Qed.

Lemma step_related o c c' : step o c = Some c' → R (world c) (world c').
Proof using All.
  intros Hstep.
  destruct (op_resumption o) as [[[main j] r]|] eqn:Hop.
  - destruct (step_resumption_cases o main j r c c' Hop Hstep)
      as [[_ ->]|(g & g' & out & Hg & Hf & Ha & Hgs)]; [done|].
    by eapply machine_fetch_reporter_related.
  - destruct o; try done; simpl in Hstep.
    + apply call_inv in Hstep as [Ha _].
      by eapply (preserves_after R), Ha; apply find_reporter_related.
    + apply call_inv in Hstep as [[= <-] _]. by apply R_passive.
    + apply call_inv in Hstep as [Ha _]. by eapply (preserves_after R), Ha.
    + apply call_inv in Hstep as [[= <-] _]. by apply R_passive.
    + apply call_inv in Hstep as [Ha _]. by eapply (preserves_after R), Ha.
    + by injection Hstep as <-.
    + apply call_inv in Hstep as [Ha _]. by eapply (preserves_after R), Ha.
Qed.

Lemma steps_related os c c' : steps os c = Some c' → R (world c) (world c').
Proof using All.
  revert c. induction os as [|o os IH]; intros c; simpl.
  - by intros [= <-].
  - destruct (step o c) as [c1|] eqn:Hstep; simpl; [|done].
    intros Hsteps. eapply R_trans; [by eapply step_related|by apply IH].
Qed.

End machine_relation.

(** The locked assignment [self.state = self.state.m()], for a method [m]
    that does not itself touch the state of the machine or the lock: the
    lock is released on every way out, and the assignment is not made when
    [m] raises. *)
Lemma locked_method_outcome (m : State → M State) w :
  (∀ st, preserves same_state (m st)) → locked w = false →
  match with_lock (s ← gets state; s' ← m s; modify (set_state s')) w with
  | Return _ w' => locked w' = false
  | Raise _ w' => locked w' = false ∧ state w' = state w
  | Hangs => True
  | Undefined => True
  end.
Proof.
  intros Hs Hl. unfold with_lock. rewrite Hl.
  unfold mbind, M_bind, gets. simpl.
  specialize (Hs (state w) (set_locked true w)).
  destruct (m (state w) (set_locked true w)) as [st w1|e w1| |]; simpl; try done.
  split; [done|]. apply Hs.
Qed.

(** ** Invariants of the world kept by every operation *)

Lemma keeps_refl P w : keeps P w w.
Proof. by intros ?. Qed.

Lemma keeps_trans P w1 w2 w3 : keeps P w1 w2 → keeps P w2 w3 → keeps P w1 w3.
Proof. intros H12 H23 H1. by apply H23, H12. Qed.

(** What is asked of a property of the world to hold all along a run: it
    does not depend on the lock, the tasks alive or the sentinels; it is
    kept when a sentinel is put, when the marks of an object are set or
    cleared, when a pickup is started or ended, and when the state of the
    machine is replaced the way the methods replace it. *)
Section invariant.
Context (P : World → Prop).
Hypothesis P_ext : ∀ w w',
  heap w' = heap w → events w' = events w → state w' = state w →
  next_id w ≤ next_id w' → P w → P w'.
Hypothesis P_flags : ∀ w l s s',
  heap w !! l = Some s → reporter s' = reporter s → queue s' = queue s →
  pickup s' = pickup s → P w → P (set_heap (<[l:=s']> (heap w)) w).
Hypothesis P_start : ∀ l, preserves (keeps P) (_start_pickup l).
Hypothesis P_end : ∀ l, preserves (keeps P) (_end_pickup l).
Hypothesis P_init : ∀ w r q l w',
  state w = Initial r q → P w → Started_init r q w = Return l w' →
  P (set_state (StartedRef l) w').
Hypothesis P_Initial : ∀ w l s,
  heap w !! l = Some s → P w → P (set_state (Initial (reporter s) (queue s)) w).
Hypothesis P_other : ∀ w st,
  (∀ r q, st ≠ Initial r q) → P w → P (set_state st w).

Lemma keeps_set_locked w b : keeps P w (set_locked b w).
Proof using P_ext. intros Hw. by apply (P_ext w). Qed.

Lemma keeps_setter l (f : Started → Started) :
  (∀ s, reporter (f s) = reporter s ∧ queue (f s) = queue s
        ∧ pickup (f s) = pickup s) →
  preserves (keeps P) (s ← read l; write l (f s)).
Proof using P_flags.
  intros Hf w. unfold_M. destruct (heap w !! l) as [s|] eqn:Hl; [|done].
  destruct (Hf s) as (? & ? & ?). intros Hw. by apply (P_flags w l s).
Qed.

Lemma keeps_set_reporter_yielded l b : preserves (keeps P) (set_reporter_yielded l b).
Proof using P_flags. by apply keeps_setter. Qed.

Lemma keeps_set_to_restart_pickup l b :
  preserves (keeps P) (set_to_restart_pickup l b).
Proof using P_flags. by apply keeps_setter. Qed.

Lemma keeps_detach l : preserves (keeps P) (detach l).
Proof using P_flags. apply keeps_set_to_restart_pickup. Qed.

Lemma keeps__restart_pickup l : preserves (keeps P) (_restart_pickup l).
Proof using P_start P_end.
  unfold _restart_pickup. apply (preserves_bind _ (keeps_trans P)); [apply P_end|].
  intros _. apply P_start.
Qed.

Lemma keeps_with_lock {A} (m : M A) :
  preserves (keeps P) m → preserves (keeps P) (with_lock m).
Proof using P_ext.
  apply (preserves_with_lock _ (keeps_trans P)). apply keeps_set_locked.
Qed.

Lemma keeps_locked_method (m : State → M State) :
  (∀ w, match m (state w) w with
        | Return st w' => P w → P (set_state st w')
        | Raise _ w' => P w → P w'
        | Hangs => True
        | Undefined => True
        end) →
  preserves (keeps P) (with_lock (s ← gets state; s' ← m s; modify (set_state s'))).
Proof using P_ext.
  intros Hm. apply keeps_with_lock. intros w. unfold mbind, M_bind, gets.
  specialize (Hm w). destruct (m (state w) w); done.
Qed.

Lemma keeps_prepare :
  preserves (keeps P)
    (with_lock (s ← gets state; s' ← prepare_reporter s; modify (set_state s'))).
Proof using P_ext P_init.
  apply keeps_locked_method. intros w.
  destruct (state w) as [r q|l|r|] eqn:Hst; simpl.
  - destruct (Started_init_spec r q w) as (w' & s & p & Hi & _).
    unfold mbind, M_bind. rewrite Hi. simpl. intros Hw. by apply (P_init w r q).
  - intros Hw. by apply (P_ext w).
  - intros Hw. by apply (P_ext w).
  - intros Hw. by apply (P_ext w).
Qed.

Lemma keeps_machine_flush : preserves (keeps P) StateMachine.flush.
Proof using P_ext P_init P_start P_end P_other.
  apply keeps_locked_method. intros w.
  destruct (state w) as [r q|l|r|] eqn:Hst; simpl.
  - destruct (Started_init_spec r q w) as (w' & s & p & Hi & _).
    unfold mbind, M_bind. rewrite Hi. simpl. intros Hw. by apply (P_init w r q).
  - unfold mbind, M_bind. pose proof (keeps__restart_pickup l w) as Hr.
    destruct (_restart_pickup l w) as [[] w'|e w'| |]; try done.
    simpl. intros Hw. apply P_other; [done|by apply Hr].
  - intros Hw. by apply (P_ext w).
  - intros Hw. by apply (P_ext w).
Qed.

Lemma keeps_machine_shutdown : preserves (keeps P) StateMachine.shutdown.
Proof using P_ext P_end P_Initial.
  apply keeps_locked_method. intros w.
  destruct (state w) as [r q|l|r|] eqn:Hst; simpl.
  - intros Hw. by apply (P_ext w).
  - unfold mbind, M_bind. pose proof (P_end l w) as He.
    destruct (_end_pickup l w) as [[] w'|e w'| |]; try done.
    unfold read. destruct (heap w' !! l) as [s|] eqn:Hl; [|done].
    simpl. intros Hw. apply (P_Initial w' l s Hl). by apply He.
  - intros Hw. by apply (P_ext w).
  - intros Hw. by apply (P_ext w).
Qed.

Lemma keeps_finally l : preserves (keeps P) (fetch_reporter_finally l).
Proof using P_ext P_flags P_start P_end.
  unfold fetch_reporter_finally.
  apply (preserves_bind _ (keeps_trans P)); [apply keeps_set_reporter_yielded|].
  intros _. apply (preserves_bind _ (keeps_trans P)).
  { apply preserves_read, keeps_refl. }
  intros s. destruct (negb (to_restart_pickup s)).
  { apply preserves_ret, keeps_refl. }
  apply (preserves_bind _ (keeps_trans P)).
  - apply keeps_with_lock, keeps__restart_pickup.
  - intros ?. apply preserves_ret, keeps_refl.
Qed.

Lemma keeps_fetch_reporter main st at_ r :
  preserves (keeps P) (fetch_reporter main st at_ r).
Proof using P_ext P_flags P_start P_end.
  destruct st as [rep qu|l|rep|];
    try (intros w; by destruct at_, r; simpl; exact (keeps_refl P w)).
  assert (Hres : ∀ A (a : A), preserves (keeps P) (resumed r;; mret a)).
  { intros A a. apply (preserves_bind _ (keeps_trans P)).
    - apply preserves_resumed, keeps_refl.
    - intros _. apply preserves_ret, keeps_refl. }
  destruct at_; cbn [fetch_reporter Started_fetch_reporter]; try apply Hres.
  - apply (preserves_bind _ (keeps_trans P)).
    { apply preserves_resumed, keeps_refl. }
    intros _. destruct (negb main).
    { apply (preserves_bind _ (keeps_trans P)).
      - apply preserves_read, keeps_refl.
      - intros ?. apply preserves_ret, keeps_refl. }
    apply (preserves_bind _ (keeps_trans P)).
    { apply preserves_read, keeps_refl. }
    intros s. destruct (reporter_yielded s).
    { apply preserves_ret, keeps_refl. }
    apply (preserves_bind _ (keeps_trans P)); [apply keeps_set_reporter_yielded|].
    intros _.
    apply (preserves_bind _ (keeps_trans P)); [apply keeps_set_to_restart_pickup|].
    intros _. apply (preserves_bind _ (keeps_trans P)).
    + apply preserves_read, keeps_refl.
    + intros ?. apply preserves_ret, keeps_refl.
  - apply (preserves_bind _ (keeps_trans P)).
    + apply (preserves_try_finally _ _ _ (keeps_trans P)).
      * apply preserves_resumed, keeps_refl.
      * apply keeps_finally.
    + intros ?. apply preserves_ret, keeps_refl.
Qed.

(** A property of this kind that holds of a configuration holds after
    every run from it. *)
Lemma invariant_steps os c c' : P (world c) → steps os c = Some c' → P (world c').
Proof using All.
  intros Hc Hsteps. revert Hc.
  apply (steps_related (keeps P)) with os; try done.
  - apply keeps_refl.
  - apply keeps_trans.
  - apply keeps_prepare.
  - apply keeps_fetch_reporter.
  - apply keeps_machine_flush.
  - apply keeps_machine_shutdown.
  - intros w st Hst Hw. apply P_other; [|done]. by intros r q ->.
  - apply keeps_detach.
Qed.

End invariant.

(** ** The trace and the pickups held *)

Lemma started_elem p evs : p ∈ started evs ↔ EvStart p ∈ evs.
Proof.
  unfold started. rewrite list_elem_of_omap. split.
  - intros (e & He & Hp). destruct e; try done. by injection Hp as ->.
  - intros He. by exists (EvStart p).
Qed.

Lemma joined_elem p evs : p ∈ joined evs ↔ EvJoin p ∈ evs.
Proof.
  unfold joined. rewrite list_elem_of_omap. split.
  - intros (e & He & Hp). destruct e; try done. by injection Hp as ->.
  - intros He. by exists (EvJoin p).
Qed.

Lemma trace_ok_init : trace_ok StateMachine.init.
Proof.
  split; simpl.
  - by intros p ?%elem_of_nil.
  - constructor.
  - constructor.
  - by intros i p.
  - intros l s p. by rewrite lookup_empty.
Qed.

Lemma trace_ok_ext w w' :
  heap w' = heap w → events w' = events w → next_id w ≤ next_id w' →
  trace_ok w → trace_ok w'.
Proof.
  intros Hh He Hn [Hids Hst Hj Ho Hheld]. split; rewrite ?He, ?Hh; try done.
  intros p Hp. specialize (Hids p Hp). lia.
Qed.

Lemma trace_ok_flags w l s s' :
  heap w !! l = Some s → pickup s' = pickup s →
  trace_ok w → trace_ok (set_heap (<[l:=s']> (heap w)) w).
Proof.
  intros Hl Hp [Hids Hst Hj Ho Hheld]. split; simpl; try done.
  intros l0 s0 p0. destruct (decide (l = l0)) as [<-|Hne].
  - rewrite lookup_insert_eq. intros [= <-]. rewrite Hp. by apply Hheld.
  - rewrite lookup_insert_ne by done. apply Hheld.
Qed.

(** A sentinel is put. *)
Lemma trace_ok_put w w' q :
  events w' = events w ++ [EvPut q] → heap w' = heap w → next_id w' = next_id w →
  trace_ok w → trace_ok w'.
Proof.
  intros He Hh Hn [Hids Hst Hj Ho Hheld]. split; rewrite ?He, ?Hh, ?Hn.
  - intros p [Hp|[=]%list_elem_of_singleton]%elem_of_app. by apply Hids.
  - unfold started. rewrite omap_app. simpl. by rewrite app_nil_r.
  - unfold joined. rewrite omap_app. simpl. by rewrite app_nil_r.
  - intros i p [Hi|[_ Hi]]%lookup_app_Some.
    + destruct (Ho i p Hi) as (j & Hj' & Hlk). exists j. split; [done|].
      by apply lookup_app_l_Some.
    + by apply list_lookup_singleton_Some in Hi as [_ [=]].
  - intros l s p Hl Hp. destruct (Hheld l s p Hl Hp) as (Hd & Hs & Hnj).
    split; [done|]. split; [apply elem_of_app; by left|].
    intros [?|[=]%list_elem_of_singleton]%elem_of_app. done.
Qed.

(** A pickup newly built is started and stored in the object at [l]. *)
Lemma trace_ok_start w w' l s p :
  events w' = events w ++ [EvStart p] → heap w' = <[l:=s]> (heap w) →
  pickup s = Some p → pickup_detach p = l →
  next_id w ≤ pickup_id p → pickup_id p < next_id w' →
  trace_ok w → trace_ok w'.
Proof.
  intros He Hh Hp Hd Hlo Hhi [Hids Hst Hj Ho Hheld].
  assert (Hnew : EvStart p ∉ events w).
  { intros Hin. specialize (Hids p Hin). lia. }
  assert (Hnj : EvJoin p ∉ events w).
  { intros (i & Hi)%list_elem_of_lookup_1. destruct (Ho i p Hi) as (j & _ & Hlk).
    apply Hnew. by eapply list_elem_of_lookup_2. }
  split; rewrite ?He, ?Hh.
  - intros p0 [Hp0|Hp0%list_elem_of_singleton]%elem_of_app.
    + specialize (Hids p0 Hp0). lia.
    + injection Hp0 as ->. done.
  - unfold started. rewrite omap_app, fmap_app. simpl.
    apply NoDup_app. split; [done|]. split; [|apply NoDup_singleton].
    intros x (p0 & -> & Hp0)%list_elem_of_fmap Heq%list_elem_of_singleton.
    apply started_elem in Hp0. specialize (Hids p0 Hp0). lia.
  - unfold joined. rewrite omap_app. simpl. by rewrite app_nil_r.
  - intros i p0 [Hi|[_ Hi]]%lookup_app_Some.
    + destruct (Ho i p0 Hi) as (j & Hj' & Hlk). exists j. split; [done|].
      by apply lookup_app_l_Some.
    + by apply list_lookup_singleton_Some in Hi as [_ [=]].
  - intros l0 s0 p0. destruct (decide (l = l0)) as [<-|Hne].
    + rewrite lookup_insert_eq. intros [= <-] Hp0.
      assert (p0 = p) as -> by congruence.
      split; [done|]. split; [apply elem_of_app; right; by apply list_elem_of_singleton|].
      intros [?|[=]%list_elem_of_singleton]%elem_of_app. done.
    + rewrite lookup_insert_ne by done. intros Hl0 Hp0.
      destruct (Hheld l0 s0 p0 Hl0 Hp0) as (Hd0 & Hs0 & Hnj0).
      split; [done|]. split; [apply elem_of_app; by left|].
      intros [?|[=]%list_elem_of_singleton]%elem_of_app. done.
Qed.

(** The pickup that the object at [l] holds is joined and taken off the
    object. *)
Lemma trace_ok_join w w' l s p s' :
  heap w !! l = Some s → pickup s = Some p →
  events w' = events w ++ [EvJoin p] → heap w' = <[l:=s']> (heap w) →
  pickup s' = None → next_id w' = next_id w →
  trace_ok w → trace_ok w'.
Proof.
  intros Hl Hp He Hh Hp' Hn [Hids Hst Hj Ho Hheld].
  destruct (Hheld l s p Hl Hp) as (Hd & Hs & Hnj).
  split; rewrite ?He, ?Hh, ?Hn.
  - intros p0 [Hp0|[=]%list_elem_of_singleton]%elem_of_app. by apply Hids.
  - unfold started. rewrite omap_app. simpl. by rewrite app_nil_r.
  - unfold joined. rewrite omap_app. simpl.
    apply NoDup_app. split; [done|]. split; [|apply NoDup_singleton].
    intros p0 Hp0%joined_elem ->%list_elem_of_singleton. done.
  - intros i p0 [Hi|[Hlen Hi]]%lookup_app_Some.
    + destruct (Ho i p0 Hi) as (j & Hj' & Hlk). exists j. split; [done|].
      by apply lookup_app_l_Some.
    + apply list_lookup_singleton_Some in Hi as [_ [= <-]].
      apply list_elem_of_lookup_1 in Hs as (j & Hlk). exists j. split.
      * apply lookup_lt_Some in Hlk. lia.
      * by apply lookup_app_l_Some.
  - intros l0 s0 p0. destruct (decide (l = l0)) as [<-|Hne].
    + rewrite lookup_insert_eq. intros [= <-]. congruence.
    + rewrite lookup_insert_ne by done. intros Hl0 Hp0.
      destruct (Hheld l0 s0 p0 Hl0 Hp0) as (Hd0 & Hs0 & Hnj0).
      split; [done|]. split; [apply elem_of_app; by left|].
      intros [?|Heq%list_elem_of_singleton]%elem_of_app; [done|].
      injection Heq as ->. congruence.
Qed.

Lemma trace_ok__start_pickup l : preserves (keeps trace_ok) (_start_pickup l).
Proof.
  intros w. destruct (heap w !! l) as [s|] eqn:Hl.
  - destruct (_start_pickup_effect w l s Hl) as (w' & -> & Hh & He & Hn & _).
    intros Hok.
    apply (trace_ok_start w w' l (with_pickup (Some (fresh_pickup w l s)) s)
             (fresh_pickup w l s)); try done; simpl; lia.
  - unfold _start_pickup. unfold_M. by rewrite Hl.
Qed.

Lemma trace_ok__end_pickup l : preserves (keeps trace_ok) (_end_pickup l).
Proof.
  intros w. unfold _end_pickup. unfold mbind at 1, M_bind at 1, read.
  destruct (heap w !! l) as [s|] eqn:Hl; [|done].
  destruct (queue s) as [q|]; [|by intros ?].
  unfold mbind at 1, M_bind at 1, queue_put_None, modify.
  set (w1 := emit (EvPut q) (set_sentinels (<[q:=S (pending w q)]> (sentinels w)) w)).
  assert (H1 : trace_ok w → trace_ok w1) by (by apply (trace_ok_put w w1 q)).
  destruct (pickup s) as [p|] eqn:Hp; [|done].
  unfold mbind, M_bind, pickup_join, set_pickup, read, write, modify.
  destruct (decide (pickup_id p ∈ alive w1)).
  - destruct (pickup_queue p) as [q'|]; [|done].
    destruct (pending w1 q'); [done|]. unfold mbind, M_bind. simpl. rewrite Hl.
    intros Hok. by apply (trace_ok_join w1 _ l s p (with_pickup None s)); auto.
  - unfold mbind, M_bind. simpl. rewrite Hl.
    intros Hok. by apply (trace_ok_join w1 _ l s p (with_pickup None s)); auto.
Qed.

Lemma trace_ok_Started_init w r q l w' :
  trace_ok w → Started_init r q w = Return l w' →
  trace_ok (set_state (StartedRef l) w').
Proof.
  intros Hok Hi.
  destruct (Started_init_spec r q w) as (w1 & s & p & Hi1 & Hpost & _).
  rewrite Hi in Hi1. injection Hi1 as -> <-.
  apply (trace_ok_ext w'); try done.
  destruct Hpost.
  apply (trace_ok_start w w' (next_id w) s p); try done; lia.
Qed.

Lemma trace_ok_steps os c c' :
  trace_ok (world c) → steps os c = Some c' → trace_ok (world c').
Proof.
  apply invariant_steps.
  - intros w w' Hh He _ Hn. by apply trace_ok_ext.
  - intros w l s s' Hl _ _ Hp. by apply trace_ok_flags with s.
  - apply trace_ok__start_pickup.
  - apply trace_ok__end_pickup.
  - intros w r q l w' _. apply trace_ok_Started_init.
  - intros w l s _. by apply trace_ok_ext.
  - intros w st _. by apply trace_ok_ext.
Qed.

(** ** The reporter and the queue of the objects *)

Lemma same_fields_same_heap w w' :
  heap w' = heap w → state w' = state w → same_fields w w'.
Proof. intros Hh Hs. split; [done|]. intros l s'. rewrite Hh. by exists s'. Qed.

Lemma same_fields_update w w' l s s' :
  heap w !! l = Some s → heap w' = <[l:=s']> (heap w) →
  reporter s' = reporter s → queue s' = queue s → state w' = state w →
  same_fields w w'.
Proof.
  intros Hl Hh Hr Hq Hs. split; [done|]. intros l0 s0. rewrite Hh.
  destruct (decide (l = l0)) as [<-|Hne].
  - rewrite lookup_insert_eq. intros [= <-]. by exists s.
  - rewrite lookup_insert_ne by done. by exists s0.
Qed.

Lemma same_fields__start_pickup l : preserves same_fields (_start_pickup l).
Proof.
  intros w. destruct (heap w !! l) as [s|] eqn:Hl.
  - destruct (_start_pickup_effect w l s Hl) as (w' & -> & Hh & _ & _ & Hst & _).
    by apply (same_fields_update w w' l s (with_pickup (Some (fresh_pickup w l s)) s)).
  - unfold _start_pickup. unfold_M. by rewrite Hl.
Qed.

Lemma same_fields__end_pickup l : preserves same_fields (_end_pickup l).
Proof.
  intros w. unfold _end_pickup. unfold mbind at 1, M_bind at 1, read.
  destruct (heap w !! l) as [s|] eqn:Hl; [|done].
  destruct (queue s) as [q|]; [|by apply same_fields_same_heap].
  unfold mbind at 1, M_bind at 1, queue_put_None, modify.
  destruct (pickup s) as [p|] eqn:Hp; [|by apply same_fields_same_heap].
  unfold mbind, M_bind, pickup_join, set_pickup, read, write, modify.
  destruct (decide _).
  - destruct (pickup_queue p) as [q'|]; [|done].
    destruct (pending _ q'); [done|]. unfold mbind, M_bind. simpl. rewrite Hl.
    by apply (same_fields_update w _ l s (with_pickup None s)).
  - unfold mbind, M_bind. simpl. rewrite Hl.
    by apply (same_fields_update w _ l s (with_pickup None s)).
Qed.

Lemma same_fields_shared rep q w w' :
  same_fields w w' → shared rep q w → shared rep q w'.
Proof.
  intros [Hst Hf] [Hobj Hini]. split.
  - intros l s' Hl. destruct (Hf l s' Hl) as (s & Hl0 & -> & ->). by apply (Hobj l).
  - rewrite Hst. apply Hini.
Qed.

Lemma same_fields_empty w w' : same_fields w w' → heap w = ∅ → heap w' = ∅.
Proof.
  intros [_ Hf] He. apply map_empty. intros l.
  destruct (heap w' !! l) as [s'|] eqn:Hl; [|done].
  destruct (Hf l s' Hl) as (s & Hl0 & _). by rewrite He, lookup_empty in Hl0.
Qed.

Lemma same_fields_uniform w w' : same_fields w w' → uniform w → uniform w'.
Proof.
  intros Hf [He|(rep & q & Hsh)].
  - left. by eapply same_fields_empty.
  - right. exists rep, q. by eapply same_fields_shared.
Qed.

Lemma shared_ext rep q w w' :
  heap w' = heap w → state w' = state w → shared rep q w → shared rep q w'.
Proof. intros Hh Hs. apply same_fields_shared. by apply same_fields_same_heap. Qed.

Lemma shared_flags rep q w l s s' :
  heap w !! l = Some s → reporter s' = reporter s → queue s' = queue s →
  shared rep q w → shared rep q (set_heap (<[l:=s']> (heap w)) w).
Proof.
  intros Hl Hr Hq. apply same_fields_shared. by apply (same_fields_update w _ l s s').
Qed.

Lemma shared_other rep q w st :
  (∀ r' q', st ≠ Initial r' q') → shared rep q w → shared rep q (set_state st w).
Proof.
  intros Hst [Hobj _]. split; [done|]. simpl. intros r' q' ->. by destruct (Hst r' q').
Qed.

Lemma shared_Initial rep q w l s :
  heap w !! l = Some s → shared rep q w →
  shared rep q (set_state (Initial (reporter s) (queue s)) w).
Proof.
  intros Hl [Hobj _]. split; [done|]. simpl. intros r' q' [= <- <-]. by apply (Hobj l).
Qed.

(** A new [Started] object made from an Initial state that holds the
    reporter keeps the reporter and the queue. *)
Lemma shared_Started_init rep q w r q0 l w' :
  state w = Initial r q0 → shared rep q w → Started_init r q0 w = Return l w' →
  shared rep q (set_state (StartedRef l) w').
Proof.
  intros Hst [Hobj Hini] Hi. destruct (Hini r q0 Hst) as [-> ->].
  destruct (Started_init_spec (Some rep) q w) as (w1 & s & p & Hi1 & Hpost & _).
  rewrite Hi in Hi1. injection Hi1 as -> <-.
  destruct (init_reporter_kept _ _ _ _ _ _ Hpost rep eq_refl) as [Hr Hq].
  split; [|done]. simpl. intros l0 s0. rewrite (init_heap _ _ _ _ _ _ Hpost).
  destruct (decide (next_id w = l0)) as [<-|Hne].
  - rewrite lookup_insert_eq. by intros [= <-].
  - rewrite lookup_insert_ne by done. apply Hobj.
Qed.

Lemma shared_steps rep q os c c' :
  shared rep q (world c) → steps os c = Some c' → shared rep q (world c').
Proof.
  apply invariant_steps.
  - intros w w' Hh _ Hs _. by apply shared_ext.
  - intros w l s s' Hl Hr Hq _. by apply shared_flags with s.
  - intros l w. pose proof (same_fields__start_pickup l w) as H.
    destruct (_start_pickup l w); try done; intros Hw; by eapply same_fields_shared.
  - intros l w. pose proof (same_fields__end_pickup l w) as H.
    destruct (_end_pickup l w); try done; intros Hw; by eapply same_fields_shared.
  - intros w r q0 l w'. apply shared_Started_init.
  - intros w l s. apply shared_Initial.
  - intros w st. apply shared_other.
Qed.

Lemma uniform_init : uniform StateMachine.init.
Proof. by left. Qed.

Lemma uniform_Started_init w r q0 l w' :
  state w = Initial r q0 → uniform w → Started_init r q0 w = Return l w' →
  uniform (set_state (StartedRef l) w').
Proof.
  intros Hst [He|(rep & q & Hsh)] Hi; right.
  - destruct (Started_init_spec r q0 w) as (w1 & s & p & Hi1 & Hpost & _).
    rewrite Hi in Hi1. injection Hi1 as -> <-.
    destruct (Started_init_post_reporter _ _ _ _ _ _ Hpost) as [rep Hrep].
    exists rep, (queue s). split; [|done]. simpl. intros l0 s0.
    rewrite (init_heap _ _ _ _ _ _ Hpost), He.
    destruct (decide (next_id w = l0)) as [<-|Hne].
    + rewrite lookup_insert_eq. by intros [= <-].
    + rewrite lookup_insert_ne by done. by rewrite lookup_empty.
  - exists rep, q. by eapply shared_Started_init.
Qed.

Lemma uniform_steps os c c' :
  uniform (world c) → steps os c = Some c' → uniform (world c').
Proof.
  apply invariant_steps.
  - intros w w' Hh _ Hs _. apply same_fields_uniform. by apply same_fields_same_heap.
  - intros w l s s' Hl Hr Hq _. apply same_fields_uniform.
    by apply (same_fields_update w _ l s s').
  - intros l w. pose proof (same_fields__start_pickup l w) as H.
    destruct (_start_pickup l w); try done; intros Hw; by eapply same_fields_uniform.
  - intros l w. pose proof (same_fields__end_pickup l w) as H.
    destruct (_end_pickup l w); try done; intros Hw; by eapply same_fields_uniform.
  - intros w r q0 l w'. apply uniform_Started_init.
  - intros w l s Hl [He|(rep & q & Hsh)].
    + by rewrite He, lookup_empty in Hl.
    + right. exists rep, q. by apply (shared_Initial rep q w l s).
  - intros w st Hst [He|(rep & q & Hsh)]; [by left|].
    right. exists rep, q. by apply shared_other.
Qed.

(** ** A [Started] state without a queue *)

(** X1. A machine whose Initial state holds a reporter and no queue makes, on
    [find_reporter()], a Started state that has no queue, with a pickup
    that was given none. The machine can then be neither shut down nor
    flushed: [shutdown()] and [flush()] fail on [self.queue.put] with
    [AttributeError] before anything is done, and leave the world - the
    state, the objects, the trace and the lock - as it was. *)
Theorem Started_without_queue (w : World) (rep : ProgressReporter) :
  state w = Initial (Some rep) None → locked w = false →
  ∃ w1 s p,
    StateMachine.find_reporter w = Return (Some rep) w1
    ∧ state w1 = StartedRef (next_id w) ∧ heap w1 !! next_id w = Some s
    ∧ queue s = None ∧ pickup s = Some p ∧ pickup_queue p = None
    ∧ StateMachine.shutdown w1 = Raise AttributeError w1
    ∧ StateMachine.flush w1 = Raise AttributeError w1.
Proof.
  intros Hst Hl.
  destruct (find_reporter_Initial w _ _ Hst Hl)
    as (w1 & s & p & Hf & Hst1 & Hl1 & Hpost).
  pose proof (Started_init_post_lookup _ _ _ _ _ _ Hpost) as Hh.
  destruct (init_reporter_kept _ _ _ _ _ _ Hpost rep eq_refl) as [Hrep Hq].
  assert (Hend : _end_pickup (next_id w) (set_locked true w1)
                 = Raise AttributeError (set_locked true w1)).
  { by apply (_end_pickup_no_queue _ _ s). }
  exists w1, s, p. rewrite Hf, Hrep. split_and!; try done.
  - apply Hpost.
  - by rewrite (init_pickup_queue _ _ _ _ _ _ Hpost).
  - unfold StateMachine.shutdown.
    erewrite (locked_method_Raise shutdown); [by rewrite set_locked_false_true|done|].
    rewrite Hst1. simpl. by erewrite bind_Raise.
  - unfold StateMachine.flush.
    erewrite (locked_method_Raise flush); [by rewrite set_locked_false_true|done|].
    rewrite Hst1. simpl. unfold _restart_pickup.
    erewrite bind_Raise; [done|]. by erewrite bind_Raise.
Qed.

Lemma Started_without_queue_witness :
  ∃ w1 s p,
    StateMachine.find_reporter (no_queue_world started_reporter)
    = Return (Some started_reporter) w1
    ∧ state w1 = StartedRef 0 ∧ heap w1 !! 0 = Some s
    ∧ queue s = None ∧ pickup s = Some p ∧ pickup_queue p = None
    ∧ StateMachine.shutdown w1 = Raise AttributeError w1
    ∧ StateMachine.flush w1 = Raise AttributeError w1.
Proof.
  exact (Started_without_queue (no_queue_world started_reporter) started_reporter
           eq_refl eq_refl).
Defined.

(** ** Registering, disabling and asking for the reporter *)

(** X3. [register_reporter] and [disable] replace the state whatever it is and
    whether or not the lock is held, and touch nothing else; the state
    registered or disabled last is the one in force. After
    [register_reporter(r)], [find_reporter()] returns [r] and the machine's
    generator yields [r]; after [disable()] both give [None]. *)
Theorem register_then_find (w : World) (r : option ProgressReporter) :
  StateMachine.register_reporter r w = Return tt (set_state (Registered r) w)
  ∧ StateMachine.disable w = Return tt (set_state Disabled w)
  ∧ (∀ r0, (StateMachine.register_reporter r0;; StateMachine.register_reporter r) w
           = StateMachine.register_reporter r w)
  ∧ (StateMachine.register_reporter r;; StateMachine.disable) w = StateMachine.disable w
  ∧ (StateMachine.disable;; StateMachine.register_reporter r) w
    = StateMachine.register_reporter r w
  ∧ (locked w = false →
     (StateMachine.register_reporter r;; StateMachine.find_reporter) w
     = Return r (set_state (Registered r) w)
     ∧ (StateMachine.disable;; StateMachine.find_reporter) w
       = Return None (set_state Disabled w)
     ∧ ∀ main,
         StateMachine.next main StateMachine.GFresh (set_state (Registered r) w)
         = (plain_gen (Registered r), Return r (set_state (Registered r) w))
         ∧ StateMachine.next main StateMachine.GFresh (set_state Disabled w)
           = (plain_gen Disabled, Return None (set_state Disabled w))).
Proof.
  split_and!; try done.
  intros Hl. split_and!.
  - erewrite bind_Return by done.
    by rewrite (passive_find_reporter (set_state (Registered r) w)).
  - erewrite bind_Return by done.
    by rewrite (passive_find_reporter (set_state Disabled w)).
  - intros main. split.
    + by rewrite (passive_next_Fresh main (set_state (Registered r) w)).
    + by rewrite (passive_next_Fresh main (set_state Disabled w)).
Qed.

Lemma register_then_find_witness :
  (StateMachine.register_reporter (Some started_reporter);; StateMachine.find_reporter)
    started_world
  = Return (Some started_reporter)
      (set_state (Registered (Some started_reporter)) started_world).
Proof.
  exact (proj1 (proj2 (proj2 (proj2 (proj2 (proj2
           (register_then_find started_world (Some started_reporter))))))
           eq_refl)).
Defined.

(** ** Releases in a state that was replaced or shut down *)

(** X4. The release of an outermost usage does not look at the state of the
    machine. When [disable()] or [register_reporter()] has replaced the
    Started state during the loop, the end of the loop still restarts the
    pickup of the object the generator holds: the old task is joined and a
    new one is started, which is alive afterwards although the machine is
    Disabled or Registered. *)
Theorem release_restarts_orphan_pickup (w : World) (l : oid) (s : Started) (q : oid)
    (p : ProgressReportPickup) (st : State) (main : bool) (r : resumption) :
  running w l s q p → to_restart_pickup s = true → passive st →
  ∃ w' p' s',
    StateMachine.fetch_reporter main (outermost_gen l) r (set_state st w)
    = (StateMachine.GFinished, Raise (released_exn true r) w')
    ∧ state w' = st
    ∧ events w' = events w ++ [EvPut q; EvJoin p; EvStart p']
    ∧ alive w' = {[pickup_id p']} ∧ pickup_id p' ≠ pickup_id p
    ∧ heap w' !! l = Some s' ∧ pickup s' = Some p' ∧ reporter_yielded s' = false.
Proof.
  intros [Hst Hh Hq Hp Hpq Ha H0 Hf Hlk] Hr Hpas.
  destruct (release_outermost main r (set_state st w) l s q p)
    as (w' & Hrel & Hpost); try done.
  rewrite Hr in Hrel. unfold released in Hpost. rewrite Hr in Hpost.
  destruct Hpost as (p' & Hpost). destruct Hpost; simpl in *.
  exists w', p', (with_pickup (Some p') (unmarked s)).
  split_and!; try done.
  - rewrite rst_new0. lia.
  - rewrite rst_heap0. by rewrite insert_insert_eq, lookup_insert_eq.
Qed.

Lemma release_restarts_orphan_pickup_witness :
  ∃ w' p' s',
    StateMachine.fetch_reporter true (outermost_gen 0) RNext
      (set_state Disabled in_use_world)
    = (StateMachine.GFinished, Raise (released_exn true RNext) w')
    ∧ state w' = Disabled
    ∧ events w' = events in_use_world
                  ++ [EvPut 1; EvJoin started_pickup_object; EvStart p']
    ∧ alive w' = {[pickup_id p']} ∧ pickup_id p' ≠ pickup_id started_pickup_object
    ∧ heap w' !! 0 = Some s' ∧ pickup s' = Some p' ∧ reporter_yielded s' = false.
Proof.
  exact (release_restarts_orphan_pickup in_use_world 0 (marked started_object) 1
           started_pickup_object Disabled true RNext in_use_world_running eq_refl I).
Defined.

Lemma finally_stale w l s q :
  heap w !! l = Some s → to_restart_pickup s = true →
  queue s = Some q → pickup s = None → locked w = false →
  fetch_reporter_finally l w = Raise AttributeError (stale_release w l s q).
Proof.
  intros Hh Hr Hq Hp Hl. unfold fetch_reporter_finally, stale_release.
  erewrite bind_Return by by apply set_reporter_yielded_spec.
  unfold mbind at 1, M_bind at 1, read. simpl. rewrite lookup_insert_eq. simpl.
  rewrite Hr. simpl.
  erewrite bind_Raise; [reflexivity|].
  apply with_lock_Raise; [done|].
  unfold _restart_pickup. erewrite bind_Raise; [reflexivity|].
  unfold _end_pickup. unfold mbind at 1, M_bind at 1, read. simpl.
  rewrite lookup_insert_eq. simpl. rewrite Hq, Hp. reflexivity.
Qed.

Lemma release_stale main r w l s q :
  heap w !! l = Some s → to_restart_pickup s = true →
  queue s = Some q → pickup s = None → locked w = false →
  StateMachine.fetch_reporter main (outermost_gen l) r w
  = (StateMachine.GFinished, Raise AttributeError (stale_release w l s q)).
Proof.
  intros Hh Hr Hq Hp Hl.
  pose proof (finally_stale w l s q Hh Hr Hq Hp Hl) as Hfin.
  unfold outermost_gen, StateMachine.fetch_reporter, StateMachine.yield_from,
    gen_close, gen_resume. simpl.
  unfold mbind, M_bind, try_finally.
  destruct r; simpl; rewrite Hfin; done.
Qed.

(** X5. [shutdown()] called inside an outermost loop takes the pickup away from
    the object the loop's generator holds. The release, in whichever way it
    comes, then puts a sentinel on the queue, fails on [self.pickup.join]
    with [AttributeError] - which replaces an exception thrown into the
    generator and is raised even at the normal end of the loop - and starts
    no pickup: the sentinel stays on the queue, no task is alive, the
    machine stays Initial, and the lock is released. *)
Theorem shutdown_inside_loop (w : World) (l : oid) (s : Started) (q : oid)
    (p : ProgressReportPickup) (main : bool) (r : resumption) :
  running w l s q p → to_restart_pickup s = true →
  ∃ w1 w2 s2,
    StateMachine.shutdown w = Return tt w1
    ∧ state w1 = Initial (reporter s) (Some q)
    ∧ StateMachine.fetch_reporter main (outermost_gen l) r w1
      = (StateMachine.GFinished, Raise AttributeError w2)
    ∧ events w2 = events w ++ [EvPut q; EvJoin p; EvPut q]
    ∧ pending w2 q = S (pending w q)
    ∧ alive w2 = ∅ ∧ state w2 = state w1 ∧ locked w2 = false
    ∧ heap w2 !! l = Some s2 ∧ pickup s2 = None ∧ reporter_yielded s2 = false.
Proof.
  intros Hrun Hr. pose proof Hrun as [Hst Hh Hq Hp Hpq Ha H0 Hf Hlk].
  exists (set_state (Initial (reporter s) (Some q)) (ended_pickup w l s q p)).
  eexists. exists (unmarked (with_pickup None s)).
  split; [by apply shutdown_running|]. split; [done|].
  split.
  { apply (release_stale main r _ l (with_pickup None s) q); try done.
    simpl. apply lookup_insert_eq. }
  split_and!; try done.
  - simpl. by rewrite <- !app_assoc.
  - unfold pending. simpl. rewrite lookup_insert_eq. simpl.
    unfold pending. simpl. by rewrite lookup_insert_eq.
  - simpl. rewrite Ha. apply difference_diag_L.
  - simpl. apply lookup_insert_eq.
Qed.

Lemma shutdown_inside_loop_witness :
  ∃ w1 w2 s2,
    StateMachine.shutdown in_use_world = Return tt w1
    ∧ state w1 = Initial (reporter (marked started_object)) (Some 1)
    ∧ StateMachine.fetch_reporter true (outermost_gen 0) RNext w1
      = (StateMachine.GFinished, Raise AttributeError w2)
    ∧ events w2 = events in_use_world
                  ++ [EvPut 1; EvJoin started_pickup_object; EvPut 1]
    ∧ pending w2 1 = S (pending in_use_world 1)
    ∧ alive w2 = ∅ ∧ state w2 = state w1 ∧ locked w2 = false
    ∧ heap w2 !! 0 = Some s2 ∧ pickup s2 = None ∧ reporter_yielded s2 = false.
Proof.
  exact (shutdown_inside_loop in_use_world 0 (marked started_object) 1
           started_pickup_object true RNext in_use_world_running eq_refl).
Defined.

(** ** A detach outside a loop *)

Lemma marked_detached s :
  marked (with_to_restart_pickup false s) = marked s.
Proof. done. Qed.

(** X6. A [detach] that comes while no outermost usage is open is forgotten:
    the next outermost call on the main thread sets [to_restart_pickup]
    again, so that the machine is then exactly as it would be without the
    detach, and the release of that usage restarts the pickup. *)
Theorem detach_before_entry_forgotten (w : World) (l : oid) (s : Started) (q : oid)
    (p : ProgressReportPickup) :
  running w l s q p → reporter_yielded s = false →
  ∃ w1 w2,
    detach l w = Return tt w1
    ∧ StateMachine.next true StateMachine.GFresh w1
      = (outermost_gen l, Return (reporter s) w2)
    ∧ StateMachine.next true StateMachine.GFresh w
      = (outermost_gen l, Return (reporter s) w2)
    ∧ ∀ main r, ∃ w3 p',
        StateMachine.fetch_reporter main (outermost_gen l) r w2
        = (StateMachine.GFinished, Raise (released_exn true r) w3)
        ∧ events w3 = events w ++ [EvPut q; EvJoin p; EvStart p'].
Proof.
  intros Hrun Hy. pose proof Hrun as [Hst Hh Hq Hp Hpq Ha H0 Hf Hlk].
  exists (set_heap (<[l:=with_to_restart_pickup false s]> (heap w)) w),
         (set_heap (<[l:=marked s]> (heap w)) w).
  split; [by apply detach_spec|]. split_and!.
  - erewrite next_Fresh_Started; [|done|done|apply lookup_insert_eq].
    simpl. rewrite Hy. simpl. rewrite marked_detached.
    by rewrite insert_insert_eq.
  - erewrite next_Fresh_Started by done. by rewrite Hy.
  - intros main r.
    destruct (release_outermost main r (set_heap (<[l:=marked s]> (heap w)) w)
                l (marked s) q p) as (w3 & Hrel & Hpost); try done.
    { simpl. apply lookup_insert_eq. }
    unfold released in Hpost. simpl in Hpost, Hrel.
    destruct Hpost as (p' & Hpost). exists w3, p'. split; [done|].
    by destruct Hpost.
Qed.

Lemma detach_before_entry_forgotten_witness :
  ∃ w1 w2,
    detach 0 started_world = Return tt w1
    ∧ StateMachine.next true StateMachine.GFresh w1
      = (outermost_gen 0, Return (reporter started_object) w2)
    ∧ StateMachine.next true StateMachine.GFresh started_world
      = (outermost_gen 0, Return (reporter started_object) w2)
    ∧ ∀ main r, ∃ w3 p',
        StateMachine.fetch_reporter main (outermost_gen 0) r w2
        = (StateMachine.GFinished, Raise (released_exn true r) w3)
        ∧ events w3 = events started_world
                      ++ [EvPut 1; EvJoin started_pickup_object; EvStart p'].
Proof.
  exact (detach_before_entry_forgotten started_world 0 started_object 1
           started_pickup_object started_world_running eq_refl).
Defined.

(** ** What holds at every point of a run *)

Lemma sound_start : sound (world start).
Proof. apply sound_init_world. Qed.

(** X7. Whatever a program does with the machine, its generators and the
    detach callbacks, at most one pickup task is alive between two
    operations, and a task alive is the pickup held by one [Started]
    object, the only object that holds a pickup. *)
Theorem at_most_one_pickup_alive (os : list op) (c : config) :
  steps os start = Some c →
  alive (world c) = ∅
  ∨ ∃ l s p,
      heap (world c) !! l = Some s ∧ pickup s = Some p
      ∧ alive (world c) = {[pickup_id p]}
      ∧ ∀ l', holds_pickup (world c) l' → l' = l.
Proof.
  intros Hsteps. apply sound_alive.
  apply (sound_steps os start c sound_start Hsteps).
Qed.

Lemma at_most_one_pickup_alive_witness :
  alive (world detached_config) = ∅
  ∨ ∃ l s p,
      heap (world detached_config) !! l = Some s ∧ pickup s = Some p
      ∧ alive (world detached_config) = {[pickup_id p]}
      ∧ ∀ l', holds_pickup (world detached_config) l' → l' = l.
Proof.
  apply (at_most_one_pickup_alive (loop_entered ++ worker_reports)).
  vm_compute. reflexivity.
Defined.

(** ** Calls repeated *)

(** X8. In every run, [shutdown()] returns, and a second [shutdown()] right
    after it changes nothing. From the Started state it leaves the machine
    Initial with no pickup task alive; in every other state, in a machine
    that was never started among them, it does nothing at all. *)
Theorem shutdown_idempotent (os : list op) (c : config) :
  steps os start = Some c →
  ∃ w1,
    StateMachine.shutdown (world c) = Return tt w1
    ∧ StateMachine.shutdown w1 = Return tt w1
    ∧ match state (world c) with
      | StartedRef l =>
          (∃ r q, state w1 = Initial r q) ∧ alive w1 = ∅
          ∧ ∃ q p, events w1 = events (world c) ++ [EvPut q; EvJoin p]
      | _ => w1 = world c
      end.
Proof.
  intros Hsteps.
  pose proof (sound_steps os start c sound_start Hsteps) as Hs.
  pose proof (snd_unlocked _ Hs) as Hlk.
  destruct (state (world c)) as [r q|l|r|] eqn:Hst.
  - exists (world c). by rewrite (Initial_shutdown _ r q).
  - destruct (sound_holder _ l Hs Hst) as (s & q & p & Hh & Hq & Hp & Hpq & _ & Ha).
    destruct (shutdown_held _ l s q p Hst Hlk Hh Hq Hp Hpq)
      as (w1 & Hsh & Hst1 & _ & He1 & _ & Hl1 & Ha1).
    exists w1. split; [done|]. split.
    + by apply (Initial_shutdown _ (reporter s) (Some q)).
    + split; [by eexists _, _|]. split.
      * rewrite Ha1. by apply subseteq_empty_difference_L.
      * by exists q, p.
  - exists (world c). by rewrite passive_shutdown by (by rewrite ?Hst).
  - exists (world c). by rewrite passive_shutdown by (by rewrite ?Hst).
Qed.

Lemma shutdown_idempotent_witness :
  ∃ w1,
    StateMachine.shutdown (world entered_config) = Return tt w1
    ∧ StateMachine.shutdown w1 = Return tt w1
    ∧ match state (world entered_config) with
      | StartedRef l =>
          (∃ r q, state w1 = Initial r q) ∧ alive w1 = ∅
          ∧ ∃ q p, events w1 = events (world entered_config) ++ [EvPut q; EvJoin p]
      | _ => w1 = world entered_config
      end.
Proof.
  apply (shutdown_idempotent loop_entered). vm_compute. reflexivity.
Defined.

(** X9. In every run, [find_reporter()] returns, and a second call right after
    it returns the same reporter and changes nothing. The reporter is
    [None] only in a machine that was disabled or that was registered
    [None]; in the Started state the call changes nothing. *)
Theorem find_reporter_idempotent (os : list op) (c : config) :
  steps os start = Some c →
  ∃ v w1,
    StateMachine.find_reporter (world c) = Return v w1
    ∧ StateMachine.find_reporter w1 = Return v w1
    ∧ (v = None → state (world c) = Disabled ∨ state (world c) = Registered None)
    ∧ (∀ l, state (world c) = StartedRef l → w1 = world c).
Proof.
  intros Hsteps.
  pose proof (sound_steps os start c sound_start Hsteps) as Hs.
  pose proof (snd_unlocked _ Hs) as Hlk.
  destruct (state (world c)) as [r q|l|r|] eqn:Hst.
  - destruct (find_reporter_Initial _ r q Hst Hlk)
      as (w1 & s & p & Hf & Hst1 & Hl1 & Hpost).
    pose proof (Started_init_post_lookup _ _ _ _ _ _ Hpost) as Hh.
    exists (reporter s), w1. split; [done|]. split.
    + by apply (find_reporter_Started _ _ _ Hst1 Hl1 Hh).
    + split; [|done]. intros Hn.
      destruct (Started_init_post_reporter _ _ _ _ _ _ Hpost) as [rep Hrep].
      congruence.
  - destruct (sound_holder _ l Hs Hst) as (s & q & p & Hh & _).
    exists (reporter s), (world c).
    rewrite (find_reporter_Started _ _ _ Hst Hlk Hh). split_and!; try done.
    intros Hn. destruct (snd_objects _ Hs l s Hh) as ([rep Hrep] & _). congruence.
  - exists r, (world c).
    rewrite (passive_find_reporter (world c)) by (by rewrite ?Hst).
    rewrite Hst. simpl. split_and!; try done. intros ->. by right.
  - exists None, (world c).
    rewrite (passive_find_reporter (world c)) by (by rewrite ?Hst).
    rewrite Hst. simpl. split_and!; try done. intros _. by left.
Qed.

Lemma find_reporter_idempotent_witness :
  ∃ v w1,
    StateMachine.find_reporter (world start) = Return v w1
    ∧ StateMachine.find_reporter w1 = Return v w1
    ∧ (v = None → state (world start) = Disabled ∨ state (world start) = Registered None)
    ∧ (∀ l, state (world start) = StartedRef l → w1 = world start).
Proof.
  apply (find_reporter_idempotent []). reflexivity.
Defined.

(** ** Usages in a thread other than the main one *)

Lemma worker_step o c l s :
  state (world c) = StartedRef l → heap (world c) !! l = Some s →
  locked (world c) = false →
  Forall (worker_frame l) (gens c) → worker_fetch o = true →
  ∃ gs, step o c = Some {| world := world c; gens := gs |}
        ∧ Forall (worker_frame l) gs.
Proof.
  intros Hst Hh Hl Hgs Ho.
  destruct (op_resumption o) as [[[main i] r]|] eqn:Hop.
  - assert (main = false) as ->.
    { destruct o as [| | | | | |m j|m j n|m j|]; try done; simpl in Ho;
        injection Hop as <- _ _; by destruct m. }
    destruct (gens c !! i) as [g|] eqn:Hg.
    2:{ exists (gens c). split; [|done].
        rewrite (step_no_generator o false i r c Hop Hg). by destruct c. }
    pose proof (proj1 (Forall_lookup _ _) Hgs i g Hg) as [->|[->| ->]].
    + destruct (decide (r = RNext)) as [->|Hr].
      * pose proof (next_Fresh_Started false l s (world c) Hst Hl Hh) as Hn.
        simpl in Hn.
        eexists. split; [by eapply step_resumption|].
        apply Forall_insert; [done|]. right; by left.
      * destruct (abandon_Fresh false r (world c) Hr) as [e He].
        eexists. split; [eapply step_resumption; eauto|].
        apply Forall_insert; [done|]. right; by right.
    + destruct (release_plain false r (world c) (StartedRef l)) as [e He].
      eexists. split; [eapply step_resumption; eauto|].
      apply Forall_insert; [done|]. right; by right.
    + destruct (resume_Finished false r (world c)) as [e He].
      eexists. split; [eapply step_resumption; eauto|].
      apply Forall_insert; [done|]. right; by right.
  - destruct o; try done. eexists. split; [done|].
    apply Forall_app. split; [done|]. constructor; [by left|constructor].
Qed.

(** X10. While the machine is in the Started state, usages of [fetch_reporter]
    made in threads other than the main one never touch the machine: the
    first [next] yields the reporter of the state, and no sequence of such
    calls and releases, by [next], [close] or an exception thrown in,
    changes the world - no mark is set, no sentinel is put, no pickup is
    ended or started, the lock is not taken. *)
Theorem worker_usages_leave_world (os : list op) (w : World) (l : oid) (s : Started) :
  state w = StartedRef l → heap w !! l = Some s → locked w = false →
  forallb worker_fetch os = true →
  (∃ gs, steps os {| world := w; gens := [] |} = Some {| world := w; gens := gs |}
         ∧ Forall (worker_frame l) gs)
  ∧ StateMachine.next false StateMachine.GFresh w
    = (plain_gen (StartedRef l), Return (reporter s) w).
Proof.
  intros Hst Hh Hl Hos. split.
  - assert (H : ∀ gs, Forall (worker_frame l) gs →
              ∃ gs', steps os {| world := w; gens := gs |}
                     = Some {| world := w; gens := gs' |}
                     ∧ Forall (worker_frame l) gs').
    { induction os as [|o os IH]; intros gs Hgs; simpl.
      - by exists gs.
      - simpl in Hos. apply andb_prop in Hos as [Ho Hos].
        destruct (worker_step o {| world := w; gens := gs |} l s Hst Hh Hl Hgs Ho)
          as (gs1 & Hstep & Hgs1).
        simpl in *. rewrite Hstep. simpl. by apply IH. }
    by apply H.
  - by rewrite (next_Fresh_Started false l s w Hst Hl Hh).
Qed.

Lemma worker_usages_leave_world_witness :
  ∃ gs, steps [FetchReporter; Next false 0; FetchReporter; Next false 1;
               Throw false 0 3; Close false 1]
          {| world := in_use_world; gens := [] |}
        = Some {| world := in_use_world; gens := gs |}
        ∧ Forall (worker_frame 0) gs.
Proof.
  exact (proj1 (worker_usages_leave_world
                  [FetchReporter; Next false 0; FetchReporter; Next false 1;
                   Throw false 0 3; Close false 1]
                  in_use_world 0 (marked started_object) eq_refl eq_refl eq_refl
                  eq_refl)).
Defined.

(** ** The lock on every way out *)

(** X11. Whichever way a method of the machine ends, by returning or by an
    exception, it has released the lock. When [find_reporter()],
    [flush()] or [shutdown()] ends by an exception - as [flush()] and
    [shutdown()] do on an object without a queue - the assignment to
    [self.state] is not made: the state is the one before the call. The
    machine's generator, resumed in whichever way and in whichever frame,
    leaves the lock free as well. *)
Theorem lock_released_on_every_exit (w : World) :
  locked w = false →
  match StateMachine.find_reporter w with
  | Return _ w' => locked w' = false
  | Raise _ w' => locked w' = false ∧ state w' = state w
  | Hangs => True
  | Undefined => True
  end
  ∧ match StateMachine.flush w with
    | Return _ w' => locked w' = false
    | Raise _ w' => locked w' = false ∧ state w' = state w
    | Hangs => True
    | Undefined => True
    end
  ∧ match StateMachine.shutdown w with
    | Return _ w' => locked w' = false
    | Raise _ w' => locked w' = false ∧ state w' = state w
    | Hangs => True
    | Undefined => True
    end
  ∧ ∀ main g r,
      match (StateMachine.fetch_reporter main g r w).2 with
      | Return _ w' => locked w' = false
      | Raise _ w' => locked w' = false
      | Hangs => True
      | Undefined => True
      end.
Proof.
  intros Hl. split_and!.
  - unfold StateMachine.find_reporter.
    pose proof (locked_method_outcome prepare_reporter w
                  same_state_prepare_reporter Hl) as Hp.
    unfold mbind at 1, M_bind at 1.
    destruct (with_lock _ w) as [[] w1|e w1| |]; try done.
    unfold mbind, M_bind, gets.
    pose proof (state_reporter_pure (state w1) w1) as Hs.
    destruct (state_reporter (state w1) w1); try done. by subst.
  - apply (locked_method_outcome flush); [apply same_state_flush|done].
  - apply (locked_method_outcome shutdown); [apply same_state_shutdown|done].
  - intros main g r.
    destruct (StateMachine.fetch_reporter main g r w) as [g' out] eqn:Hf.
    assert (H : ∀ w', after out = Some w' → locked w' = false).
    { intros w' Ha. rewrite <- Hl.
      apply (machine_fetch_reporter_related (λ w w', locked w' = locked w))
        with main g r g' out; try done.
      - intros ???. congruence.
      - intros w0. destruct (locked w0) eqn:Hl0.
        { unfold with_lock. by rewrite Hl0. }
        pose proof (locked_method_outcome prepare_reporter w0
                      same_state_prepare_reporter Hl0) as Ho.
        destruct (with_lock _ w0); try done. by destruct Ho as (? & _).
      - intros main' st at_ r' w0.
        pose proof (same_state_fetch_reporter main' st at_ r' w0) as Hs.
        destruct (fetch_reporter main' st at_ r' w0); try done; apply Hs. }
    simpl. destruct out; try done; by apply H.
Qed.

Lemma lock_released_on_every_exit_witness :
  match StateMachine.shutdown no_queue_started with
  | Return _ w' => locked w' = false
  | Raise _ w' => locked w' = false ∧ state w' = state no_queue_started
  | Hangs => True
  | Undefined => True
  end.
Proof.
  refine (proj1 (proj2 (proj2 (lock_released_on_every_exit no_queue_started _)))).
  vm_compute. reflexivity.
Defined.

(** ** The generator yields once *)

(** The generator of a state yields on its first [next] only. *)
Lemma state_fetch_yields main st at_ r w p v w' :
  fetch_reporter main st at_ r w = Return (Yields p v) w' →
  at_ = Fresh ∧ r = RNext ∧ (p = AtYield ∨ ∃ l, st = StartedRef l ∧ p = AtYieldTry).
Proof.
  intros Hf.
  destruct (decide (at_ = Fresh ∧ r = RNext)) as [[-> ->]|Hno].
  - split; [done|]. split; [done|].
    pose proof (call_kinds main st w) as Hk. rewrite Hf in Hk.
    destruct Hk as [[-> _]|(l & s & -> & -> & _)]; [by left|].
    right. by exists l.
  - assert ((∃ l, st = StartedRef l ∧ at_ = AtYieldTry)
            ∨ ¬ ∃ l, st = StartedRef l ∧ at_ = AtYieldTry) as [Ht|Ht].
    { destruct st as [| l | |], at_; try (right; by intros (? & ? & ?)).
      left. by exists l. }
    + destruct Ht as (l & -> & ->).
      pose proof (release_quiet main l r w) as Hq.
      cbn [fetch_reporter] in Hf. rewrite Hf in Hq.
      by destruct Hq as [[=] _].
    + pose proof (resume_kinds main st at_ r w) as Hk. rewrite Hf in Hk.
      destruct Hk as [[=] _].
      * intros ->. intros ->. by apply Hno.
      * intros l -> ->. apply Ht. by exists l.
Qed.

Lemma yield_from_yields main sg r w g' v w' :
  StateMachine.yield_from main sg r w = (g', Return v w') →
  r = RNext ∧ gen_pc sg = Fresh ∧ suspended g'.
Proof.
  unfold StateMachine.yield_from, gen_close, gen_resume, closing.
  destruct r;
    destruct (fetch_reporter main (gen_self sg) (gen_pc sg) _ w)
      as [[p v0|] w0|e w0| |] eqn:Hf; try done; try (by destruct e).
  - pose proof (state_fetch_yields _ _ _ _ _ _ _ _ Hf) as (Hat & _ & Hp).
    intros [= <- <- <-]. split; [done|]. split; [done|].
    destruct sg as [st at_]. simpl in *. unfold gen_at. simpl.
    destruct Hp as [->|(l & -> & ->)]; [left; by exists st|right; by exists l].
  - by pose proof (state_fetch_yields _ _ _ _ _ _ _ _ Hf) as (_ & [=] & _).
Qed.

Lemma machine_yields main g r w g' v w' :
  StateMachine.fetch_reporter main g r w = (g', Return v w') →
  r = RNext
  ∧ (g = StateMachine.GFresh
     ∨ ∃ st, g = StateMachine.GYieldFrom {| gen_self := st; gen_pc := Fresh |})
  ∧ suspended g'.
Proof.
  destruct g as [|sg|]; unfold StateMachine.fetch_reporter.
  - destruct r; cbn [resumed mret M_ret raise]; try done.
    destruct (with_lock _ w) as [[] w1|e w1| |]; try done.
    intros (_ & _ & Hs)%yield_from_yields. split; [done|]. split; [by left|done].
  - intros (-> & Hpc & Hs)%yield_from_yields. split; [done|]. split; [|done].
    right. destruct sg as [st at_]. simpl in Hpc. subst. by exists st.
  - by destruct r.
Qed.

(** An exception leaving the machine's generator finishes it. *)
Lemma machine_raises main g r w g' e w' :
  StateMachine.fetch_reporter main g r w = (g', Raise e w') →
  g' = StateMachine.GFinished.
Proof.
  assert (Hy : ∀ sg r0 w0,
            StateMachine.yield_from main sg r0 w0 = (g', Raise e w') →
            g' = StateMachine.GFinished).
  { intros sg r0 w0.
    unfold StateMachine.yield_from, gen_close, gen_resume, closing.
    destruct (fetch_reporter main (gen_self sg) (gen_pc sg) r0 w0)
      as [[p v0|] w1|e1 w1| |] eqn:Hf;
      destruct r0; rewrite ?Hf; try (by intros [= <-]); try done.
    destruct e1; by intros [= <-]. }
  destruct g as [|sg|]; unfold StateMachine.fetch_reporter.
  - destruct r; cbn [resumed mret M_ret raise]; try (by intros [= <-]).
    destruct (with_lock _ w) as [[] w1|e1 w1| |]; try (by intros [= <-]).
    apply Hy.
  - apply Hy.
  - destruct r; by intros [= <-].
Qed.

(** X12. The machine's generator yields exactly once. Whatever makes it yield
    is the first [next] of a generator that has not run, and leaves it
    suspended at a [yield]; from there no resumption - [next], [throw] or
    [close], on any thread, in any world - makes it yield again, and an
    exception that leaves the generator finishes it. *)
Theorem fetch_reporter_yields_once (main : bool) (g : StateMachine.Gen)
    (r : resumption) (w : World) (g' : StateMachine.Gen)
    (v : option ProgressReporter) (w' : World) :
  StateMachine.fetch_reporter main g r w = (g', Return v w') →
  r = RNext
  ∧ (g = StateMachine.GFresh
     ∨ ∃ st, g = StateMachine.GYieldFrom {| gen_self := st; gen_pc := Fresh |})
  ∧ suspended g'
  ∧ ∀ main' r' w1,
      match StateMachine.fetch_reporter main' g' r' w1 with
      | (_, Return _ _) => False
      | (g2, Raise _ _) => g2 = StateMachine.GFinished
      | (_, Hangs) => True
      | (_, Undefined) => True
      end.
Proof.
  intros Hf. destruct (machine_yields _ _ _ _ _ _ _ Hf) as (-> & Hg & Hs).
  split; [done|]. split; [done|]. split; [done|].
  intros main' r' w1.
  destruct (StateMachine.fetch_reporter main' g' r' w1) as [g2 [v2 w2|e w2| |]] eqn:Hf2;
    try done.
  - apply machine_yields in Hf2 as (_ & [->|[st ->]] & _).
    + by destruct Hs as [[? [=]]|[? [=]]].
    + by destruct Hs as [[? [=]]|[? [=]]].
  - by eapply machine_raises.
Qed.

Lemma fetch_reporter_yields_once_witness :
  RNext = RNext
  ∧ (StateMachine.GFresh = StateMachine.GFresh
     ∨ ∃ st, StateMachine.GFresh
             = StateMachine.GYieldFrom {| gen_self := st; gen_pc := Fresh |})
  ∧ suspended (outermost_gen 0)
  ∧ ∀ main' r' w1,
      match StateMachine.fetch_reporter main' (outermost_gen 0) r' w1 with
      | (_, Return _ _) => False
      | (g2, Raise _ _) => g2 = StateMachine.GFinished
      | (_, Hangs) => True
      | (_, Undefined) => True
      end.
Proof.
  apply (fetch_reporter_yields_once true StateMachine.GFresh RNext StateMachine.init
           (outermost_gen 0) (Some started_reporter) in_use_world).
  vm_compute. reflexivity.
Defined.

(** ** No operation of a run blocks *)

Lemma frame_resumption main g r w g' out w' :
  StateMachine.fetch_reporter main g r w = (g', out) → after out = Some w' →
  frame g'.
Proof.
  intros Hf Ha. destruct out as [v w1|e w1| |]; try done.
  - apply machine_yields in Hf as (_ & _ & Hs). right. by left.
  - apply machine_raises in Hf as ->. right. by right.
Qed.

Lemma frames_step o c c' :
  Forall frame (gens c) → step o c = Some c' → Forall frame (gens c').
Proof.
  intros Hgs Hstep.
  destruct (op_resumption o) as [[[main j] r]|] eqn:Hop.
  - destruct (step_resumption_cases o main j r c c' Hop Hstep)
      as [[_ ->]|(g & g' & out & Hg & Hf & Ha & ->)]; [done|].
    apply Forall_insert; [done|]. by eapply frame_resumption.
  - destruct o; try done; simpl in Hstep;
      try (apply call_inv in Hstep as [_ ->]; done).
    injection Hstep as <-. simpl. apply Forall_app. split; [done|].
    constructor; [by left|constructor].
Qed.

Lemma frames_steps os c c' :
  Forall frame (gens c) → steps os c = Some c' → Forall frame (gens c').
Proof.
  revert c. induction os as [|o os IH]; intros c Hc; simpl.
  - by intros [= <-].
  - destruct (step o c) as [c1|] eqn:Hstep; simpl; [|done].
    apply IH. by eapply frames_step.
Qed.

Lemma sound_find_reporter_returns w :
  sound w → ∃ v w', StateMachine.find_reporter w = Return v w'.
Proof.
  intros Hs. pose proof (snd_unlocked _ Hs) as Hlk.
  destruct (state w) as [r q|l|r|] eqn:Hst.
  - destruct (find_reporter_Initial w r q Hst Hlk) as (w' & s & p & Hf & _).
    by eexists _, _.
  - destruct (sound_holder w l Hs Hst) as (s & q & p & Hh & _).
    eexists _, _. by apply (find_reporter_Started w l s Hst Hlk).
  - eexists _, _. apply passive_find_reporter; [by rewrite Hst|done].
  - eexists _, _. apply passive_find_reporter; [by rewrite Hst|done].
Qed.

Lemma sound_shutdown_returns w : sound w → ∃ w', StateMachine.shutdown w = Return tt w'.
Proof.
  intros Hs. pose proof (snd_unlocked _ Hs) as Hlk.
  destruct (state w) as [r q|l|r|] eqn:Hst.
  - eexists. by apply (Initial_shutdown w r q).
  - destruct (sound_holder w l Hs Hst) as (s & q & p & Hh & Hq & Hp & Hpq & _).
    destruct (shutdown_held w l s q p Hst Hlk Hh Hq Hp Hpq) as (w' & Hsh & _).
    by eexists.
  - eexists. apply passive_shutdown; [by rewrite Hst|done].
  - eexists. apply passive_shutdown; [by rewrite Hst|done].
Qed.

(** The first [next] of a generator in a world of a run. *)
Lemma sound_next_Fresh main w :
  sound w → ∃ g' v w', StateMachine.next main StateMachine.GFresh w = (g', Return v w').
Proof.
  intros Hs. pose proof (snd_unlocked _ Hs) as Hlk.
  destruct (state w) as [r q|l|r|] eqn:Hst.
  - destruct (next_Fresh_Initial main r q w Hst Hlk) as (w' & s & p & _ & _ & _ & Hn).
    rewrite Hn. destruct main; by eexists _, _, _.
  - destruct (sound_holder w l Hs Hst) as (s & q & p & Hh & _).
    rewrite (next_Fresh_Started main l s w Hst Hlk Hh).
    destruct (main && negb (reporter_yielded s)); by eexists _, _, _.
  - rewrite passive_next_Fresh; [by eexists _, _, _|by rewrite Hst|done].
  - rewrite passive_next_Fresh; [by eexists _, _, _|by rewrite Hst|done].
Qed.

(** The release of an outermost usage in a world of a run. *)
Lemma sound_release_ends main r w l s :
  sound w → heap w !! l = Some s →
  ∃ e w', StateMachine.fetch_reporter main (outermost_gen l) r w
          = (StateMachine.GFinished, Raise e w').
Proof.
  intros Hs Hh. pose proof (snd_unlocked _ Hs) as Hlk.
  destruct (snd_objects _ Hs l s Hh) as (_ & [q Hq] & Hobj).
  destruct (to_restart_pickup s) eqn:Hr.
  - destruct (pickup s) as [p|] eqn:Hp.
    + destruct (Hobj p eq_refl) as (Hpq & _ & Ha).
      destruct (release_held main r w l s q p) as (w' & Hrel & _);
        try done; [congruence|].
      by eexists _, _.
    + eexists _, _. by apply (release_stale main r w l s q).
  - eexists _, _. by apply release_detached.
Qed.

Lemma sound_resumption_ends main g r w :
  sound w → frame g → (∀ l, g = outermost_gen l → is_Some (heap w !! l)) →
  ∃ g' out w', StateMachine.fetch_reporter main g r w = (g', out)
               ∧ after out = Some w'.
Proof.
  intros Hs Hg Hh. destruct Hg as [->|[[[st ->]|[l ->]]| ->]].
  - destruct (decide (r = RNext)) as [->|Hr].
    + destruct (sound_next_Fresh main w Hs) as (g' & v & w' & Hn).
      by eexists _, _, _.
    + destruct (abandon_Fresh main r w Hr) as [e He]. by eexists _, _, _.
  - destruct (release_plain main r w st) as [e He]. by eexists _, _, _.
  - destruct (Hh l eq_refl) as [s Hl].
    destruct (sound_release_ends main r w l s Hs Hl) as (e & w' & He).
    by eexists _, _, _.
  - destruct (resume_Finished main r w) as [e He]. by eexists _, _, _.
Qed.

(** X13. In every run of a process, the lock is free between two operations and
    the next operation ends: a method returns or raises, a generator
    yields or finishes. No call finds the lock held, no join waits for a
    pickup that was sent no sentinel, and no generator refers to an object
    that does not exist. Sequential use of the machine cannot deadlock. *)
Theorem run_never_blocks (os : list op) (c : config) (o : op) :
  steps os start = Some c → enabled o c →
  locked (world c) = false ∧ ∃ c', step o c = Some c'.
Proof.
  intros Hsteps Hen.
  pose proof (sound_steps os start c sound_start Hsteps) as Hs.
  pose proof (consistent_steps os start c consistent_start Hsteps) as Hc.
  assert (Hfr : Forall frame (gens c)).
  { by apply (frames_steps os start c). }
  split; [apply Hs|].
  destruct (op_resumption o) as [[[main i] r]|] eqn:Hop.
  - destruct (gens c !! i) as [g|] eqn:Hg.
    2:{ exists c. by eapply step_no_generator. }
    pose proof (proj1 (Forall_lookup _ _) Hfr i g Hg) as Hframe.
    destruct (sound_resumption_ends main g r (world c) Hs Hframe)
      as (g' & out & w' & Hf & Ha).
    { intros l ->. destruct (cons_marked _ Hc i l Hg) as (s & Hl & _). by eexists. }
    destruct o; try done; injection Hop as -> -> <-; simpl; unfold resume_at;
      rewrite Hg.
    + unfold StateMachine.next. rewrite Hf. simpl. rewrite Ha. by eexists.
    + unfold StateMachine.throw. rewrite Hf. simpl. rewrite Ha. by eexists.
    + unfold StateMachine.close.
      pose proof (after_closing (StateMachine.fetch_reporter main g RClose (world c)))
        as [_ Hcl].
      destruct (closing _) as [g2 o2]. rewrite Hf in Hcl. simpl in Hcl.
      rewrite Hcl, Ha. by eexists.
  - destruct o; try done; simpl; unfold call.
    + destruct (sound_find_reporter_returns _ Hs) as (v & w' & ->). by eexists.
    + by eexists.
    + destruct (sound_flush_returns _ Hs) as (w' & ->). by eexists.
    + by eexists.
    + destruct (sound_shutdown_returns _ Hs) as (w' & ->). by eexists.
    + by eexists.
    + destruct Hen as [s Hl]. rewrite (detach_spec _ _ _ Hl). by eexists.
Qed.

Lemma run_never_blocks_witness :
  locked (world detached_config) = false
  ∧ ∃ c', step (Close true 0) detached_config = Some c'.
Proof.
  apply (run_never_blocks (loop_entered ++ worker_reports)); [|exact I].
  vm_compute. reflexivity.
Defined.

(** ** Pickups are started once and joined once *)

(** X14. In every run of a process, [start()] is never called twice on the same
    pickup - every start is that of a pickup newly built - and [join()] is
    called on a pickup only after its start, and at most once. The pickup
    an object holds was built with the [detach] of that very object, has
    been started and has not been joined. *)
Theorem pickups_started_and_joined_once (os : list op) (c : config) :
  steps os start = Some c →
  NoDup (pickup_id <$> started (events (world c)))
  ∧ NoDup (joined (events (world c)))
  ∧ (∀ i p, events (world c) !! i = Some (EvJoin p) →
       ∃ j, j < i ∧ events (world c) !! j = Some (EvStart p))
  ∧ (∀ l s p, heap (world c) !! l = Some s → pickup s = Some p →
       pickup_detach p = l ∧ EvStart p ∈ events (world c)
       ∧ EvJoin p ∉ events (world c)).
Proof.
  intros Hsteps.
  pose proof (trace_ok_steps os start c trace_ok_init Hsteps) as [].
  done.
Qed.

Lemma pickups_started_and_joined_once_witness :
  NoDup (pickup_id <$> started (events (world detached_config)))
  ∧ NoDup (joined (events (world detached_config)))
  ∧ (∀ i p, events (world detached_config) !! i = Some (EvJoin p) →
       ∃ j, j < i ∧ events (world detached_config) !! j = Some (EvStart p))
  ∧ (∀ l s p, heap (world detached_config) !! l = Some s → pickup s = Some p →
       pickup_detach p = l ∧ EvStart p ∈ events (world detached_config)
       ∧ EvJoin p ∉ events (world detached_config)).
Proof.
  apply (pickups_started_and_joined_once (loop_entered ++ worker_reports)).
  vm_compute. reflexivity.
Defined.

(** ** One reporter and one queue for the life of the process *)

(** X15. Once the machine of a process is in the Started state, the reporter
    and the queue of that state are the reporter and the queue of every
    [Started] object there is and of every one made later: whatever the
    program does next - restarts, flushes, shutdowns and new starts among
    it - no second reporter and no second queue is built. An Initial state
    left by a shutdown carries them, and as long as the machine is not
    disabled or registered, [find_reporter()] returns that reporter and the
    first [next] of [fetch_reporter()] yields it. *)
Theorem reporter_and_queue_made_once (os1 os2 : list op) (c1 c2 : config) (l : oid)
    (s : Started) :
  steps os1 start = Some c1 →
  state (world c1) = StartedRef l → heap (world c1) !! l = Some s →
  steps os2 c1 = Some c2 →
  is_Some (reporter s)
  ∧ (∀ l' s', heap (world c2) !! l' = Some s' →
       reporter s' = reporter s ∧ queue s' = queue s)
  ∧ (∀ r q, state (world c2) = Initial r q → r = reporter s ∧ q = queue s)
  ∧ (¬ passive (state (world c2)) →
     (∃ w2, StateMachine.find_reporter (world c2) = Return (reporter s) w2)
     ∧ ∀ main, ∃ g w2, StateMachine.next main StateMachine.GFresh (world c2)
                       = (g, Return (reporter s) w2)).
Proof.
  intros Hs1 Hst Hl Hs2.
  pose proof (uniform_steps os1 start c1 uniform_init Hs1) as [He|(rep & q & Hsh)].
  { by rewrite He, lookup_empty in Hl. }
  destruct (proj1 Hsh l s Hl) as [Hrep Hq].
  pose proof (shared_steps rep q os2 c1 c2 Hsh Hs2) as [Hobj Hini].
  assert (Hsteps : steps (os1 ++ os2) start = Some c2).
  { rewrite steps_app, Hs1. done. }
  pose proof (sound_steps _ start c2 sound_start Hsteps) as Hsound.
  pose proof (snd_unlocked _ Hsound) as Hlk.
  rewrite Hrep, Hq. split; [by eexists|]. split; [done|]. split; [done|].
  intros Hpas. destruct (state (world c2)) as [r q0|l2|r|] eqn:Hst2;
    try (by destruct Hpas).
  - destruct (Hini r q0 eq_refl) as [-> ->]. split.
    + destruct (find_reporter_Initial _ _ _ Hst2 Hlk)
        as (w2 & s2 & p2 & Hf & _ & _ & Hpost).
      destruct (init_reporter_kept _ _ _ _ _ _ Hpost rep eq_refl) as [Hr2 _].
      exists w2. by rewrite Hf, Hr2.
    + intros main.
      destruct (next_Fresh_Initial main _ _ _ Hst2 Hlk)
        as (w2 & s2 & p2 & Hpost & _ & _ & Hn).
      destruct (init_reporter_kept _ _ _ _ _ _ Hpost rep eq_refl) as [Hr2 _].
      rewrite Hn, Hr2. destruct main; by eexists _, _.
  - destruct (sound_holder _ l2 Hsound Hst2) as (s2 & q2 & p2 & Hl2 & _).
    destruct (Hobj l2 s2 Hl2) as [Hr2 _]. split.
    + exists (world c2). by rewrite (find_reporter_Started _ _ _ Hst2 Hlk Hl2), Hr2.
    + intros main. rewrite (next_Fresh_Started main _ _ _ Hst2 Hlk Hl2), Hr2.
      destruct (main && negb (reporter_yielded s2)); by eexists _, _.
Qed.

Lemma reporter_and_queue_made_once_witness :
  is_Some (reporter started_object)
  ∧ (∀ l' s', heap (world detached_config) !! l' = Some s' →
       reporter s' = reporter started_object ∧ queue s' = queue started_object)
  ∧ (∀ r q, state (world detached_config) = Initial r q →
       r = reporter started_object ∧ q = queue started_object)
  ∧ (¬ passive (state (world detached_config)) →
     (∃ w2, StateMachine.find_reporter (world detached_config)
            = Return (reporter started_object) w2)
     ∧ ∀ main, ∃ g w2,
         StateMachine.next main StateMachine.GFresh (world detached_config)
         = (g, Return (reporter started_object) w2)).
Proof.
  apply (reporter_and_queue_made_once [FindReporter] (loop_entered ++ worker_reports)
           {| world := started_world; gens := [] |} detached_config 0 started_object);
    vm_compute; reflexivity.
Defined.

(** ** Disabling and registering are for good *)

Lemma permanent_step o c c' :
  passive (state (world c)) → locked (world c) = false →
  Forall passive_pool_frame (gens c) → step o c = Some c' →
  passive (state (world c')) ∧ Forall passive_pool_frame (gens c')
  ∧ untouched (world c) (world c').
Proof.
  intros Hp Hl Hgs Hstep.
  destruct (op_resumption o) as [[[main i] r]|] eqn:Hop.
  - destruct (step_resumption_cases o main i r c c' Hop Hstep)
      as [[_ ->]|(g & g' & out & Hg & Hf & Ha & ->)]; [done|].
    assert (world c' = world c ∧ passive_pool_frame g') as [-> Hg'].
    { pose proof (proj1 (Forall_lookup _ _) Hgs i g Hg) as [->|[(st & Hst & ->)| ->]].
      - destruct (decide (r = RNext)) as [->|Hr].
        + pose proof (passive_next_Fresh main (world c) Hp Hl) as Hn.
          unfold StateMachine.next in Hn. rewrite Hn in Hf.
          injection Hf as <- <-. injection Ha as <-. split; [done|].
          right; left. by exists (state (world c)).
        + destruct (abandon_Fresh main r (world c) Hr) as [e He].
          rewrite He in Hf. injection Hf as <- <-. injection Ha as <-.
          split; [done|]. right; by right.
      - destruct (release_plain main r (world c) st) as [e He].
        rewrite He in Hf. injection Hf as <- <-. injection Ha as <-.
        split; [done|]. right; by right.
      - destruct (resume_Finished main r (world c)) as [e He].
        rewrite He in Hf. injection Hf as <- <-. injection Ha as <-.
        split; [done|]. right; by right. }
    split; [done|]. split; [|done]. by apply Forall_insert.
  - destruct o; try done; simpl in Hstep.
    + apply call_inv in Hstep as [Ha ->].
      rewrite passive_find_reporter in Ha by done. by injection Ha as <-.
    + apply call_inv in Hstep as [[= <-] ->]. done.
    + apply call_inv in Hstep as [Ha ->].
      rewrite passive_flush in Ha by done. by injection Ha as <-.
    + apply call_inv in Hstep as [[= <-] ->]. done.
    + apply call_inv in Hstep as [Ha ->].
      rewrite passive_shutdown in Ha by done. by injection Ha as <-.
    + injection Hstep as <-. simpl. split; [done|]. split; [|done].
      apply Forall_app. split; [done|]. constructor; [by left|constructor].
    + apply call_inv in Hstep as [Ha ->].
      destruct (heap (world c) !! l) as [s|] eqn:Hh.
      * rewrite (detach_spec _ _ _ Hh) in Ha. by injection Ha as <-.
      * unfold detach, set_to_restart_pickup, mbind, M_bind, read in Ha.
        by rewrite Hh in Ha.
Qed.

(** X16. Once the machine is Disabled or Registered it stays so: whatever is
    called on it afterwards - [find_reporter], [flush], [shutdown],
    [register_reporter], [disable], new [fetch_reporter] usages on any
    thread, detach callbacks - the state is again Disabled or Registered,
    and nothing is allocated, no sentinel is put and no pickup is started
    or joined. No method of the machine brings it back to Initial or
    Started. *)
Theorem passive_is_permanent (os : list op) (w : World) (c' : config) :
  passive (state w) → locked w = false →
  steps os {| world := w; gens := [] |} = Some c' →
  passive (state (world c')) ∧ untouched w (world c').
Proof.
  intros Hp Hl.
  assert (H : ∀ c, passive (state (world c)) → locked (world c) = false →
            Forall passive_pool_frame (gens c) → steps os c = Some c' →
            passive (state (world c')) ∧ untouched (world c) (world c')).
  { induction os as [|o os IH]; intros c Hpc Hlc Hgs; simpl.
    - by intros [= <-].
    - destruct (step o c) as [c1|] eqn:Hstep; simpl; [|done].
      destruct (permanent_step o c c1 Hpc Hlc Hgs Hstep)
        as (Hp1 & Hgs1 & He & Ha & Hsn & Hn & Hlk).
      intros Hsteps.
      destruct (IH c1 Hp1 (eq_trans Hlk Hlc) Hgs1 Hsteps)
        as (Hp' & He' & Ha' & Hsn' & Hn' & Hlk').
      split; [done|]. unfold untouched. split_and!; congruence. }
  by apply (H {| world := w; gens := [] |}).
Qed.

Lemma passive_is_permanent_witness :
  ∃ c', steps [FetchReporter; Next true 0; RegisterReporter (Some started_reporter);
               Flush; FindReporter; Disable; Shutdown; Next true 0]
          {| world := disabled_world; gens := [] |} = Some c'
        ∧ passive (state (world c')) ∧ untouched disabled_world (world c').
Proof.
  eexists. split; [vm_compute; reflexivity|].
  apply (passive_is_permanent
           [FetchReporter; Next true 0; RegisterReporter (Some started_reporter);
            Flush; FindReporter; Disable; Shutdown; Next true 0] disabled_world);
    [exact I|reflexivity|vm_compute; reflexivity].
Defined.

(** ** The first [next] is not atomic *)

(** X17. The first [next] of the machine's generator runs two statements,
    and the lock is released between them: without interruption they make
    up the first [next]. When another thread calls [shutdown()] after the
    state was prepared and before [self.state] is read for the delegation,
    the generator delegates to the generator of the Initial state that the
    shutdown left. It then yields the reporter carried forward while the
    machine is Initial and no pickup task is alive; it makes no Started
    state, marks no object, and its release changes nothing. *)
Theorem shutdown_before_delegation (w : World) (l : oid) (s : Started) (q : oid)
    (p : ProgressReportPickup) (main : bool) :
  running w l s q p →
  fetch_reporter_entry w = Return tt w
  ∧ StateMachine.next main StateMachine.GFresh w = fetch_reporter_delegation main w
  ∧ (∀ w0 w1, fetch_reporter_entry w0 = Return tt w1 →
       StateMachine.next main StateMachine.GFresh w0
       = fetch_reporter_delegation main w1)
  ∧ ∃ w1,
      StateMachine.shutdown w = Return tt w1
      ∧ state w1 = Initial (reporter s) (Some q) ∧ alive w1 = ∅
      ∧ fetch_reporter_delegation main w1
        = (plain_gen (Initial (reporter s) (Some q)), Return (reporter s) w1)
      ∧ ∀ main' r, ∃ e,
          StateMachine.fetch_reporter main' (plain_gen (Initial (reporter s) (Some q)))
            r w1
          = (StateMachine.GFinished, Raise e w1).
Proof.
  intros Hrun. pose proof Hrun as [Hst Hh Hq Hp Hpq Ha H0 Hf Hlk].
  assert (Hentry : ∀ w0 w1, fetch_reporter_entry w0 = Return tt w1 →
            StateMachine.next main StateMachine.GFresh w0
            = fetch_reporter_delegation main w1).
  { intros w0 w1 He. unfold StateMachine.next, StateMachine.fetch_reporter.
    cbn [resumed mret M_ret]. unfold fetch_reporter_entry in He. by rewrite He. }
  assert (He : fetch_reporter_entry w = Return tt w).
  { apply prepare_other; [|done]. by rewrite Hst. }
  split; [done|]. split; [by apply Hentry|]. split; [done|].
  exists (set_state (Initial (reporter s) (Some q)) (ended_pickup w l s q p)).
  split; [by apply shutdown_running|]. split; [done|]. split.
  { simpl. rewrite Ha. apply difference_diag_L. }
  split; [done|]. intros main' r. apply release_plain.
Qed.

Lemma shutdown_before_delegation_witness :
  ∃ w1,
    StateMachine.shutdown started_world = Return tt w1
    ∧ state w1 = Initial (reporter started_object) (Some 1) ∧ alive w1 = ∅
    ∧ fetch_reporter_delegation true w1
      = (plain_gen (Initial (reporter started_object) (Some 1)),
         Return (reporter started_object) w1).
Proof.
  destruct (shutdown_before_delegation started_world 0 started_object 1
              started_pickup_object true started_world_running)
    as (_ & _ & _ & w1 & H1 & H2 & H3 & H4 & _).
  exists w1. exact (conj H1 (conj H2 (conj H3 H4))).
Defined.

(** ** Nesting is told by the object, not by the machine *)

(** X18. Whether a main-thread call is nested is read off the [Started]
    object of the current state. While an outermost loop is open a new call
    on the main thread is a nested one; but after a [shutdown()] inside
    that loop the next call makes a new [Started] object, whose mark is not
    set, and is taken for an outermost usage again, although the outer loop
    is still open and its object still marked. *)
Theorem shutdown_forgets_nesting (os : list op) (c : config) (l : oid) (s : Started) :
  steps os start = Some c →
  state (world c) = StartedRef l → heap (world c) !! l = Some s →
  reporter_yielded s = true →
  StateMachine.next true StateMachine.GFresh (world c)
  = (plain_gen (StartedRef l), Return (reporter s) (world c))
  ∧ ∃ w1 w2 l' s' s0,
      StateMachine.shutdown (world c) = Return tt w1
      ∧ StateMachine.next true StateMachine.GFresh w1
        = (outermost_gen l', Return (reporter s) w2)
      ∧ l' ≠ l
      ∧ state w2 = StartedRef l'
      ∧ heap w2 !! l' = Some s' ∧ reporter_yielded s' = true
      ∧ is_Some (pickup s')
      ∧ heap w2 !! l = Some s0 ∧ reporter_yielded s0 = true ∧ pickup s0 = None.
Proof.
  intros Hsteps Hst Hl Hy.
  pose proof (sound_steps os start c sound_start Hsteps) as Hs.
  pose proof (snd_unlocked _ Hs) as Hlk.
  destruct (sound_holder _ l Hs Hst) as (s1 & q & p & Hl1 & Hq & Hp & Hpq & _).
  assert (s1 = s) as -> by congruence.
  assert (Hlt : l < next_id (world c)).
  { apply (snd_bounded _ Hs). by eexists. }
  destruct (snd_objects _ Hs l s Hl) as ([rep Hrep] & _).
  split.
  { rewrite (next_Fresh_Started true l s (world c) Hst Hlk Hl). by rewrite Hy. }
  destruct (shutdown_held _ l s q p Hst Hlk Hl Hq Hp Hpq)
    as (w1 & Hsh & Hst1 & Hh1 & _ & Hn1 & Hlk1 & _).
  destruct (next_Fresh_Initial true (reporter s) (Some q) w1 Hst1 Hlk1)
    as (w' & s2 & p2 & Hpost & Hst' & Hlk' & Hn).
  rewrite Hrep in Hpost.
  destruct (init_reporter_kept _ _ _ _ _ _ Hpost rep eq_refl) as [Hr2 _].
  exists w1, (set_heap (<[next_id w1:=marked s2]> (heap w')) w'), (next_id w1),
    (marked s2), (with_pickup None s).
  split; [done|]. split; [by rewrite Hn, Hr2, Hrep|].
  assert (Hne : next_id w1 ≠ l) by lia.
  split; [done|]. split; [done|]. simpl.
  rewrite lookup_insert_eq. split; [done|]. split; [done|].
  split; [rewrite (init_pickup _ _ _ _ _ _ Hpost); by eexists|].
  rewrite lookup_insert_ne by done. rewrite (init_heap _ _ _ _ _ _ Hpost).
  rewrite lookup_insert_ne by done. rewrite Hh1, lookup_insert_eq. done.
Qed.

Lemma shutdown_forgets_nesting_witness :
  StateMachine.next true StateMachine.GFresh (world entered_config)
  = (plain_gen (StartedRef 0),
     Return (reporter (marked started_object)) (world entered_config))
  ∧ ∃ w1 w2 l' s' s0,
      StateMachine.shutdown (world entered_config) = Return tt w1
      ∧ StateMachine.next true StateMachine.GFresh w1
        = (outermost_gen l', Return (reporter (marked started_object)) w2)
      ∧ l' ≠ 0
      ∧ state w2 = StartedRef l'
      ∧ heap w2 !! l' = Some s' ∧ reporter_yielded s' = true
      ∧ is_Some (pickup s')
      ∧ heap w2 !! 0 = Some s0 ∧ reporter_yielded s0 = true ∧ pickup s0 = None.
Proof.
  apply (shutdown_forgets_nesting loop_entered entered_config 0 (marked started_object));
    vm_compute; reflexivity.
Defined.

(** ** Runs of a new process, evaluated *)

Example first_find_reporter :
  StateMachine.find_reporter StateMachine.init = Return (Some started_reporter) started_world
  ∧ state started_world = StartedRef 0
  ∧ heap started_world !! 0 = Some started_object
  ∧ alive started_world = {[3]}
  ∧ events started_world = [EvStart started_pickup_object].
Proof. by vm_compute. Qed.

(** Two nested loops: one restart, when the outer loop ends. *)
Example nested_loops_trace :
  trace_of nested_loops start
  = Some [EvStart started_pickup_object; EvPut 1; EvJoin started_pickup_object;
          EvStart restarted_pickup_object]
  ∧ trace_of (removelast nested_loops) start = Some [EvStart started_pickup_object].
Proof. by vm_compute. Qed.

(** Two loops in a row: one restart each. *)
Example two_loops_trace :
  trace_of [FetchReporter; Next true 0; Next true 0;
            FetchReporter; Next true 1; Close true 1] start
  = Some [EvStart started_pickup_object; EvPut 1; EvJoin started_pickup_object;
          EvStart restarted_pickup_object; EvPut 1; EvJoin restarted_pickup_object;
          EvStart {| pickup_id := 5; pickup_queue := Some 1; pickup_detach := 0 |}].
Proof. by vm_compute. Qed.

(** A loop in a thread other than the main one: no restart. *)
Example worker_thread_trace :
  trace_of [FetchReporter; Next false 0; Next false 0] start
  = Some [EvStart started_pickup_object].
Proof. by vm_compute. Qed.

(** A report from a worker during the loop: no restart at its end; an
    exception thrown into the generator is then discarded by the [return]
    of the [finally] block. *)
Example detached_trace :
  trace_of (loop_entered ++ worker_reports ++ [Next true 0]) start
  = Some [EvStart started_pickup_object]
  ∧ (StateMachine.throw true (outermost_gen 0) 7 (world detached_config)).2
    = Raise StopIteration (unmark 0 (with_to_restart_pickup false (marked started_object))
                             (world detached_config)).
Proof. by vm_compute. Qed.

(** A shutdown during the loop leaves the object of the loop without a
    pickup: the release puts a sentinel and fails on the join. *)
Example release_after_shutdown :
  ∃ w', (StateMachine.next true (outermost_gen 0)
           (default StateMachine.init
              (after (StateMachine.shutdown (world entered_config))))).2
        = Raise AttributeError w'
        ∧ events w' = [EvStart started_pickup_object; EvPut 1;
                       EvJoin started_pickup_object; EvPut 1]
        ∧ pending w' 1 = 1 ∧ alive w' = ∅.
Proof. eexists. by vm_compute. Qed.

(** The sentinel that this release leaves on the queue is taken by the
    pickup that the next [find_reporter()] starts: the task exits, and the
    machine is in the Started state with no task alive. *)
Example start_after_stale_release :
  trace_of (shutdown_in_loop ++ [FindReporter]) start
  = Some [EvStart started_pickup_object; EvPut 1; EvJoin started_pickup_object;
          EvPut 1;
          EvStart {| pickup_id := 5; pickup_queue := Some 1; pickup_detach := 4 |}]
  ∧ (λ c, (state (world c), alive (world c), pending (world c) 1))
      <$> steps (shutdown_in_loop ++ [FindReporter]) start
    = Some (StartedRef 4, ∅, 0).
Proof. by vm_compute. Qed.
